(** * NeuroForge: the hybrid memory engine and the task agent

    A shallow embedding of [agent/memory_engine.py] and
    [agent/task_agent.py], with the properties of the tiered record
    store (cache, durable log, search index) and of the task queue and
    orchestrator that the design document states about them.

    Conventions of the embedding.
    - A Python [dict] is an insertion-ordered association list
      ([PyDict.t]): assignment to a present key keeps its position,
      assignment to an absent key appends, [del] of an absent key is a
      [KeyError].
    - Python integers are [Z]; clock readings ([time.time()],
      [datetime.now()]) are [Z] as well, in an arbitrary unit.
    - Code that can raise returns a [result]; code that mutates objects
      threads the mutated state and keeps every mutation made before
      an exception.
    - Values are immutable: a caller that changes a payload after it
      passed it to the engine is outside the embedding.
    - Calls into libraries are taken by their contract: the JSON codec
      and the search index are operations of a [Backend]. The
      [asyncio.PriorityQueue] is the list it keeps as a binary heap
      with [heapq.heappush] and [heapq.heappop], which are embedded
      from [Lib/heapq.py]. *)

From Stdlib Require Import List String ZArith Lia Bool Arith Sorted Permutation.
From Stdlib Require Import QArith DecimalString.
Import ListNotations.
Open Scope string_scope.
Open Scope list_scope.
Open Scope Z_scope.

Set Warnings "-register-all".

(** ** Exceptions and results *)

(** An exception is its class name and its message ([str(e)]). Only
    subclasses of [Exception] are modelled. *)
Inductive exn : Type :=
| Exception (cls : string) (msg : string).

Definition str_exn (e : exn) : string :=
  match e with Exception _ msg => msg end.

Definition KeyError (k : string) : exn := Exception "KeyError" k.
Definition ValueError (msg : string) : exn := Exception "ValueError" msg.
Definition LmdbError (msg : string) : exn := Exception "lmdb.Error" msg.
Definition JSONDecodeError (msg : string) : exn :=
  Exception "json.JSONDecodeError" msg.

Inductive result (A : Type) : Type :=
| Ok (a : A)
| Raise (e : exn).
Arguments Ok {A} a.
Arguments Raise {A} e.

(** ** Python dictionaries *)

Module PyDict.
Section Dict.
Context {V : Type}.

Definition t : Type := list (string * V).

Definition empty : t := [].

(** [d.get(k)], and [d[k]] when it is [Some]. *)
Fixpoint get (k : string) (d : t) : option V :=
  match d with
  | [] => None
  | (k', v) :: r => if String.eqb k k' then Some v else get k r
  end.

(** [k in d] *)
Definition mem (k : string) (d : t) : bool :=
  match get k d with Some _ => true | None => false end.

(** [d[k] = v] *)
Fixpoint set (k : string) (v : V) (d : t) : t :=
  match d with
  | [] => [(k, v)]
  | (k', v') :: r =>
      if String.eqb k k' then (k', v) :: r else (k', v') :: set k v r
  end.

(** [del d[k]]; [None] is the [KeyError]. *)
Fixpoint del (k : string) (d : t) : option t :=
  match d with
  | [] => None
  | (k', v') :: r =>
      if String.eqb k k' then Some r
      else match del k r with
           | Some r' => Some ((k', v') :: r')
           | None => None
           end
  end.

(** [list(d.keys())] *)
Definition keys (d : t) : list string := map fst d.

(** [len(d)] *)
Definition len (d : t) : Z := Z.of_nat (List.length d).

End Dict.
Arguments t V : clear implicits.
End PyDict.

(** ** JSON-compatible values

    The payload of a record: what [json.dumps] accepts without its
    [default] hook. Numbers are integers; floating point is outside the
    embedding. *)
Inductive json : Type :=
| JNull
| JBool (b : bool)
| JNum (n : Z)
| JStr (s : string)
| JList (l : list json)
| JDict (d : list (string * json)).

(** [a == b] on these values: [True == 1] and [False == 0] as for any
    two numbers, lists agree item by item, and two dictionaries agree
    when they have the same number of keys and every key of the first
    is a key of the second with an equal value, whatever the order. *)
Fixpoint py_eq (a b : json) {struct a} : bool :=
  match a, b with
  | JNull, JNull => true
  | JBool x, JBool y => Bool.eqb x y
  | JBool x, JNum n => (if x then 1 else 0) =? n
  | JNum n, JBool y => n =? (if y then 1 else 0)
  | JNum n, JNum m => n =? m
  | JStr x, JStr y => String.eqb x y
  | JList l, JList m =>
      (fix items (l m : list json) {struct l} : bool :=
         match l, m with
         | [], [] => true
         | x :: l', y :: m' => py_eq x y && items l' m'
         | _, _ => false
         end) l m
  | JDict d, JDict e =>
      Nat.eqb (List.length d) (List.length e) &&
      (fix items (d : list (string * json)) {struct d} : bool :=
         match d with
         | [] => true
         | (k, v) :: d' =>
             match PyDict.get k e with
             | Some w => py_eq v w
             | None => false
             end && items d'
         end) d
  | _, _ => false
  end.

(** ** [MemoryContext] *)

Module MemoryContext.
Record t : Type := mk {
  id : string;
  content : json;
  tags : list string;
  timestamp : Z;
  session_id : string;
  workspace_path : option string;
  git_hash : option string
}.
End MemoryContext.

(** ** [RAMBuffer]

    [now] is the value [time.time()] returns inside the call. *)

Record RAMBuffer : Type := mkRAMBuffer {
  max_size : Z;
  _buffer : PyDict.t MemoryContext.t;
  _access_times : PyDict.t Z
}.

Definition RAMBuffer_init (max_size : Z) : RAMBuffer :=
  mkRAMBuffer max_size PyDict.empty PyDict.empty.

(** [RAMBuffer.get]: the clock is read on a hit only. *)
Definition RAMBuffer_get (key : string) (now : Z) (b : RAMBuffer)
  : option MemoryContext.t * RAMBuffer :=
  match PyDict.get key (_buffer b) with
  | Some ctx =>
      (Some ctx,
       mkRAMBuffer (max_size b) (_buffer b)
                   (PyDict.set key now (_access_times b)))
  | None => (None, b)
  end.

(** [min(d.keys(), key=lambda k: d[k])] over a non-empty dictionary
    [best :: rest]: the running best is replaced only by a strictly
    smaller value, so the first minimal key in iteration order wins. *)
Fixpoint min_scan (best : string * Z) (rest : list (string * Z))
  : string * Z :=
  match rest with
  | [] => best
  | kt :: rest' =>
      min_scan (if snd kt <? snd best then kt else best) rest'
  end.

Definition lru_key (b : RAMBuffer) : option string :=
  match _access_times b with
  | [] => None
  | first :: rest => Some (fst (min_scan first rest))
  end.

(** [RAMBuffer._evict_lru]. The first [del] raises before anything is
    changed when the two dictionaries disagree. *)
Definition _evict_lru (b : RAMBuffer) : result RAMBuffer :=
  match lru_key b with
  | None => Ok b
  | Some k =>
      match PyDict.del k (_buffer b) with
      | None => Raise (KeyError k)
      | Some buf' =>
          match PyDict.del k (_access_times b) with
          | None => Raise (KeyError k)
          | Some acc' => Ok (mkRAMBuffer (max_size b) buf' acc')
          end
      end
  end.

(** [RAMBuffer.put] *)
Definition RAMBuffer_put (key : string) (context : MemoryContext.t) (now : Z)
    (b : RAMBuffer) : result RAMBuffer :=
  match (if PyDict.len (_buffer b) >=? max_size b
         then _evict_lru b else Ok b) with
  | Raise e => Raise e
  | Ok b1 =>
      Ok (mkRAMBuffer (max_size b1)
                      (PyDict.set key context (_buffer b1))
                      (PyDict.set key now (_access_times b1)))
  end.

(** [RAMBuffer.clear] *)
Definition RAMBuffer_clear (b : RAMBuffer) : RAMBuffer :=
  mkRAMBuffer (max_size b) PyDict.empty PyDict.empty.

(** The two dictionaries of a buffer hold the same keys in the same
    order, each once: what [__init__], [get], [put] and [_evict_lru]
    maintain. *)
Definition RAMBuffer_wf (b : RAMBuffer) : Prop :=
  PyDict.keys (_buffer b) = PyDict.keys (_access_times b) /\
  NoDup (PyDict.keys (_buffer b)).

(** ** The collaborators of the engine

    What the engine reaches through library calls only.
    - [encode_context] is [json.dumps(asdict(context), default=str).encode()]
      and [decode_context] is [json.loads(value.decode())] followed by
      [datetime.fromisoformat] and [MemoryContext( ** data)], raising
      when one of them raises; [bytes_truthy] is the test [if value:].
    - [VectorStore] is the search index (ChromaDB, or the substring
      fallback), with the two operations the engine calls.
    - [uuid4_draw n] is the string of the [n]-th [uuid.uuid4()] of the
      process and [clock n] its [n]-th clock reading. *)
Class Backend : Type := {
  bytes : Type;
  encode_context : MemoryContext.t -> bytes;
  decode_context : bytes -> result MemoryContext.t;
  bytes_truthy : bytes -> bool;
  VectorStore : Type;
  score : Type;
  add_context : MemoryContext.t -> VectorStore -> VectorStore;
  search_similar : VectorStore -> string -> Z -> list (string * score);
  uuid4_draw : nat -> string;
  clock : nat -> Z
}.

(** The contract of the JSON codec on records with a JSON-compatible
    payload. *)
Definition codec_round_trip `{Backend} : Prop :=
  forall ctx : MemoryContext.t,
    decode_context (encode_context ctx) = Ok ctx /\
    bytes_truthy (encode_context ctx) = true.

(** No two [uuid4()] of the process collide. *)
Definition uuid4_fresh `{Backend} : Prop :=
  forall m n : nat, uuid4_draw m = uuid4_draw n -> m = n.

(** The clock never goes back from one reading to the next. *)
Definition clock_monotone `{Backend} : Prop :=
  forall n : nat, clock n <= clock (S n).

Section Engine.
Context {W : Backend}.

(** ** [PersistentStore]

    The LMDB environment: a map from key to value (its order is not
    observed by the modelled code) and the condition of the
    environment, [Some msg] when it rejects write transactions with
    [lmdb.Error(msg)]. *)
Record PersistentStore : Type := mkPersistentStore {
  env_db : PyDict.t bytes;
  env_fault : option string
}.

(** [PersistentStore.store_context] *)
Definition store_context (context : MemoryContext.t) (ps : PersistentStore)
  : result PersistentStore :=
  match env_fault ps with
  | Some msg => Raise (LmdbError msg)
  | None =>
      Ok (mkPersistentStore
            (PyDict.set (MemoryContext.id context) (encode_context context)
                        (env_db ps))
            (env_fault ps))
  end.

(** [PersistentStore.get_context] *)
Definition get_context (context_id : string) (ps : PersistentStore)
  : result (option MemoryContext.t) :=
  match PyDict.get context_id (env_db ps) with
  | Some value =>
      if bytes_truthy value then
        match decode_context value with
        | Ok ctx => Ok (Some ctx)
        | Raise e => Raise e
        end
      else Ok None
  | None => Ok None
  end.

(** ** [MemoryEngine]

    [git_head] is [git_repo.head.commit.hexsha] when there is a
    repository and reading it succeeds; [git_status] is the mapping
    [get_workspace_context] merges in (empty without a repository).
    [uuid_calls] and [clock_calls] count the draws of the process so
    far. *)
Record MemoryEngine : Type := mkMemoryEngine {
  config_workspace_path : string;
  engine_session_id : string;
  ram_buffer : RAMBuffer;
  persistent_store : PersistentStore;
  vector_store : VectorStore;
  git_head : option string;
  git_status : PyDict.t json;
  uuid_calls : nat;
  clock_calls : nat
}.

Definition set_ram_buffer (b : RAMBuffer) (s : MemoryEngine) : MemoryEngine :=
  mkMemoryEngine (config_workspace_path s) (engine_session_id s) b
    (persistent_store s) (vector_store s) (git_head s) (git_status s)
    (uuid_calls s) (clock_calls s).

Definition set_persistent_store (ps : PersistentStore) (s : MemoryEngine)
  : MemoryEngine :=
  mkMemoryEngine (config_workspace_path s) (engine_session_id s)
    (ram_buffer s) ps (vector_store s) (git_head s) (git_status s)
    (uuid_calls s) (clock_calls s).

Definition set_vector_store (vs : VectorStore) (s : MemoryEngine)
  : MemoryEngine :=
  mkMemoryEngine (config_workspace_path s) (engine_session_id s)
    (ram_buffer s) (persistent_store s) vs (git_head s) (git_status s)
    (uuid_calls s) (clock_calls s).

Definition tick_uuid (s : MemoryEngine) : MemoryEngine :=
  mkMemoryEngine (config_workspace_path s) (engine_session_id s)
    (ram_buffer s) (persistent_store s) (vector_store s) (git_head s)
    (git_status s) (S (uuid_calls s)) (clock_calls s).

Definition tick_clock (s : MemoryEngine) : MemoryEngine :=
  mkMemoryEngine (config_workspace_path s) (engine_session_id s)
    (ram_buffer s) (persistent_store s) (vector_store s) (git_head s)
    (git_status s) (uuid_calls s) (S (clock_calls s)).

(** [MemoryEngine.__init__] over an environment that opened, an
    index, and the state of the workspace repository. *)
Definition MemoryEngine_init (workspace : string) (max_ram_size : Z)
    (disk : PersistentStore) (index : VectorStore)
    (head : option string) (status : PyDict.t json)
    (uuids clocks : nat) : MemoryEngine :=
  mkMemoryEngine workspace (uuid4_draw uuids)
    (RAMBuffer_init max_ram_size) disk index head status
    (S uuids) clocks.

(** ** Computations over the engine *)

Definition M (A : Type) : Type := MemoryEngine -> result A * MemoryEngine.

Definition ret {A : Type} (a : A) : M A := fun s => (Ok a, s).

Definition raise {A : Type} (e : exn) : M A := fun s => (Raise e, s).

Definition bind {A B : Type} (m : M A) (k : A -> M B) : M B :=
  fun s =>
    match m s with
    | (Ok a, s') => k a s'
    | (Raise e, s') => (Raise e, s')
    end.

Notation "x <- m ;; k" := (bind m (fun x => k))
  (at level 61, m at next level, right associativity).

(** [str(uuid.uuid4())] *)
Definition uuid4 : M string :=
  fun s => (Ok (uuid4_draw (uuid_calls s)), tick_uuid s).

(** [time.time()] and [datetime.now(timezone.utc)] *)
Definition time_time : M Z :=
  fun s => (Ok (clock (clock_calls s)), tick_clock s).

(** [self.ram_buffer.get(key)] *)
Definition ram_buffer_get (key : string) : M (option MemoryContext.t) :=
  fun s =>
    if PyDict.mem key (_buffer (ram_buffer s)) then
      let (r, b) := RAMBuffer_get key (clock (clock_calls s)) (ram_buffer s) in
      (Ok r, set_ram_buffer b (tick_clock s))
    else (Ok None, s).

(** [self.ram_buffer.put(key, context)] *)
Definition ram_buffer_put (key : string) (context : MemoryContext.t) : M unit :=
  fun s =>
    match RAMBuffer_put key context (clock (clock_calls s)) (ram_buffer s) with
    | Ok b => (Ok tt, set_ram_buffer b (tick_clock s))
    | Raise e => (Raise e, s)
    end.

(** [self.persistent_store.store_context(context)] *)
Definition persistent_store_store (context : MemoryContext.t) : M unit :=
  fun s =>
    match store_context context (persistent_store s) with
    | Ok ps => (Ok tt, set_persistent_store ps s)
    | Raise e => (Raise e, s)
    end.

(** [self.persistent_store.get_context(context_id)] *)
Definition persistent_store_get (context_id : string)
  : M (option MemoryContext.t) :=
  fun s =>
    match get_context context_id (persistent_store s) with
    | Ok r => (Ok r, s)
    | Raise e => (Raise e, s)
    end.

(** [self.vector_store.add_context(context)] *)
Definition vector_store_add (context : MemoryContext.t) : M unit :=
  fun s => (Ok tt, set_vector_store (add_context context (vector_store s)) s).

(** [MemoryEngine.store_memory]; [tags = None] is [[]]. *)
Definition store_memory (content : json) (tags : list string) : M string :=
  context_id <- uuid4 ;;
  now <- time_time ;;
  fun s =>
    let context :=
      MemoryContext.mk context_id content tags now (engine_session_id s)
                       (Some (config_workspace_path s)) (git_head s) in
    (_ <- ram_buffer_put context_id context ;;
     _ <- persistent_store_store context ;;
     _ <- vector_store_add context ;;
     ret context_id) s.

(** [MemoryEngine.retrieve_memory] *)
Definition retrieve_memory (context_id : string) : M (option MemoryContext.t) :=
  cached <- ram_buffer_get context_id ;;
  match cached with
  | Some context => ret (Some context)
  | None =>
      stored <- persistent_store_get context_id ;;
      match stored with
      | Some context =>
          _ <- ram_buffer_put context_id context ;;
          ret (Some context)
      | None => ret None
      end
  end.

(** [tags and not any(tag in context.tags for tag in tags)] *)
Definition tag_mismatch (tags : list string) (context : MemoryContext.t) : bool :=
  match tags with
  | [] => false
  | _ :: _ =>
      negb (existsb (fun tag =>
                       existsb (String.eqb tag) (MemoryContext.tags context))
                    tags)
  end.

(** The loop of [search_memories] over the candidates still to visit,
    with [memories] collected so far. *)
Fixpoint search_loop (similar_ids : list (string * score))
    (tags : list string) (limit : Z) (memories : list MemoryContext.t)
  : M (list MemoryContext.t) :=
  match similar_ids with
  | [] => ret memories
  | (context_id, _) :: rest =>
      context <- retrieve_memory context_id ;;
      match context with
      | Some ctx =>
          if tag_mismatch tags ctx then search_loop rest tags limit memories
          else
            let memories' := memories ++ [ctx] in
            if Z.of_nat (List.length memories') >=? limit then ret memories'
            else search_loop rest tags limit memories'
      | None => search_loop rest tags limit memories
      end
  end.

(** [MemoryEngine.search_memories]; [tags = None] is [[]]. *)
Definition search_memories (query : string) (tags : list string) (limit : Z)
  : M (list MemoryContext.t) :=
  fun s =>
    search_loop (search_similar (vector_store s) query (limit * 2))
                tags limit [] s.

(** [MemoryEngine.get_workspace_context]; the timestamp is carried as
    its clock reading. *)
Definition get_workspace_context : M (PyDict.t json) :=
  now <- time_time ;;
  fun s =>
    (Ok (fold_left (fun d kv => PyDict.set (fst kv) (snd kv) d)
                   (git_status s)
                   [("workspace_path", JStr (config_workspace_path s));
                    ("session_id", JStr (engine_session_id s));
                    ("timestamp", JNum now)]),
     s).

(** [MemoryEngine.close]: the LMDB environment is closed outside the
    state modelled here. *)
Definition close (s : MemoryEngine) : MemoryEngine :=
  set_ram_buffer (RAMBuffer_clear (ram_buffer s)) s.

End Engine.

Notation "x <- m ;; k" := (bind m (fun x => k))
  (at level 61, m at next level, right associativity).

(** ** The data of the task agent *)

Inductive TaskStatus : Type :=
| PENDING
| RUNNING
| COMPLETED
| FAILED
| CANCELLED.

Module TaskResult.
Record t : Type := mk {
  task_id : string;
  status : TaskStatus;
  output : option (PyDict.t json);
  error : option string;
  execution_time : Z;
  memory_contexts : option (list string)
}.
End TaskResult.

Module Task.
Record t : Type := mk {
  id : string;
  name : string;
  description : string;
  plugin_chain : list string;
  parameters : json;
  priority : Z;
  created_at : Z;
  context_id : option string
}.

Definition set_context_id (c : option string) (task : t) : t :=
  mk (id task) (name task) (description task) (plugin_chain task)
     (parameters task) (priority task) (created_at task) c.

Definition set_plugin_chain (chain : list string) (task : t) : t :=
  mk (id task) (name task) (description task) chain
     (parameters task) (priority task) (created_at task) (context_id task).

(** [a == b] on two lists of strings *)
Fixpoint str_list_eq (l m : list string) : bool :=
  match l, m with
  | [], [] => true
  | x :: l', y :: m' => String.eqb x y && str_list_eq l' m'
  | _, _ => false
  end.

(** [a == b] on two optional strings *)
Definition opt_str_eq (a b : option string) : bool :=
  match a, b with
  | None, None => true
  | Some x, Some y => String.eqb x y
  | _, _ => false
  end.

(** The [__eq__] that [@dataclass] generates: the tuples of the fields
    are compared. The dataclass has no [order=True], so [<] between two
    tasks is a [TypeError]. *)
Definition dataclass_eq (a b : t) : bool :=
  String.eqb (id a) (id b) &&
  String.eqb (name a) (name b) &&
  String.eqb (description a) (description b) &&
  str_list_eq (plugin_chain a) (plugin_chain b) &&
  py_eq (parameters a) (parameters b) &&
  (priority a =? priority b) &&
  (created_at a =? created_at b) &&
  opt_str_eq (context_id a) (context_id b).
End Task.

(** A plugin, as the chain sees it: [execute parameters context] gives
    the memories the plugin stores through
    [self.memory_engine.store_memory] while it runs, in order, and then
    its result mapping or the exception it raises. *)
Module PluginBase.
Record t : Type := mk {
  name : string;
  validate_parameters : json -> bool;
  execute : json -> PyDict.t json -> list (json * list string) * result json;
  get_capabilities : list string
}.
End PluginBase.

(** ** [TaskQueue]

    [_queue] is the list of the [asyncio.PriorityQueue], which
    [heapq] keeps as a binary heap; an entry is the tuple
    [(-task.priority, task.created_at, task)]. *)

Definition entry : Type := Z * Z * Task.t.

(** What comparing two [Task] objects with [<] raises. *)
Definition TypeError_Task : exn :=
  Exception "TypeError"
            "'<' not supported between instances of 'Task' and 'Task'".

Definition IndexError (msg : string) : exn := Exception "IndexError" msg.

(** [a < b] on entries. Python compares two tuples at their first
    components that are not equal; when the two numbers are equal these
    are the [Task] objects, which define no order: [None] is that
    [TypeError]. Two entries equal in every component are not below
    one another. *)
Definition entry_lt (a b : entry) : option bool :=
  let '(pa, ca, ta) := a in
  let '(pb, cb, tb) := b in
  if negb (pa =? pb) then Some (pa <? pb)
  else if negb (ca =? cb) then Some (ca <? cb)
  else if Task.dataclass_eq ta tb then Some false
  else None.

(** *** [heapq]

    [heappush] and [heappop] as [Lib/heapq.py] writes them, on the
    list they mutate: a function returns the list as it is when it
    returns or raises. The C module [_heapq] that CPython loads in
    their place makes the same comparisons in the same order and
    leaves the same list whenever none of them raises; after a
    comparison raised in the middle of a sift it holds the entries
    exchanged where this code holds them shifted. *)
Module heapq.

Definition heap : Type := list entry.

(** [heap[i]] *)
Definition getitem (i : nat) (h : heap) : result entry :=
  match nth_error h i with
  | Some e => Ok e
  | None => Raise (IndexError "list index out of range")
  end.

(** [heap[i] = x]. Every index the code assigns to was read before,
    so it is in range. *)
Fixpoint setitem (i : nat) (x : entry) (h : heap) : heap :=
  match h, i with
  | [], _ => []
  | _ :: r, O => x :: r
  | y :: r, S i' => y :: setitem i' x r
  end.

(** [heap.pop()]: the last item and the list without it. *)
Fixpoint list_pop (h : heap) : option (entry * heap) :=
  match h with
  | [] => None
  | x :: r =>
      match list_pop r with
      | None => Some (x, [])
      | Some (lastelt, r') => Some (lastelt, x :: r')
      end
  end.

(** The [while] loop of [_siftdown] and the assignment that follows
    it. [fuel] bounds the iterations: [pos] of them are enough, since
    [parentpos < pos]. *)
Fixpoint _siftdown_loop (fuel : nat) (newitem : entry) (startpos pos : nat)
    (h : heap) : result unit * heap :=
  match fuel with
  | O => (Ok tt, setitem pos newitem h)
  | S fuel' =>
      if (startpos <? pos)%nat then
        let parentpos := Nat.shiftr (pos - 1) 1 in
        match getitem parentpos h with
        | Raise e => (Raise e, h)
        | Ok parent =>
            match entry_lt newitem parent with
            | None => (Raise TypeError_Task, h)
            | Some true =>
                _siftdown_loop fuel' newitem startpos parentpos
                               (setitem pos parent h)
            | Some false => (Ok tt, setitem pos newitem h)
            end
        end
      else (Ok tt, setitem pos newitem h)
  end.

(** [_siftdown(heap, startpos, pos)] *)
Definition _siftdown (startpos pos : nat) (h : heap) : result unit * heap :=
  match getitem pos h with
  | Raise e => (Raise e, h)
  | Ok newitem => _siftdown_loop pos newitem startpos pos h
  end.

(** The smaller child of the two, as the loop of [_siftup] picks it:
    [rightpos] when there is a right child and the left one is not
    below it. *)
Definition smaller_child (endpos childpos : nat) (h : heap) : result nat :=
  let rightpos := (childpos + 1)%nat in
  if (rightpos <? endpos)%nat then
    match getitem childpos h with
    | Raise e => Raise e
    | Ok child =>
        match getitem rightpos h with
        | Raise e => Raise e
        | Ok sibling =>
            match entry_lt child sibling with
            | None => Raise TypeError_Task
            | Some true => Ok childpos
            | Some false => Ok rightpos
            end
        end
    end
  else Ok childpos.

(** The [while] loop of [_siftup]: the position where it leaves the
    hole. [fuel] bounds the iterations: [endpos] of them are enough,
    since [pos] grows and stays below [endpos]. *)
Fixpoint _siftup_loop (fuel : nat) (endpos pos : nat) (h : heap)
  : result nat * heap :=
  match fuel with
  | O => (Ok pos, h)
  | S fuel' =>
      let childpos := (2 * pos + 1)%nat in
      if (childpos <? endpos)%nat then
        match smaller_child endpos childpos h with
        | Raise e => (Raise e, h)
        | Ok childpos' =>
            match getitem childpos' h with
            | Raise e => (Raise e, h)
            | Ok child =>
                _siftup_loop fuel' endpos childpos' (setitem pos child h)
            end
        end
      else (Ok pos, h)
  end.

(** [_siftup(heap, pos)] *)
Definition _siftup (pos : nat) (h : heap) : result unit * heap :=
  let endpos := List.length h in
  let startpos := pos in
  match getitem pos h with
  | Raise e => (Raise e, h)
  | Ok newitem =>
      match _siftup_loop endpos endpos pos h with
      | (Raise e, h1) => (Raise e, h1)
      | (Ok pos', h1) => _siftdown startpos pos' (setitem pos' newitem h1)
      end
  end.

(** [heappush(heap, item)] *)
Definition heappush (item : entry) (h : heap) : result unit * heap :=
  let h1 := h ++ [item] in
  _siftdown 0 (List.length h1 - 1) h1.

(** [heappop(heap)] *)
Definition heappop (h : heap) : result entry * heap :=
  match list_pop h with
  | None => (Raise (IndexError "pop from empty list"), h)
  | Some (lastelt, h1) =>
      match h1 with
      | [] => (Ok lastelt, h1)
      | returnitem :: _ =>
          match _siftup 0 (setitem 0 lastelt h1) with
          | (Ok _, h2) => (Ok returnitem, h2)
          | (Raise e, h2) => (Raise e, h2)
          end
      end
  end.

End heapq.

Record TaskQueue : Type := mkTaskQueue {
  max_concurrent : Z;
  _queue : heapq.heap;
  _running : PyDict.t Task.t;
  _results : PyDict.t TaskResult.t
}.

(** [TaskQueue.__init__] *)
Definition TaskQueue_init (max_concurrent : Z) : TaskQueue :=
  mkTaskQueue max_concurrent [] PyDict.empty PyDict.empty.

(** The default of [TaskQueue.__init__], which [TaskAgent.__init__] uses. *)
Definition default_max_concurrent : Z := 3.

(** [TaskQueue.add_task]. The queue has no bound, so [put] does not
    wait: it is [heappush] on the list. *)
Definition add_task (task : Task.t) (q : TaskQueue) : result unit * TaskQueue :=
  let (r, h) :=
    heapq.heappush (- Task.priority task, Task.created_at task, task)
                   (_queue q) in
  (r, mkTaskQueue (max_concurrent q) h (_running q) (_results q)).

(** [TaskQueue.get_next_task]. On an empty queue [get] waits and
    [wait_for] times out: the function returns [None]. Otherwise [get]
    is [heappop] on the list, and what it raises is no
    [asyncio.TimeoutError]. *)
Definition get_next_task (q : TaskQueue) : result (option Task.t) * TaskQueue :=
  match _queue q with
  | [] => (Ok None, q)
  | _ :: _ =>
      match heapq.heappop (_queue q) with
      | (Ok (_, _, task), h) =>
          (Ok (Some task),
           mkTaskQueue (max_concurrent q) h (_running q) (_results q))
      | (Raise e, h) =>
          (Raise e, mkTaskQueue (max_concurrent q) h (_running q) (_results q))
      end
  end.

(** [TaskQueue.is_running] *)
Definition is_running (task_id : string) (q : TaskQueue) : bool :=
  PyDict.mem task_id (_running q).

(** [TaskQueue.get_result] *)
Definition get_result (task_id : string) (q : TaskQueue) : option TaskResult.t :=
  PyDict.get task_id (_results q).

(** [TaskQueue.add_result] *)
Definition add_result (r : TaskResult.t) (q : TaskQueue) : TaskQueue :=
  let results' := PyDict.set (TaskResult.task_id r) r (_results q) in
  match PyDict.del (TaskResult.task_id r) (_running q) with
  | Some running' => mkTaskQueue (max_concurrent q) (_queue q) running' results'
  | None => mkTaskQueue (max_concurrent q) (_queue q) (_running q) results'
  end.

(** [TaskQueue.add_running_task]; the handle is the task it runs. *)
Definition add_running_task (task_id : string) (async_task : Task.t)
    (q : TaskQueue) : TaskQueue :=
  mkTaskQueue (max_concurrent q) (_queue q)
    (PyDict.set task_id async_task (_running q)) (_results q).

(** [TaskQueue.queue_size] *)
Definition queue_size (q : TaskQueue) : Z := Z.of_nat (List.length (_queue q)).


(** ** [PluginManager] *)

Record PluginManager : Type := mkPluginManager {
  _plugins : PyDict.t PluginBase.t;
  _capabilities : PyDict.t (list string)
}.

(** [PluginManager.register_plugin] *)
Definition register_plugin (plugin : PluginBase.t) (pm : PluginManager)
  : PluginManager :=
  mkPluginManager
    (PyDict.set (PluginBase.name plugin) plugin (_plugins pm))
    (PyDict.set (PluginBase.name plugin) (PluginBase.get_capabilities plugin)
                (_capabilities pm)).

(** [PluginManager.list_plugins] *)
Definition list_plugins (pm : PluginManager) : list string :=
  PyDict.keys (_plugins pm).

Section Agent.
Context {W : Backend}.

(** The truth value of a string: [if task.context_id:]. *)
Definition str_truthy (s : option string) : bool :=
  match s with
  | Some (String _ _) => true
  | _ => false
  end.

(** The calls of [store_memory] a plugin makes while it runs. *)
Fixpoint store_all (memories : list (json * list string)) : M unit :=
  match memories with
  | [] => ret tt
  | (content, tags) :: rest =>
      _ <- store_memory content tags ;;
      store_all rest
  end.

(** [await plugin.execute(parameters, context)] *)
Definition plugin_execute (plugin : PluginBase.t) (parameters : json)
    (context : PyDict.t json) : M json :=
  _ <- store_all (fst (PluginBase.execute plugin parameters context)) ;;
  match snd (PluginBase.execute plugin parameters context) with
  | Ok r => ret r
  | Raise e => raise e
  end.

(** [PluginManager.execute_plugin] *)
Definition execute_plugin (pm : PluginManager) (plugin_name : string)
    (parameters : json) (context : PyDict.t json) : M json :=
  match PyDict.get plugin_name (_plugins pm) with
  | None =>
      raise (ValueError
               (String.append "Plugin '"
                  (String.append plugin_name "' not found")))
  | Some plugin =>
      if negb (PluginBase.validate_parameters plugin parameters) then
        raise (ValueError
                 (String.append "Invalid parameters for plugin '"
                    (String.append plugin_name "'")))
      else plugin_execute plugin parameters context
  end.

(** [intermediate_context] of one step of the chain. *)
Definition intermediate_context (task : Task.t) (plugin_name : string)
    (plugin_result : json) (chain_output : PyDict.t json) : json :=
  JDict [("task_id", JStr (Task.id task));
         ("plugin", JStr plugin_name);
         ("output", plugin_result);
         ("step", JNum (PyDict.len chain_output))].

(** The [for] loop of [execute_task_chain] over the plugins still to
    run, from the values of its variables [execution_context],
    [chain_output] and [memory_contexts] to their values after the
    loop. The list of record ids is returned on an exception too: the
    handler reads it. *)
Fixpoint run_chain (pm : PluginManager) (task : Task.t) (chain : list string)
    (execution_context chain_output : PyDict.t json)
    (memory_contexts : list string) (s : MemoryEngine)
  : result (PyDict.t json * PyDict.t json) * list string * MemoryEngine :=
  match chain with
  | [] => (Ok (execution_context, chain_output), memory_contexts, s)
  | plugin_name :: rest =>
      match execute_plugin pm plugin_name (Task.parameters task)
                           execution_context s with
      | (Raise e, s1) => (Raise e, memory_contexts, s1)
      | (Ok plugin_result, s1) =>
          let execution_context' :=
            PyDict.set (String.append plugin_name "_output") plugin_result
                       execution_context in
          let chain_output' :=
            PyDict.set plugin_name plugin_result chain_output in
          match store_memory
                  (intermediate_context task plugin_name plugin_result
                                        chain_output')
                  ["task"; "plugin_output"; plugin_name] s1 with
          | (Raise e, s2) => (Raise e, memory_contexts, s2)
          | (Ok context_id, s2) =>
              run_chain pm task rest execution_context' chain_output'
                        (memory_contexts ++ [context_id]) s2
          end
      end
  end.

(** The execution context the chain starts from. *)
Definition initial_execution_context (task : Task.t)
    (workspace_context : PyDict.t json)
    (task_memory : option MemoryContext.t) : PyDict.t json :=
  [("task_id", JStr (Task.id task));
   ("workspace", JDict workspace_context);
   ("task_memory",
    match task_memory with
    | Some m => MemoryContext.content m
    | None => JDict []
    end);
   ("parameters", Task.parameters task)].

Definition final_context (task : Task.t) (chain_output : PyDict.t json)
    (elapsed : Z) : json :=
  JDict [("task_id", JStr (Task.id task));
         ("status", JStr "completed");
         ("final_output", JDict chain_output);
         ("execution_time", JNum elapsed)].

Definition error_context (task : Task.t) (e : exn) (elapsed : Z) : json :=
  JDict [("task_id", JStr (Task.id task));
         ("status", JStr "failed");
         ("error", JStr (str_exn e));
         ("execution_time", JNum elapsed)].

(** The start of the [try] block: the workspace context, the memory
    of the task, the execution context built from them. *)
Definition chain_prologue (task : Task.t) : M (PyDict.t json) :=
  workspace_context <- get_workspace_context ;;
  task_memory <-
    (if str_truthy (Task.context_id task)
     then retrieve_memory (match Task.context_id task with
                           | Some c => c
                           | None => ""
                           end)
     else ret None) ;;
  ret (initial_execution_context task workspace_context task_memory).

(** The [try] block of [execute_task_chain]. *)
Definition try_block (pm : PluginManager) (task : Task.t) (start_time : Z)
    (s : MemoryEngine) : result TaskResult.t * list string * MemoryEngine :=
  match chain_prologue task s with
  | (Raise e, s1) => (Raise e, [], s1)
  | (Ok execution_context, s1) =>
      match run_chain pm task (Task.plugin_chain task) execution_context
                      PyDict.empty [] s1 with
      | (Raise e, memory_contexts, s2) => (Raise e, memory_contexts, s2)
      | (Ok (_, chain_output), memory_contexts, s2) =>
          match (now <- time_time ;;
                 store_memory
                   (final_context task chain_output (now - start_time))
                   ["task"; "completed"; Task.name task]) s2 with
          | (Raise e, s3) => (Raise e, memory_contexts, s3)
          | (Ok final_context_id, s3) =>
              let memory_contexts' :=
                memory_contexts ++ [final_context_id] in
              (Ok (TaskResult.mk (Task.id task) COMPLETED
                     (Some chain_output) None
                     (clock (clock_calls s3) - start_time)
                     (Some memory_contexts')),
               memory_contexts', tick_clock s3)
          end
      end
  end.

(** The [except Exception as e] block of [execute_task_chain]. *)
Definition except_block (task : Task.t) (start_time : Z) (e : exn)
    (memory_contexts : list string) : M TaskResult.t :=
  now <- time_time ;;
  error_context_id <-
    store_memory (error_context task e (now - start_time))
                 ["task"; "failed"; "error"] ;;
  done <- time_time ;;
  ret (TaskResult.mk (Task.id task) FAILED None (Some (str_exn e))
         (done - start_time)
         (Some (memory_contexts ++ [error_context_id]))).

(** [TaskAgent.execute_task_chain] *)
Definition execute_task_chain (pm : PluginManager) (task : Task.t)
  : M TaskResult.t :=
  fun s =>
    let start_time := clock (clock_calls s) in
    match try_block pm task start_time (tick_clock s) with
    | (Ok r, _, s1) => (Ok r, s1)
    | (Raise e, memory_contexts, s1) =>
        except_block task start_time e memory_contexts s1
    end.

(** [TaskAgent._handle_task_completion]; [outcome] is what
    [await async_task] gives. *)
Definition _handle_task_completion (task_id : string)
    (outcome : result TaskResult.t) (q : TaskQueue) : TaskQueue :=
  match outcome with
  | Ok r => add_result r q
  | Raise e =>
      add_result (TaskResult.mk task_id FAILED None (Some (str_exn e)) 0 None) q
  end.

(** ** [TaskAgent] *)
Record TaskAgent : Type := mkTaskAgent {
  memory_engine : MemoryEngine;
  plugin_manager : PluginManager;
  task_queue : TaskQueue;
  _executor_running : bool
}.

(** [TaskAgent.__init__] around an engine that started. *)
Definition TaskAgent_init (engine : MemoryEngine) : TaskAgent :=
  mkTaskAgent engine (mkPluginManager PyDict.empty PyDict.empty)
              (TaskQueue_init default_max_concurrent) false.

(** [task_context] of [submit_task]. *)
Definition task_context (task : Task.t) : json :=
  JDict [("task_id", JStr (Task.id task));
         ("name", JStr (Task.name task));
         ("description", JStr (Task.description task));
         ("plugins", JList (map JStr (Task.plugin_chain task)));
         ("parameters", Task.parameters task);
         ("status", JStr "pending")].

(** [TaskAgent.submit_task]. The task is built first: its id is one
    [uuid4()] and [__post_init__] reads the clock for [created_at]. *)
Definition submit_task (name description : string)
    (plugin_chain : list string) (parameters : json) (priority : Z)
    (a : TaskAgent) : result string * TaskAgent :=
  let s0 := memory_engine a in
  let task :=
    Task.mk (uuid4_draw (uuid_calls s0)) name description plugin_chain
            parameters priority (clock (clock_calls s0)) None in
  match store_memory (task_context task) ["task"; "pending"]
                     (tick_clock (tick_uuid s0)) with
  | (Raise e, s1) =>
      (Raise e,
       mkTaskAgent s1 (plugin_manager a) (task_queue a) (_executor_running a))
  | (Ok context_id, s1) =>
      match add_task (Task.set_context_id (Some context_id) task)
                     (task_queue a) with
      | (Raise e, q1) =>
          (Raise e,
           mkTaskAgent s1 (plugin_manager a) q1 (_executor_running a))
      | (Ok _, q1) =>
          (Ok (Task.id task),
           mkTaskAgent s1 (plugin_manager a) q1 (_executor_running a))
      end
  end.

(** [TaskAgent.get_task_status] *)
Definition get_task_status (task_id : string) (a : TaskAgent)
  : option TaskStatus :=
  if is_running task_id (task_queue a) then Some RUNNING
  else match get_result task_id (task_queue a) with
       | Some r => Some (TaskResult.status r)
       | None => None
       end.

(** [TaskAgent.search_task_history] *)
Definition search_task_history (query : string) (limit : Z)
  : M (list MemoryContext.t) :=
  search_memories query ["task"] limit.

End Agent.

(** ** The executor loop

    [_task_executor] runs on one cooperative event loop: between two
    [await]s it is atomic, and at an [await] submissions and completion
    handlers run. The loop is either at its test of [running_count]
    ([AtCheck]) or, the test passed, suspended in [get_next_task]
    ([AtGet]); what follows the dequeue up to the next iteration has no
    [await]. *)





(** * Vocabulary of the statements *)

(** A run of [put]s, each with the clock reading of its call. *)
Fixpoint put_all (items : list (string * MemoryContext.t * Z)) (b : RAMBuffer)
  : result RAMBuffer :=
  match items with
  | [] => Ok b
  | (key, context, now) :: rest =>
      match RAMBuffer_put key context now b with
      | Ok b' => put_all rest b'
      | Raise e => Raise e
      end
  end.

(** [key in self._buffer] *)
Definition cached (key : string) (b : RAMBuffer) : bool :=
  PyDict.mem key (_buffer b).

(** The last-access time the buffer holds for [key]. *)
Definition last_access (key : string) (b : RAMBuffer) : option Z :=
  PyDict.get key (_access_times b).

(** The last [n] elements of a list. *)
Definition lastn {A : Type} (n : nat) (l : list A) : list A :=
  skipn (List.length l - n) l.

(** Access times that do not decrease along the iteration order. *)
Definition times_sorted (acc : PyDict.t Z) : Prop :=
  StronglySorted (fun a b : string * Z => snd a <= snd b) acc.

(** What a buffer built with [max_size] really holds at most:
    [put] inserts even when nothing could be evicted. *)
Definition effective_capacity (max_size : Z) : nat :=
  Z.to_nat (Z.max max_size 1).

(** A record to put in a cache in examples. *)
Definition sample_context (key : string) : MemoryContext.t :=
  MemoryContext.mk key (JDict [("k", JStr key)]) [] 0 "session" None None.

(** The key of an item of [put_all]. *)
Definition item_key (it : string * MemoryContext.t * Z) : string :=
  fst (fst it).

(** ** Runs of the engine *)

Section EngineRuns.
Context {W : Backend}.

(** Several [store_memory] in a row. *)
Fixpoint store_many (items : list (json * list string)) : M (list string) :=
  match items with
  | [] => ret []
  | (content, tags) :: rest =>
      context_id <- store_memory content tags ;;
      ids <- store_many rest ;;
      ret (context_id :: ids)
  end.

(** What can happen to an engine between a store and a later read:
    calls of its interface, and the durable environment starting or
    ceasing to reject writes. *)
Inductive event : Type :=
| EvStore (content : json) (tags : list string)
| EvRetrieve (context_id : string)
| EvSearch (query : string) (tags : list string) (limit : Z)
| EvFault (fault : option string).

Definition run_event (ev : event) (s : MemoryEngine) : MemoryEngine :=
  match ev with
  | EvStore content tags => snd (store_memory content tags s)
  | EvRetrieve context_id => snd (retrieve_memory context_id s)
  | EvSearch query tags limit => snd (search_memories query tags limit s)
  | EvFault fault =>
      set_persistent_store
        (mkPersistentStore (env_db (persistent_store s)) fault) s
  end.

Definition run_events (evs : list event) (s : MemoryEngine) : MemoryEngine :=
  fold_left (fun st ev => run_event ev st) evs s.

(** The record [store_memory content tags] builds in state [s]. *)
Definition new_context (content : json) (tags : list string)
    (s : MemoryEngine) : MemoryContext.t :=
  MemoryContext.mk (uuid4_draw (uuid_calls s)) content tags
    (clock (clock_calls s)) (engine_session_id s)
    (Some (config_workspace_path s)) (git_head s).

(** The durable log holds [ctx] under its id. *)
Definition durably_stored (ctx : MemoryContext.t) (s : MemoryEngine) : Prop :=
  PyDict.get (MemoryContext.id ctx) (env_db (persistent_store s))
  = Some (encode_context ctx).

(** The cache holds [context_id]. *)
Definition in_cache (context_id : string) (s : MemoryEngine) : bool :=
  cached context_id (ram_buffer s).

(** The engine keeps [ctx]: the durable log holds it, the cache holds
    nothing else under its id, and its id is a draw already made. *)
Definition keeps (ctx : MemoryContext.t) (s : MemoryEngine) : Prop :=
  RAMBuffer_wf (ram_buffer s) /\
  durably_stored ctx s /\
  (PyDict.get (MemoryContext.id ctx) (_buffer (ram_buffer s)) = None \/
   PyDict.get (MemoryContext.id ctx) (_buffer (ram_buffer s)) = Some ctx) /\
  exists n, (n < uuid_calls s)%nat /\ MemoryContext.id ctx = uuid4_draw n.

(** The state of a cache of capacity [N] that received the ids [done],
    in that order, over a writable durable log, with a clock that has
    not gone back. *)
Definition fifo_inv (N : Z) (done : list string) (s : MemoryEngine) : Prop :=
  RAMBuffer_wf (ram_buffer s) /\
  max_size (ram_buffer s) = N /\
  env_fault (persistent_store s) = None /\
  times_sorted (_access_times (ram_buffer s)) /\
  (forall x, In x (_access_times (ram_buffer s)) ->
             snd x <= clock (clock_calls s)) /\
  PyDict.keys (_buffer (ram_buffer s)) = lastn (effective_capacity N) done /\
  (forall k, In k done ->
             exists n, (n < uuid_calls s)%nat /\ k = uuid4_draw n).

(** The durable log holds [ctx] under an id that was drawn. *)
Definition persisted (ctx : MemoryContext.t) (s : MemoryEngine) : Prop :=
  durably_stored ctx s /\
  exists n, (n < uuid_calls s)%nat /\ MemoryContext.id ctx = uuid4_draw n.

(** From [s] to [s'] the engine only went on: the cache stayed
    well-formed, the condition of the durable log is the same, no draw
    was undone and every persisted record still is. *)
Definition grows (s s' : MemoryEngine) : Prop :=
  (RAMBuffer_wf (ram_buffer s) -> RAMBuffer_wf (ram_buffer s')) /\
  env_fault (persistent_store s') = env_fault (persistent_store s) /\
  (uuid_calls s <= uuid_calls s')%nat /\
  (forall ctx, persisted ctx s -> persisted ctx s').

End EngineRuns.

(** Two tasks that differ at most in their plugin chain. *)
Definition same_but_chain (task task' : Task.t) : Prop :=
  Task.id task' = Task.id task /\
  Task.name task' = Task.name task /\
  Task.parameters task' = Task.parameters task /\
  Task.context_id task' = Task.context_id task.

(** The record of one completed step of a chain. *)
Definition step_record (task : Task.t) (plugin_name : string) (out : json)
    (step : Z) (ctx : MemoryContext.t) : Prop :=
  MemoryContext.content ctx
  = JDict [("task_id", JStr (Task.id task));
           ("plugin", JStr plugin_name);
           ("output", out);
           ("step", JNum step)] /\
  MemoryContext.tags ctx = ["task"; "plugin_output"; plugin_name].

(** A task of three plugins for the examples. *)
Definition three_step_task : Task.t :=
  Task.mk "t-1" "demo" "three steps" ["first"; "second"; "third"]
          (JDict []) 1 0 None.

(** ** An executable instance of the collaborators

    Used to run the model on concrete inputs: the codec keeps the record
    as it is, the index ranks by insertion order, the [n]-th identifier
    is ["uuid-"] followed by [n] strokes and the [n]-th clock reading is
    [n]. *)

Fixpoint strokes (n : nat) : string :=
  match n with
  | O => ""
  | S m => String.append "i" (strokes m)
  end.

Definition plain_backend : Backend :=
  {| bytes := MemoryContext.t;
     encode_context := fun ctx => ctx;
     decode_context := fun value => Ok value;
     bytes_truthy := fun _ => true;
     VectorStore := list string;
     score := unit;
     add_context := fun ctx index => index ++ [MemoryContext.id ctx];
     search_similar :=
       fun index _ limit => map (fun i => (i, tt)) (firstn (Z.to_nat limit) index);
     uuid4_draw := fun n => String.append "uuid-" (strokes n);
     clock := Z.of_nat |}.

(** An engine of the instance, started over an empty durable log in
    condition [fault], with a cache of [max_ram_size] entries. *)
Definition plain_engine (max_ram_size : Z) (fault : option string)
  : @MemoryEngine plain_backend :=
  @MemoryEngine_init plain_backend "/ws" max_ram_size
    (@mkPersistentStore plain_backend PyDict.empty fault)
    ([] : @VectorStore plain_backend) None PyDict.empty 0 0.


(** An engine of the instance with a cache of one entry after two
    stores: the first record was evicted and is in the durable log
    only. *)
Definition plain_after_two : @MemoryEngine plain_backend :=
  snd (@store_many plain_backend
         [(JDict [("n", JNum 1)], ["a"]); (JDict [("n", JNum 2)], ["b"])]
         (plain_engine 1 None)).


(** ** The search, in the words of the design document

    "Asks the search index for up to [2 * limit] candidate ids, retrieves
    each via retrieve, filters out any whose tags do not intersect the
    requested tags (when tags is non-empty), stops once [limit] records
    are collected or candidates are exhausted." *)

Section SearchSpec.
Context {W : Backend}.

(** The record and the request have a tag in common. *)
Definition shares_tag (tags : list string) (ctx : MemoryContext.t) : bool :=
  existsb (fun tag => existsb (String.eqb tag) (MemoryContext.tags ctx)) tags.

Definition tags_empty (tags : list string) : bool :=
  match tags with [] => true | _ :: _ => false end.

Fixpoint search_collect (candidates : list (string * score))
    (tags : list string) (limit : Z) (collected : list MemoryContext.t)
  : M (list MemoryContext.t) :=
  match candidates with
  | [] => ret collected
  | (context_id, _) :: rest =>
      if Z.of_nat (List.length collected) >=? limit then ret collected
      else
        found <- retrieve_memory context_id ;;
        match found with
        | Some ctx =>
            if tags_empty tags || shares_tag tags ctx
            then search_collect rest tags limit (collected ++ [ctx])
            else search_collect rest tags limit collected
        | None => search_collect rest tags limit collected
        end
  end.

Definition search_spec (query : string) (tags : list string) (limit : Z)
  : M (list MemoryContext.t) :=
  fun s =>
    search_collect (search_similar (vector_store s) query (2 * limit))
                   tags limit [] s.

End SearchSpec.

(** An engine of the instance holding three records, tagged [x], [y] and
    [y]. *)
Definition plain_three_tagged : @MemoryEngine plain_backend :=
  snd (@store_many plain_backend
         [(JDict [("n", JNum 1)], ["x"; "task"]);
          (JDict [("n", JNum 2)], ["y"]);
          (JDict [("n", JNum 3)], ["y"; "task"])]
         (plain_engine 10 None)).


(** ** Vocabulary of the queue *)

(** The tasks waiting in the queue, in the order of the list. *)
Definition queued (q : TaskQueue) : list Task.t := map snd (_queue q).

(** No entry of the queue has both the priority and the creation time
    of the entry [e]: comparing [e] with an entry of the queue never
    reaches the tasks. *)
Definition untied (e : entry) (h : heapq.heap) : Prop :=
  Forall (fun e' : entry => fst e' <> fst e) h.

(** Every entry is the tuple [add_task] builds for its task. *)
Definition queue_wf (q : TaskQueue) : Prop :=
  Forall (fun e : entry =>
            fst e = (- Task.priority (snd e), Task.created_at (snd e)))
         (_queue q).

(** No two queued tasks have both the same priority and the same
    creation time: comparing two entries never reaches the tasks. *)
Definition queue_comparable (q : TaskQueue) : Prop :=
  NoDup (map fst (_queue q)).

(** The order of the entries on their two numbers. *)
Definition key_lt (a b : Z * Z) : Prop :=
  fst a < fst b \/ (fst a = fst b /\ snd a < snd b).

(** The index of the parent of the entry at index [i > 0]. *)
Definition parentpos (i : nat) : nat := Nat.shiftr (i - 1) 1.

(** The heap invariant of [heapq]: every entry but the first is above
    its parent. *)
Definition heap_ordered (h : heapq.heap) : Prop :=
  forall i c p,
    (0 < i)%nat ->
    nth_error h i = Some c -> nth_error h (parentpos i) = Some p ->
    key_lt (fst p) (fst c).

(** The list is a heap but for the entry at [pos], which a sift is
    moving: every entry away from [pos] is above its parent, and the
    children of [pos] are above the parent of [pos]. *)
Definition hole_ordered (pos : nat) (h : heapq.heap) : Prop :=
  (forall i c p,
      (0 < i)%nat -> i <> pos -> parentpos i <> pos ->
      nth_error h i = Some c -> nth_error h (parentpos i) = Some p ->
      key_lt (fst p) (fst c)) /\
  (forall i c p,
      (0 < i)%nat -> (0 < pos)%nat -> parentpos i = pos ->
      nth_error h i = Some c -> nth_error h (parentpos pos) = Some p ->
      key_lt (fst p) (fst c)).

(** The children of [pos] are above the entry [x]. *)
Definition above_children (x : entry) (pos : nat) (h : heapq.heap) : Prop :=
  forall i c,
    (0 < i)%nat -> parentpos i = pos -> nth_error h i = Some c ->
    key_lt (fst x) (fst c).

(** The queue of an agent that can release its tasks in order: its
    entries are those [add_task] builds, no two tie, and the list is a
    heap. *)
Definition queue_ok (q : TaskQueue) : Prop :=
  queue_wf q /\ queue_comparable q /\ heap_ordered (_queue q).

(** [runs_before a b]: a higher priority, or the same priority and an
    earlier creation time. *)
Definition runs_before (a b : Task.t) : Prop :=
  Task.priority a > Task.priority b \/
  (Task.priority a = Task.priority b /\ Task.created_at a < Task.created_at b).

(** The tasks that [n] calls of [get_next_task] in a row return, up to
    the first that returns none. *)
Fixpoint drain (n : nat) (q : TaskQueue) : list Task.t :=
  match n with
  | O => []
  | S n' =>
      match get_next_task q with
      | (Ok (Some task), q') => task :: drain n' q'
      | _ => []
      end
  end.

(** A task to enqueue in examples. *)
Definition sample_task (name : string) (priority created_at : Z) : Task.t :=
  Task.mk name name "" [] (JDict []) priority created_at None.


(** ** Examples of agents *)

(** A plugin that stores nothing and returns [{"value": n}]. *)
Definition constant_plugin (name : string) (n : Z) : PluginBase.t :=
  PluginBase.mk name (fun _ => true)
    (fun _ _ => ([], Ok (JDict [("value", JNum n)]))) [].

(** A plugin that stores nothing and raises [ValueError(msg)]. *)
Definition failing_plugin (name msg : string) : PluginBase.t :=
  PluginBase.mk name (fun _ => true)
    (fun _ _ => ([], Raise (ValueError msg))) [].

(** Three plugins registered in order; the second raises. *)
Definition three_plugins : PluginManager :=
  register_plugin (constant_plugin "third" 3)
    (register_plugin (failing_plugin "second" "boom")
       (register_plugin (constant_plugin "first" 1)
          (mkPluginManager PyDict.empty PyDict.empty))).

(** An agent of the instance, just built. *)
Definition plain_agent : @TaskAgent plain_backend :=
  @TaskAgent_init plain_backend (plain_engine 10 None).

(** The instance with a clock that stands still: every reading falls
    within one tick of its resolution. *)
Definition frozen_backend : Backend :=
  {| bytes := MemoryContext.t;
     encode_context := fun ctx => ctx;
     decode_context := fun value => Ok value;
     bytes_truthy := fun _ => true;
     VectorStore := list string;
     score := unit;
     add_context := fun ctx index => index ++ [MemoryContext.id ctx];
     search_similar :=
       fun index _ limit => map (fun i => (i, tt)) (firstn (Z.to_nat limit) index);
     uuid4_draw := fun n => String.append "uuid-" (strokes n);
     clock := fun _ => 0 |}.

(** An agent over that instance, just built, with a durable log in
    condition [fault]. *)
Definition frozen_agent (fault : option string) : @TaskAgent frozen_backend :=
  @TaskAgent_init frozen_backend
    (@MemoryEngine_init frozen_backend "/ws" 10
       (@mkPersistentStore frozen_backend PyDict.empty fault)
       ([] : @VectorStore frozen_backend) None PyDict.empty 0 0).

(** * More of the two modules

    The operations of [agent/memory_engine.py] and
    [agent/task_agent.py] that the statements above do not reach, and
    the vocabulary of what is proved about them. *)

(** ** Runs of cache operations *)

Inductive cache_op : Type :=
| CacheGet (key : string) (now : Z)
| CachePut (key : string) (context : MemoryContext.t) (now : Z)
| CacheEvict
| CacheClear.

Definition run_cache_op (op : cache_op) (b : RAMBuffer) : result RAMBuffer :=
  match op with
  | CacheGet key now => Ok (snd (RAMBuffer_get key now b))
  | CachePut key context now => RAMBuffer_put key context now b
  | CacheEvict => _evict_lru b
  | CacheClear => Ok (RAMBuffer_clear b)
  end.

Fixpoint run_cache_ops (ops : list cache_op) (b : RAMBuffer)
  : result RAMBuffer :=
  match ops with
  | [] => Ok b
  | op :: rest =>
      match run_cache_op op b with
      | Ok b' => run_cache_ops rest b'
      | Raise e => Raise e
      end
  end.

(** ** [PersistentStore.list_contexts]

    An LMDB cursor visits the entries by increasing key, keys compared
    byte by byte, a proper prefix first. *)

Fixpoint cursor_insert {V : Type} (kv : string * V)
    (sorted : list (string * V)) : list (string * V) :=
  match sorted with
  | [] => [kv]
  | kv' :: rest =>
      if String.leb (fst kv) (fst kv') then kv :: sorted
      else kv' :: cursor_insert kv rest
  end.

Definition lmdb_cursor {V : Type} (db : PyDict.t V) : list (string * V) :=
  fold_right cursor_insert [] db.

Section Listing.
Context {W : Backend}.

(** The loop of [list_contexts] over the entries the cursor still has
    to visit. *)
Fixpoint list_contexts_loop (cursor : list (string * bytes)) (limit : Z)
    (contexts : list string) : list string :=
  match cursor with
  | [] => contexts
  | (key, _) :: rest =>
      let contexts' := contexts ++ [key] in
      if Z.of_nat (List.length contexts') >=? limit then contexts'
      else list_contexts_loop rest limit contexts'
  end.

(** [PersistentStore.list_contexts] *)
Definition list_contexts (limit : Z) (ps : PersistentStore) : list string :=
  list_contexts_loop (lmdb_cursor (env_db ps)) limit [].

End Listing.

(** ** [VectorStore] without ChromaDB

    The branch of [VectorStore] taken when [chromadb] cannot be
    imported: a dictionary from id to the JSON text of the content and
    a substring search over it. [json.dumps], [str.lower] and the
    arithmetic of the scores are library operations; on numbers only
    [/] of two integers and [<] are used. *)

Class TextOps : Type := {
  json_dumps : json -> string;
  str_lower : string -> string;
  number : Type;
  truediv : Z -> Z -> number;
  int_number : Z -> number;
  number_lt : number -> number -> bool
}.

(** [a in b] on strings *)
Fixpoint str_contains (a b : string) : bool :=
  String.prefix a b ||
  match b with
  | EmptyString => false
  | String _ rest => str_contains a rest
  end.

(** [len(s)] of a string *)
Definition str_len (s : string) : Z := Z.of_nat (String.length s).

(** [l[:limit]]: a negative limit counts from the end. *)
Definition slice_to {A : Type} (limit : Z) (l : list A) : list A :=
  if limit <? 0
  then firstn (Z.to_nat (Z.of_nat (List.length l) + limit)) l
  else firstn (Z.to_nat limit) l.

(** The metadata of an entry; the timestamp is kept as the clock
    reading of the record, which the code writes in ISO format. *)
Record simple_metadata : Type := mk_simple_metadata {
  meta_id : string;
  meta_tags : string;
  meta_timestamp : Z;
  meta_session_id : string
}.

Record simple_entry : Type := mk_simple_entry {
  entry_content : string;
  entry_metadata : simple_metadata
}.

(** [self._simple_store] *)
Definition simple_store : Type := PyDict.t simple_entry.

Section SimpleIndex.
Context {T : TextOps}.

(** [VectorStore.add_context] *)
Definition simple_add_context (context : MemoryContext.t)
    (store : simple_store) : simple_store :=
  let text_content := json_dumps (MemoryContext.content context) in
  PyDict.set (MemoryContext.id context)
    (mk_simple_entry text_content
       (mk_simple_metadata (MemoryContext.id context)
          (String.concat "," (MemoryContext.tags context))
          (MemoryContext.timestamp context)
          (MemoryContext.session_id context)))
    store.

(** The score of a match: [len(query) / len(content) if content else 0]. *)
Definition simple_score (query content : string) : number :=
  match content with
  | EmptyString => int_number 0
  | String _ _ => truediv (str_len query) (str_len content)
  end.

(** The loop of [search_similar] over the items still to visit. *)
Fixpoint simple_matches (query : string) (items : list (string * simple_entry))
    (results : list (string * number)) : list (string * number) :=
  match items with
  | [] => results
  | (context_id, data) :: rest =>
      let content := str_lower (entry_content data) in
      if str_contains (str_lower query) content
      then simple_matches query rest
             (results ++ [(context_id, simple_score query content)])
      else simple_matches query rest results
  end.

(** [results.sort(key=lambda x: x[1], reverse=True)]: by decreasing
    score, entries of equal score in their order in [results]. *)
Fixpoint insert_by_score (x : string * number)
    (sorted : list (string * number)) : list (string * number) :=
  match sorted with
  | [] => [x]
  | y :: rest =>
      if number_lt (snd x) (snd y) then y :: insert_by_score x rest
      else x :: sorted
  end.

Definition sort_by_score (results : list (string * number))
  : list (string * number) :=
  fold_right insert_by_score [] results.

(** [VectorStore.search_similar] *)
Definition simple_search_similar (store : simple_store) (query : string)
    (limit : Z) : list (string * number) :=
  slice_to limit (sort_by_score (simple_matches query store [])).

(** The entry of the store under [context_id] matches [query]. *)
Definition simple_hit (store : simple_store) (query : string)
    (context_id : string) : Prop :=
  exists data,
    PyDict.get context_id store = Some data /\
    str_contains (str_lower query) (str_lower (entry_content data)) = true.

(** The matches of [query] in the order of the store, each with its
    score: what the loop of [search_similar] collects. *)
Definition entry_matches (query : string) (kv : string * simple_entry) : bool :=
  str_contains (str_lower query) (str_lower (entry_content (snd kv))).

Definition entry_scored (query : string) (kv : string * simple_entry)
  : string * number :=
  (fst kv, simple_score query (str_lower (entry_content (snd kv)))).

Definition simple_candidates (query : string) (store : simple_store)
  : list (string * number) :=
  map (entry_scored query) (filter (entry_matches query) store).

(** Two scores neither of which is below the other. *)
Definition same_score (a b : number) : bool :=
  negb (number_lt a b) && negb (number_lt b a).

(** [<] on the numbers is a strict weak order, as it is on the
    integers and the floats other than NaN. *)
Definition number_ordered : Prop :=
  (forall a, number_lt a a = false) /\
  (forall a b c,
      number_lt a b = true -> number_lt b c = true -> number_lt a c = true) /\
  (forall a b c,
      number_lt a b = false -> number_lt b c = false -> number_lt a c = false).

End SimpleIndex.

(** The collaborators of an engine that runs without ChromaDB. *)
Definition fallback_backend (W : Backend) (T : TextOps) : Backend :=
  {| bytes := @bytes W;
     encode_context := @encode_context W;
     decode_context := @decode_context W;
     bytes_truthy := @bytes_truthy W;
     VectorStore := simple_store;
     score := @number T;
     add_context := @simple_add_context T;
     search_similar := @simple_search_similar T;
     uuid4_draw := @uuid4_draw W;
     clock := @clock W |}.

(** The index holds the text of records the engine keeps: the cache is
    well-formed, the ids of the index are distinct, and every entry is
    the JSON text of the content of a kept record of that id. *)
Definition index_kept {W : Backend} {T : TextOps}
    (s : @MemoryEngine (fallback_backend W T)) : Prop :=
  RAMBuffer_wf (@ram_buffer (fallback_backend W T) s) /\
  NoDup (PyDict.keys (@vector_store (fallback_backend W T) s)) /\
  forall context_id data,
    PyDict.get context_id (@vector_store (fallback_backend W T) s) = Some data ->
    exists ctx,
      MemoryContext.id ctx = context_id /\
      entry_content data = json_dumps (MemoryContext.content ctx) /\
      @keeps (fallback_backend W T) ctx s.

(** The JSON text of the content of [ctx] contains [query], both in
    lower case. *)
Definition text_matches {T : TextOps} (query : string)
    (ctx : MemoryContext.t) : bool :=
  str_contains (str_lower query)
               (str_lower (json_dumps (MemoryContext.content ctx))).

(** ** An executable instance of the text operations

    [json.dumps] with its default separators, strings written without
    escapes; [str.lower] on the letters A to Z; the quotient of two
    integers as the exact rational. *)

Definition quote_char : string := String (Ascii.ascii_of_nat 34) EmptyString.

Definition quoted (s : string) : string :=
  String.append quote_char (String.append s quote_char).

Fixpoint plain_dumps (j : json) : string :=
  match j with
  | JNull => "null"
  | JBool true => "true"
  | JBool false => "false"
  | JNum n => DecimalString.NilZero.string_of_int (Z.to_int n)
  | JStr s => quoted s
  | JList l =>
      String.append "["
        (String.append (String.concat ", " (map plain_dumps l)) "]")
  | JDict d =>
      String.append "{"
        (String.append
           (String.concat ", "
              (map (fun kv : string * json =>
                      let (k, v) := kv in
                      String.append (quoted k)
                        (String.append ": " (plain_dumps v)))
                   d))
           "}")
  end.

Definition lower_ascii (c : Ascii.ascii) : Ascii.ascii :=
  let n := Ascii.nat_of_ascii c in
  if ((65 <=? n)%nat && (n <=? 90)%nat)%bool
  then Ascii.ascii_of_nat (n + 32) else c.

Fixpoint plain_lower (s : string) : string :=
  match s with
  | EmptyString => EmptyString
  | String c rest => String (lower_ascii c) (plain_lower rest)
  end.

Definition plain_text : TextOps :=
  {| json_dumps := plain_dumps;
     str_lower := plain_lower;
     number := Q;
     truediv := fun a b => Qmake a (Z.to_pos b);
     int_number := inject_Z;
     number_lt := fun a b => negb (Qle_bool b a) |}.

(** An engine without ChromaDB, over the instance of the other
    collaborators. *)
Definition fallback_engine (max_ram_size : Z)
  : @MemoryEngine (fallback_backend plain_backend plain_text) :=
  @MemoryEngine_init (fallback_backend plain_backend plain_text) "/ws"
    max_ram_size
    (@mkPersistentStore (fallback_backend plain_backend plain_text)
       PyDict.empty None)
    (PyDict.empty : @VectorStore (fallback_backend plain_backend plain_text))
    None PyDict.empty 0 0.

(** ** More of [PluginManager] and [TaskAgent] *)

(** [PluginManager.__init__] *)
Definition PluginManager_init : PluginManager :=
  mkPluginManager PyDict.empty PyDict.empty.

(** [PluginManager.get_plugin] *)
Definition get_plugin (name : string) (pm : PluginManager)
  : option PluginBase.t :=
  PyDict.get name (_plugins pm).

(** The loop of [find_plugins_by_capability] over the items of
    [_capabilities] still to visit. *)
Fixpoint find_loop (capability : string)
    (items : list (string * list string)) (matching : list string)
  : list string :=
  match items with
  | [] => matching
  | (plugin_name, caps) :: rest =>
      if existsb (String.eqb capability) caps
      then find_loop capability rest (matching ++ [plugin_name])
      else find_loop capability rest matching
  end.

(** [PluginManager.find_plugins_by_capability] *)
Definition find_plugins_by_capability (capability : string)
    (pm : PluginManager) : list string :=
  find_loop capability (_capabilities pm) [].

(** A manager after the registrations [plugins], in that order. *)
Definition registered (plugins : list PluginBase.t) : PluginManager :=
  fold_left (fun pm plugin => register_plugin plugin pm) plugins
            PluginManager_init.

(** The plugin registered last under [name] among [plugins]. *)
Fixpoint last_named (name : string) (plugins : list PluginBase.t)
  : option PluginBase.t :=
  match plugins with
  | [] => None
  | p :: rest =>
      match last_named name rest with
      | Some q => Some q
      | None => if String.eqb name (PluginBase.name p) then Some p else None
      end
  end.

Section MoreAgent.
Context {W : Backend}.

(** [TaskAgent.get_task_result] *)
Definition get_task_result (task_id : string) (a : TaskAgent)
  : option TaskResult.t :=
  get_result task_id (task_queue a).

(** The plugin [name] is registered, accepts [parameters] and returns
    on them whatever the context. *)
Definition plugin_returns (pm : PluginManager) (parameters : json)
    (name : string) : Prop :=
  exists plugin,
    PyDict.get name (_plugins pm) = Some plugin /\
    PluginBase.validate_parameters plugin parameters = true /\
    forall context,
      exists out, snd (PluginBase.execute plugin parameters context) = Ok out.

(** Reading the record of the task from the durable log does not
    raise. *)
Definition context_readable (task : Task.t) (s : MemoryEngine) : Prop :=
  forall context_id,
    Task.context_id task = Some context_id ->
    exists found, get_context context_id (persistent_store s) = Ok found.

(** From [s] to [s'] the cache stayed well-formed and the condition of
    the durable log is the same. *)
Definition steady (s s' : MemoryEngine) : Prop :=
  (RAMBuffer_wf (ram_buffer s) -> RAMBuffer_wf (ram_buffer s')) /\
  env_fault (persistent_store s') = env_fault (persistent_store s).

(** The queue of an agent after any history of submissions, polls of
    the executor loop, starts and completions. *)
Inductive queue_history : TaskQueue -> Prop :=
| history_init :
    queue_history (TaskQueue_init default_max_concurrent)
| history_submit (task : Task.t) (q : TaskQueue) :
    queue_history q -> queue_history (snd (add_task task q))
| history_poll (q q' : TaskQueue) (r : result (option Task.t)) :
    queue_history q -> get_next_task q = (r, q') -> queue_history q'
| history_start (task : Task.t) (q : TaskQueue) :
    queue_history q ->
    queue_history (add_running_task (Task.id task) task q)
| history_done (pm : PluginManager) (task : Task.t) (s : MemoryEngine)
    (q : TaskQueue) :
    queue_history q ->
    queue_history
      (_handle_task_completion (Task.id task)
         (fst (execute_task_chain pm task s)) q).

(** A result as the agent records them: completed without error, or
    failed with one. *)
Definition result_final (r : TaskResult.t) : Prop :=
  (TaskResult.status r = COMPLETED /\ TaskResult.error r = None) \/
  (TaskResult.status r = FAILED /\ TaskResult.error r <> None).

End MoreAgent.

(** * Properties *)

(** ** Dictionaries *)

Module PyDictFacts.
Section Facts.
Context {V : Type}.
Implicit Types (d : PyDict.t V) (k : string) (v : V).

Lemma get_set_same k v d : PyDict.get k (PyDict.set k v d) = Some v.
Proof.
  induction d as [|[k' v'] r IH]; simpl.
  - now rewrite String.eqb_refl.
  - destruct (String.eqb k k') eqn:E; simpl; rewrite E; auto.
Qed.

Lemma get_set_other k k' v d :
  k <> k' -> PyDict.get k' (PyDict.set k v d) = PyDict.get k' d.
Proof.
  intros Hne. induction d as [|[k0 v0] r IH]; simpl.
  - destruct (String.eqb k' k) eqn:E; auto.
    apply String.eqb_eq in E. congruence.
  - destruct (String.eqb k k0) eqn:E; simpl.
    + apply String.eqb_eq in E. subst k0.
      destruct (String.eqb k' k) eqn:E'; auto.
      apply String.eqb_eq in E'. congruence.
    + now rewrite IH.
Qed.

Lemma get_none_keys k d : PyDict.get k d = None <-> ~ In k (PyDict.keys d).
Proof.
  induction d as [|[k' v'] r IH]; simpl.
  - tauto.
  - destruct (String.eqb k k') eqn:E.
    + apply String.eqb_eq in E. subst. split; [discriminate | tauto].
    + apply String.eqb_neq in E. rewrite IH. split.
      * intros H [H1 | H1]; [congruence | tauto].
      * tauto.
Qed.

Lemma get_some_keys k v d : PyDict.get k d = Some v -> In k (PyDict.keys d).
Proof.
  intros H. destruct (in_dec string_dec k (PyDict.keys d)) as [|n]; auto.
  apply get_none_keys in n. congruence.
Qed.

Lemma keys_get_some k d :
  In k (PyDict.keys d) -> exists v, PyDict.get k d = Some v.
Proof.
  intros H. destruct (PyDict.get k d) eqn:E; eauto.
  apply get_none_keys in E. tauto.
Qed.

Lemma mem_true_iff k d : PyDict.mem k d = true <-> In k (PyDict.keys d).
Proof.
  unfold PyDict.mem. destruct (PyDict.get k d) eqn:E.
  - split; auto. intros _. eapply get_some_keys; eauto.
  - apply get_none_keys in E. split; [discriminate | tauto].
Qed.

Lemma mem_false_iff k d : PyDict.mem k d = false <-> ~ In k (PyDict.keys d).
Proof.
  rewrite <- mem_true_iff. destruct (PyDict.mem k d); split; congruence.
Qed.

Lemma set_absent k v d :
  ~ In k (PyDict.keys d) -> PyDict.set k v d = d ++ [(k, v)].
Proof.
  induction d as [|[k' v'] r IH]; simpl; intros H; auto.
  destruct (String.eqb k k') eqn:E.
  - apply String.eqb_eq in E. subst. tauto.
  - rewrite IH; tauto.
Qed.

Lemma keys_set_present k v d :
  In k (PyDict.keys d) -> PyDict.keys (PyDict.set k v d) = PyDict.keys d.
Proof.
  induction d as [|[k' v'] r IH]; simpl; intros H; [tauto|].
  destruct (String.eqb k k') eqn:E; simpl; auto.
  apply String.eqb_neq in E. f_equal. apply IH.
  destruct H; [congruence | auto].
Qed.

Lemma keys_set_absent k v d :
  ~ In k (PyDict.keys d) -> PyDict.keys (PyDict.set k v d) = PyDict.keys d ++ [k].
Proof.
  intros H. rewrite set_absent by auto. unfold PyDict.keys.
  now rewrite map_app.
Qed.

Lemma in_keys_set k k' v d :
  In k' (PyDict.keys (PyDict.set k v d)) <-> k' = k \/ In k' (PyDict.keys d).
Proof.
  destruct (in_dec string_dec k (PyDict.keys d)) as [i|n].
  - rewrite keys_set_present by auto. split; auto.
    intros [->|]; auto.
  - rewrite keys_set_absent by auto. rewrite in_app_iff. simpl.
    split; intros H; intuition (subst; auto).
Qed.

Lemma len_set_le k v d : PyDict.len (PyDict.set k v d) <= PyDict.len d + 1.
Proof.
  unfold PyDict.len.
  assert (List.length (PyDict.set k v d) <= S (List.length d))%nat; [|lia].
  induction d as [|[k' v'] r IH]; simpl; [lia|].
  destruct (String.eqb k k'); simpl; lia.
Qed.

Lemma len_set_present k v d :
  In k (PyDict.keys d) -> PyDict.len (PyDict.set k v d) = PyDict.len d.
Proof.
  intros H. unfold PyDict.len.
  rewrite <- (length_map fst (PyDict.set k v d)), <- (length_map fst d).
  fold (PyDict.keys (PyDict.set k v d)). fold (PyDict.keys d).
  now rewrite keys_set_present.
Qed.

Lemma len_set_absent k v d :
  ~ In k (PyDict.keys d) -> PyDict.len (PyDict.set k v d) = PyDict.len d + 1.
Proof.
  intros H. rewrite set_absent by auto. unfold PyDict.len.
  rewrite length_app. simpl. lia.
Qed.

Lemma NoDup_keys_set k v d :
  NoDup (PyDict.keys d) -> NoDup (PyDict.keys (PyDict.set k v d)).
Proof.
  intros H. destruct (in_dec string_dec k (PyDict.keys d)) as [i|n].
  - now rewrite keys_set_present.
  - rewrite keys_set_absent by auto.
    apply NoDup_app; [auto | repeat constructor; simpl; tauto |].
    intros x Hx [<-|[]]. tauto.
Qed.

Lemma del_none k d : PyDict.del k d = None <-> ~ In k (PyDict.keys d).
Proof.
  induction d as [|[k' v'] r IH]; simpl.
  - tauto.
  - destruct (String.eqb k k') eqn:E.
    + apply String.eqb_eq in E. subst. split; [discriminate | tauto].
    + apply String.eqb_neq in E.
      destruct (PyDict.del k r) eqn:D.
      * split; [discriminate|]. intros H. exfalso.
        assert (~ In k (PyDict.keys r)) as H' by tauto.
        apply IH in H'. discriminate.
      * split; auto. intros _ [H|H]; [congruence|].
        destruct IH as [IH _]. now apply IH.
Qed.

Lemma del_some_present k d :
  In k (PyDict.keys d) -> exists d', PyDict.del k d = Some d'.
Proof.
  intros H. destruct (PyDict.del k d) eqn:E; eauto.
  apply del_none in E. tauto.
Qed.

Lemma del_length k d d' :
  PyDict.del k d = Some d' -> List.length d = S (List.length d').
Proof.
  revert d'.
  induction d as [|[k' v'] r IH]; simpl; intros d' H; [discriminate|].
  destruct (String.eqb k k').
  - now inversion H.
  - destruct (PyDict.del k r) eqn:D; [|discriminate].
    inversion H; subst. simpl. f_equal. now apply IH.
Qed.

Lemma del_len k d d' :
  PyDict.del k d = Some d' -> PyDict.len d' = PyDict.len d - 1.
Proof.
  intros H. apply del_length in H. unfold PyDict.len. lia.
Qed.

Lemma del_in_keys k k' d d' :
  PyDict.del k d = Some d' ->
  In k' (PyDict.keys d') -> In k' (PyDict.keys d).
Proof.
  revert d'. induction d as [|[k0 v0] r IH]; simpl; intros d' H; [discriminate|].
  destruct (String.eqb k k0).
  - inversion H; subst. auto.
  - destruct (PyDict.del k r) eqn:D; [|discriminate].
    inversion H; subst. simpl. intros [?|?]; eauto.
Qed.

Lemma del_keys_other k k' d d' :
  PyDict.del k d = Some d' -> k' <> k ->
  In k' (PyDict.keys d) -> In k' (PyDict.keys d').
Proof.
  revert d'. induction d as [|[k0 v0] r IH]; simpl; intros d' H Hne; [discriminate|].
  destruct (String.eqb k k0) eqn:E.
  - apply String.eqb_eq in E. inversion H; subst. intros [?|?]; congruence.
  - destruct (PyDict.del k r) eqn:D; [|discriminate].
    inversion H; subst. simpl. intros [?|?]; eauto.
Qed.

Lemma del_get_other k k' d d' :
  PyDict.del k d = Some d' -> k' <> k ->
  PyDict.get k' d' = PyDict.get k' d.
Proof.
  revert d'. induction d as [|[k0 v0] r IH]; simpl; intros d' H Hne; [discriminate|].
  destruct (String.eqb k k0) eqn:E.
  - apply String.eqb_eq in E. inversion H; subst.
    destruct (String.eqb k' k0) eqn:E'; auto.
    apply String.eqb_eq in E'. congruence.
  - destruct (PyDict.del k r) eqn:D; [|discriminate].
    inversion H; subst. simpl. destruct (String.eqb k' k0); eauto.
Qed.

Lemma del_NoDup k d d' :
  PyDict.del k d = Some d' -> NoDup (PyDict.keys d) ->
  NoDup (PyDict.keys d') /\ ~ In k (PyDict.keys d').
Proof.
  revert d'. induction d as [|[k0 v0] r IH]; simpl; intros d' H Hnd; [discriminate|].
  inversion Hnd as [|? ? Hnot Hnd']; subst.
  destruct (String.eqb k k0) eqn:E.
  - apply String.eqb_eq in E. inversion H; subst. auto.
  - apply String.eqb_neq in E.
    destruct (PyDict.del k r) eqn:D; [|discriminate].
    inversion H; subst. destruct (IH _ eq_refl Hnd') as [IH1 IH2].
    simpl. split.
    + constructor; auto. intros Hin. apply Hnot.
      eapply del_in_keys; eauto.
    + intros [?|?]; [congruence | tauto].
Qed.

Lemma del_get_same k d d' :
  PyDict.del k d = Some d' -> NoDup (PyDict.keys d) ->
  PyDict.get k d' = None.
Proof.
  intros H Hnd. apply get_none_keys. eapply del_NoDup; eauto.
Qed.

End Facts.

(** Deleting one key from two dictionaries with the same keys. *)
Lemma del_keys_sync {A B : Type} k (d1 : PyDict.t A) (d2 : PyDict.t B) d1' :
  PyDict.keys d1 = PyDict.keys d2 ->
  PyDict.del k d1 = Some d1' ->
  exists d2', PyDict.del k d2 = Some d2' /\ PyDict.keys d1' = PyDict.keys d2'.
Proof.
  revert d2 d1'.
  induction d1 as [|[k1 v1] r1 IH]; intros [|[k2 v2] r2] d1'; simpl;
    try discriminate.
  intros Hk H. inversion Hk; subst k2.
  destruct (String.eqb k k1).
  - inversion H; subst. eauto.
  - destruct (PyDict.del k r1) eqn:D; [|discriminate].
    inversion H; subst.
    destruct (IH r2 _ H2 eq_refl) as (d2' & -> & Hk').
    eexists; split; eauto. simpl. now f_equal.
Qed.

Lemma set_keys_sync {A B : Type} k (a : A) (b : B)
    (d1 : PyDict.t A) (d2 : PyDict.t B) :
  PyDict.keys d1 = PyDict.keys d2 ->
  PyDict.keys (PyDict.set k a d1) = PyDict.keys (PyDict.set k b d2).
Proof.
  revert d2.
  induction d1 as [|[k1 v1] r1 IH]; intros [|[k2 v2] r2]; simpl;
    try discriminate; auto.
  intros Hk. inversion Hk; subst k2.
  destruct (String.eqb k k1); simpl; f_equal; auto.
Qed.
End PyDictFacts.

(** ** The cache *)

Lemma min_scan_in best rest : In (min_scan best rest) (best :: rest).
Proof.
  revert best. induction rest as [|kt r IH]; intros best; simpl; auto.
  destruct (IH (if snd kt <? snd best then kt else best)) as [H|H]; auto.
  destruct (snd kt <? snd best); auto.
Qed.

Lemma min_scan_le best rest x :
  In x (best :: rest) -> snd (min_scan best rest) <= snd x.
Proof.
  revert best x. induction rest as [|kt r IH]; intros best x; simpl.
  - intros [->|[]]. lia.
  - intros H.
    assert (snd (min_scan (if snd kt <? snd best then kt else best) r)
            <= snd (if snd kt <? snd best then kt else best)) as Hb
      by (apply IH; simpl; auto).
    destruct H as [<-|[<-|H]].
    + destruct (Z.ltb_spec (snd kt) (snd best)); lia.
    + destruct (Z.ltb_spec (snd kt) (snd best)); lia.
    + apply IH. simpl; auto.
Qed.

(** On ties the earliest entry in iteration order is chosen. *)
Lemma min_scan_head best rest :
  (forall x, In x rest -> snd best <= snd x) -> min_scan best rest = best.
Proof.
  revert best. induction rest as [|kt r IH]; intros best H; simpl; auto.
  destruct (Z.ltb_spec (snd kt) (snd best)) as [Hlt|Hge].
  - specialize (H kt (or_introl eq_refl)). lia.
  - apply IH. intros x Hx. apply H. simpl; auto.
Qed.

(** [min_scan] returns the first of the entries whose value is least:
    strictly smaller than everything before it, at most everything
    after it. *)
Lemma min_scan_split rest :
  forall best l1 l2,
    (forall x, In x l1 -> snd best < snd x) ->
    (forall x, In x l2 -> snd best <= snd x) ->
    exists l1' l2',
      l1 ++ best :: l2 ++ rest = l1' ++ min_scan best rest :: l2' /\
      (forall x, In x l1' -> snd (min_scan best rest) < snd x) /\
      (forall x, In x l2' -> snd (min_scan best rest) <= snd x).
Proof.
  induction rest as [|kt r IH]; intros best l1 l2 H1 H2; simpl.
  - exists l1, l2. rewrite app_nil_r. auto.
  - destruct (Z.ltb_spec (snd kt) (snd best)) as [Hlt|Hge].
    + destruct (IH kt (l1 ++ best :: l2) []) as (l1' & l2' & He & Ha & Hb).
      * intros x Hx. apply in_app_iff in Hx. destruct Hx as [Hx|[<-|Hx]].
        -- specialize (H1 x Hx). lia.
        -- lia.
        -- specialize (H2 x Hx). lia.
      * intros x [].
      * exists l1', l2'. split; auto. rewrite <- He. simpl.
        rewrite <- app_assoc. reflexivity.
    + destruct (IH best l1 (l2 ++ [kt])) as (l1' & l2' & He & Ha & Hb); auto.
      * intros x Hx. apply in_app_iff in Hx. destruct Hx as [Hx|[<-|[]]]; auto.
      * exists l1', l2'. split; auto. rewrite <- He.
        rewrite <- app_assoc. reflexivity.
Qed.

Lemma get_of_in {V : Type} (k : string) (v : V) (d : PyDict.t V) :
  NoDup (PyDict.keys d) -> In (k, v) d -> PyDict.get k d = Some v.
Proof.
  induction d as [|[k' v'] r IH]; simpl; intros Hnd Hin; [tauto|].
  inversion Hnd as [|? ? Hnot Hnd']; subst.
  destruct Hin as [Heq|Hin].
  - inversion Heq; subst. now rewrite String.eqb_refl.
  - destruct (String.eqb k k') eqn:E.
    + apply String.eqb_eq in E. subst. exfalso. apply Hnot.
      change k' with (fst (k', v)). now apply in_map.
    + auto.
Qed.

Lemma in_of_get {V : Type} (k : string) (v : V) (d : PyDict.t V) :
  PyDict.get k d = Some v -> In (k, v) d.
Proof.
  induction d as [|[k' v'] r IH]; simpl; [discriminate|].
  destruct (String.eqb k k') eqn:E.
  - apply String.eqb_eq in E. intros H. inversion H; subst. auto.
  - auto.
Qed.

(** [lru_key] names a key of the buffer whose access time is minimal,
    the first such key in iteration order. *)
Lemma lru_key_oldest b :
  RAMBuffer_wf b -> _access_times b <> [] ->
  exists k t, lru_key b = Some k /\ last_access k b = Some t /\
              In k (PyDict.keys (_buffer b)) /\
              (forall k' t', last_access k' b = Some t' -> t <= t') /\
              exists before after,
                _access_times b = before ++ (k, t) :: after /\
                (forall x, In x before -> t < snd x) /\
                (forall x, In x after -> t <= snd x).
Proof.
  intros [Hk Hnd] Hne. unfold lru_key, last_access.
  destruct (_access_times b) as [|first rest] eqn:E; [congruence|].
  rewrite Hk in Hnd.
  pose proof (min_scan_in first rest) as Hin.
  destruct (min_scan_split rest first [] []) as (l1 & l2 & He & Ha & Hb);
    try (intros x []).
  destruct (min_scan first rest) as [k t] eqn:Em.
  exists k, t. split; [reflexivity|]. split; [|split; [|split]].
  - apply (get_of_in k t (first :: rest)); auto.
  - rewrite Hk. change k with (fst (k, t)). now apply in_map.
  - intros k' t' H. apply in_of_get in H.
    pose proof (min_scan_le first rest (k', t') H) as Hle.
    rewrite Em in Hle. exact Hle.
  - exists l1, l2. simpl in He. auto.
Qed.

Lemma wf_acc_nil b :
  RAMBuffer_wf b -> _access_times b = [] -> _buffer b = [].
Proof.
  intros [Hk _] H. rewrite H in Hk. unfold PyDict.keys in Hk.
  now apply map_eq_nil in Hk.
Qed.

Lemma wf_len b :
  RAMBuffer_wf b -> PyDict.len (_access_times b) = PyDict.len (_buffer b).
Proof.
  intros [Hk _]. unfold PyDict.len.
  rewrite <- (length_map fst (_buffer b)), <- (length_map fst (_access_times b)).
  unfold PyDict.keys in Hk. now rewrite Hk.
Qed.

(** [_evict_lru] on a well-formed buffer never raises: it removes the
    entry [lru_key] names from both dictionaries, or nothing when the
    buffer is empty. *)
Lemma evict_lru_spec b :
  RAMBuffer_wf b ->
  (_access_times b = [] /\ _evict_lru b = Ok b) \/
  (exists k buf' acc',
      lru_key b = Some k /\
      PyDict.del k (_buffer b) = Some buf' /\
      PyDict.del k (_access_times b) = Some acc' /\
      _evict_lru b = Ok (mkRAMBuffer (max_size b) buf' acc') /\
      RAMBuffer_wf (mkRAMBuffer (max_size b) buf' acc')).
Proof.
  intros Hwf. destruct (_access_times b) as [|first rest] eqn:E.
  - left. split; auto. unfold _evict_lru, lru_key. now rewrite E.
  - right.
    destruct (lru_key_oldest b Hwf) as (k & t & Hl & _ & Hin & _ & _);
      [congruence|].
    destruct (PyDictFacts.del_some_present k (_buffer b) Hin) as [buf' Hd].
    destruct Hwf as [Hk Hnd].
    destruct (PyDictFacts.del_keys_sync k _ _ _ Hk Hd) as (acc' & Hd' & Hk').
    exists k, buf', acc'. rewrite <- E. repeat split; auto.
    + unfold _evict_lru. now rewrite Hl, Hd, Hd'.
    + eapply PyDictFacts.del_NoDup; eauto.
Qed.

(** [put] on a well-formed buffer never raises and keeps it well-formed. *)
Lemma RAMBuffer_put_wf key ctx now b :
  RAMBuffer_wf b ->
  exists b', RAMBuffer_put key ctx now b = Ok b' /\ RAMBuffer_wf b' /\
             max_size b' = max_size b /\
             PyDict.get key (_buffer b') = Some ctx /\
             last_access key b' = Some now.
Proof.
  intros Hwf. unfold RAMBuffer_put, last_access.
  assert (forall b1, RAMBuffer_wf b1 ->
            RAMBuffer_wf (mkRAMBuffer (max_size b1)
                            (PyDict.set key ctx (_buffer b1))
                            (PyDict.set key now (_access_times b1)))) as Hset.
  { intros b1 [Hk Hnd]. split; simpl.
    - now apply PyDictFacts.set_keys_sync.
    - now apply PyDictFacts.NoDup_keys_set. }
  destruct (PyDict.len (_buffer b) >=? max_size b).
  - destruct (evict_lru_spec b Hwf) as [[_ ->]|(k & buf' & acc' & _ & _ & _ & -> & Hwf')].
    + eexists; split; [reflexivity|]. repeat split; try apply Hset; auto;
        simpl; apply PyDictFacts.get_set_same.
    + eexists; split; [reflexivity|]. repeat split; try apply (Hset _ Hwf');
        simpl; apply PyDictFacts.get_set_same.
  - eexists; split; [reflexivity|]. repeat split; try apply Hset; auto;
      simpl; apply PyDictFacts.get_set_same.
Qed.

Lemma RAMBuffer_get_wf key now b :
  RAMBuffer_wf b -> RAMBuffer_wf (snd (RAMBuffer_get key now b)).
Proof.
  intros Hwf. unfold RAMBuffer_get.
  destruct (PyDict.get key (_buffer b)) eqn:E; simpl; auto.
  destruct Hwf as [Hk Hnd]. split; simpl; auto.
  rewrite PyDictFacts.keys_set_present; auto.
  rewrite <- Hk. eapply PyDictFacts.get_some_keys; eauto.
Qed.

Lemma RAMBuffer_init_wf n : RAMBuffer_wf (RAMBuffer_init n).
Proof. split; simpl; [reflexivity | constructor]. Qed.

Lemma cached_iff key b :
  cached key b = true <-> In key (PyDict.keys (_buffer b)).
Proof. apply PyDictFacts.mem_true_iff. Qed.

Lemma cached_last_access key b :
  RAMBuffer_wf b ->
  (cached key b = true <-> exists t, last_access key b = Some t).
Proof.
  intros [Hk _]. rewrite cached_iff, Hk. unfold last_access. split.
  - apply PyDictFacts.keys_get_some.
  - intros [t H]. eapply PyDictFacts.get_some_keys; eauto.
Qed.

(** Below its capacity [put] only inserts. *)
Lemma put_below_capacity key ctx now b :
  PyDict.len (_buffer b) < max_size b ->
  RAMBuffer_put key ctx now b =
  Ok (mkRAMBuffer (max_size b) (PyDict.set key ctx (_buffer b))
                  (PyDict.set key now (_access_times b))).
Proof.
  intros H. unfold RAMBuffer_put.
  destruct (Z.geb_spec (PyDict.len (_buffer b)) (max_size b)); [lia|reflexivity].
Qed.

(** At capacity, with something to evict, [put] removes the one entry
    [lru_key] names, the first in iteration order of those whose access
    time is minimal, and then inserts. *)
Lemma put_at_capacity key ctx now b :
  RAMBuffer_wf b ->
  PyDict.len (_buffer b) >= max_size b ->
  _buffer b <> [] ->
  exists k t buf' acc',
    lru_key b = Some k /\
    last_access k b = Some t /\
    (forall k' t', last_access k' b = Some t' -> t <= t') /\
    (exists before after,
        _access_times b = before ++ (k, t) :: after /\
        (forall x, In x before -> t < snd x) /\
        (forall x, In x after -> t <= snd x)) /\
    PyDict.del k (_buffer b) = Some buf' /\
    PyDict.del k (_access_times b) = Some acc' /\
    RAMBuffer_put key ctx now b =
    Ok (mkRAMBuffer (max_size b) (PyDict.set key ctx buf')
                    (PyDict.set key now acc')).
Proof.
  intros Hwf Hlen Hne.
  assert (_access_times b <> []) as Hacc.
  { intros H. apply Hne. now apply wf_acc_nil. }
  destruct (lru_key_oldest b Hwf Hacc) as (k & t & Hl & Ht & _ & Hmin & Hfirst).
  destruct (evict_lru_spec b Hwf) as [[H _]|(k0 & buf' & acc' & Hl' & Hd & Hd' & He & _)];
    [congruence|].
  rewrite Hl in Hl'. inversion Hl'; subst k0.
  exists k, t, buf', acc'. repeat split; auto.
  unfold RAMBuffer_put.
  destruct (Z.geb_spec (PyDict.len (_buffer b)) (max_size b)); [|lia].
  now rewrite He.
Qed.

(** A buffer of positive capacity never grows past it. *)
Lemma put_bounded key ctx now b b' :
  RAMBuffer_wf b -> 1 <= max_size b ->
  PyDict.len (_buffer b) <= max_size b ->
  RAMBuffer_put key ctx now b = Ok b' ->
  PyDict.len (_buffer b') <= max_size b' /\ max_size b' = max_size b.
Proof.
  intros Hwf Hpos Hlen Hput.
  destruct (Z.lt_ge_cases (PyDict.len (_buffer b)) (max_size b)) as [Hlt|Hge].
  - rewrite put_below_capacity in Hput by auto. inversion Hput; subst; simpl.
    pose proof (PyDictFacts.len_set_le key ctx (_buffer b)). lia.
  - assert (_buffer b <> []) as Hne.
    { intros H. rewrite H in Hge. unfold PyDict.len in Hge. simpl in Hge. lia. }
    destruct (put_at_capacity key ctx now b Hwf) as
      (k & t & buf' & acc' & _ & _ & _ & _ & Hd & _ & Hp); auto; [lia|].
    rewrite Hp in Hput. inversion Hput; subst; simpl.
    pose proof (PyDictFacts.len_set_le key ctx buf').
    pose proof (PyDictFacts.del_len _ _ _ Hd). lia.
Qed.

(** A hit returns the cached record and sets its access time to the
    clock reading; nothing else changes. A miss changes nothing. *)
Lemma RAMBuffer_get_spec key now b :
  match PyDict.get key (_buffer b) with
  | Some ctx =>
      exists b', RAMBuffer_get key now b = (Some ctx, b') /\
                 max_size b' = max_size b /\
                 _buffer b' = _buffer b /\
                 last_access key b' = Some now /\
                 forall k, k <> key -> last_access k b' = last_access k b
  | None => RAMBuffer_get key now b = (None, b)
  end.
Proof.
  unfold RAMBuffer_get, last_access.
  destruct (PyDict.get key (_buffer b)) as [ctx|]; auto.
  eexists; split; [reflexivity|]. simpl. repeat split.
  - apply PyDictFacts.get_set_same.
  - intros k Hk. apply PyDictFacts.get_set_other. congruence.
Qed.

(** *** Insertion order is eviction order while the clock does not go back *)

Lemma times_sorted_snoc acc k now :
  times_sorted acc -> (forall x, In x acc -> snd x <= now) ->
  times_sorted (acc ++ [(k, now)]).
Proof.
  unfold times_sorted. induction acc as [|a r IH]; simpl; intros Hs Hle.
  - repeat constructor.
  - inversion Hs as [|? ? Hs' Hall]; subst. constructor.
    + apply IH; auto.
    + apply Forall_app. split; [exact Hall|].
      constructor; [|constructor]. simpl. apply Hle. auto.
Qed.

Lemma put_fifo key ctx now b :
  RAMBuffer_wf b ->
  times_sorted (_access_times b) ->
  (forall x, In x (_access_times b) -> snd x <= now) ->
  ~ In key (PyDict.keys (_buffer b)) ->
  exists b',
    RAMBuffer_put key ctx now b = Ok b' /\
    RAMBuffer_wf b' /\ max_size b' = max_size b /\
    times_sorted (_access_times b') /\
    (forall x, In x (_access_times b') -> snd x <= now) /\
    PyDict.keys (_buffer b') =
    (if PyDict.len (_buffer b) >=? max_size b
     then tl (PyDict.keys (_buffer b)) else PyDict.keys (_buffer b)) ++ [key].
Proof.
  intros Hwf Hs Hle Hnew.
  destruct (RAMBuffer_put_wf key ctx now b Hwf) as (b' & Hput & Hwf' & Hmax & _).
  exists b'. split; [exact Hput|]. split; [exact Hwf'|]. split; [exact Hmax|].
  destruct Hwf as [Hk Hnd].
  assert (~ In key (PyDict.keys (_access_times b))) as Hnew' by now rewrite <- Hk.
  unfold RAMBuffer_put in Hput.
  destruct (PyDict.len (_buffer b) >=? max_size b).
  - unfold _evict_lru, lru_key in Hput.
    destruct (_access_times b) as [|[k t] rest] eqn:Ea.
    + assert (_buffer b = []) as Eb.
      { unfold PyDict.keys in Hk. simpl in Hk. now apply map_eq_nil in Hk. }
      inversion Hput; subst b'; simpl. rewrite Ea, Eb. simpl.
      repeat split.
      * repeat constructor.
      * intros x [<-|[]]. simpl. lia.
    + rewrite min_scan_head in Hput.
      2:{ inversion Hs as [|? ? _ Hall]; subst.
          rewrite Forall_forall in Hall. exact Hall. }
      destruct (_buffer b) as [|[k0 c] bufr] eqn:Eb; [discriminate|].
      simpl in Hk. inversion Hk; subst k0. simpl in Hput.
      rewrite String.eqb_refl in Hput. inversion Hput; subst b'; simpl.
      simpl in Hnew, Hnew'.
      rewrite !PyDictFacts.set_absent by tauto.
      repeat split.
      * apply times_sorted_snoc.
        -- now inversion Hs.
        -- intros x Hx. apply Hle. simpl; auto.
      * intros x Hx. apply in_app_iff in Hx. destruct Hx as [Hx|[<-|[]]].
        -- apply Hle. simpl; auto.
        -- simpl. lia.
      * unfold PyDict.keys. now rewrite map_app.
  - inversion Hput; subst b'; simpl.
    rewrite !PyDictFacts.set_absent by tauto.
    repeat split.
    + now apply times_sorted_snoc.
    + intros x Hx. apply in_app_iff in Hx. destruct Hx as [Hx|[<-|[]]]; auto.
      simpl. lia.
    + unfold PyDict.keys. now rewrite map_app.
Qed.

Lemma tl_skipn {A : Type} (n : nat) (l : list A) :
  tl (skipn n l) = skipn (S n) l.
Proof.
  revert l. induction n as [|n IH]; intros [|a l]; simpl; auto.
Qed.

Lemma lastn_incl {A : Type} (n : nat) (l : list A) (x : A) :
  In x (lastn n l) -> In x l.
Proof.
  unfold lastn. intros H.
  rewrite <- (firstn_skipn (List.length l - n) l). apply in_app_iff. auto.
Qed.

Lemma lastn_length {A : Type} (n : nat) (l : list A) :
  List.length (lastn n l) = Nat.min n (List.length l).
Proof. unfold lastn. rewrite length_skipn. lia. Qed.

Lemma lastn_all {A : Type} (n : nat) (l : list A) :
  (List.length l <= n)%nat -> lastn n l = l.
Proof.
  intros H. unfold lastn. replace (List.length l - n)%nat with 0%nat by lia.
  reflexivity.
Qed.

Lemma effective_capacity_pos N : (1 <= effective_capacity N)%nat.
Proof. unfold effective_capacity. lia. Qed.

(** The keys of the buffer after a [put] of a new key, when they were
    the last [effective_capacity] keys inserted before. *)
Lemma fifo_keys_lastn N (done : list string) (k : string) :
  (if Z.of_nat (List.length (lastn (effective_capacity N) done)) >=? N
   then tl (lastn (effective_capacity N) done)
   else lastn (effective_capacity N) done) ++ [k]
  = lastn (effective_capacity N) (done ++ [k]).
Proof.
  pose proof (effective_capacity_pos N) as Hpos.
  remember (effective_capacity N) as M eqn:EM.
  rewrite lastn_length.
  destruct (Nat.lt_ge_cases (List.length done) M) as [Hlt|Hge].
  - rewrite lastn_all by lia.
    replace (Nat.min M (List.length done)) with (List.length done) by lia.
    destruct (Z.geb_spec (Z.of_nat (List.length done)) N) as [Hc|Hc].
    + assert (List.length done = 0)%nat as H0
        by (unfold effective_capacity in EM; lia).
      destruct done; [|discriminate].
      assert (M = 1%nat) as -> by (unfold effective_capacity in EM; simpl in *; lia).
      reflexivity.
    + rewrite lastn_all; auto. rewrite length_app. simpl.
      unfold effective_capacity in EM. lia.
  - replace (Nat.min M (List.length done)) with M by lia.
    destruct (Z.geb_spec (Z.of_nat M) N) as [Hc|Hc].
    2:{ unfold effective_capacity in EM. lia. }
    unfold lastn. rewrite tl_skipn, length_app. simpl.
    replace (List.length done + 1 - M)%nat with (S (List.length done - M)) by lia.
    rewrite skipn_app.
    replace (S (List.length done - M) - List.length done)%nat with 0%nat by lia.
    reflexivity.
Qed.

Lemma keys_length {V : Type} (d : PyDict.t V) :
  PyDict.len d = Z.of_nat (List.length (PyDict.keys d)).
Proof. unfold PyDict.len, PyDict.keys. now rewrite length_map. Qed.

Lemma put_all_fifo N items :
  forall b done,
    RAMBuffer_wf b -> max_size b = N ->
    times_sorted (_access_times b) ->
    PyDict.keys (_buffer b) = lastn (effective_capacity N) done ->
    NoDup (done ++ map item_key items) ->
    StronglySorted Z.le (map snd items) ->
    (forall x it, In x (_access_times b) -> In it items -> snd x <= snd it) ->
    exists b',
      put_all items b = Ok b' /\ RAMBuffer_wf b' /\ max_size b' = N /\
      times_sorted (_access_times b') /\
      PyDict.keys (_buffer b') =
      lastn (effective_capacity N) (done ++ map item_key items).
Proof.
  induction items as [|[[key ctx] now] rest IH];
    intros b done Hwf Hmax Hs Hk Hnd Hst Hle; simpl.
  - exists b. rewrite app_nil_r. auto.
  - simpl in Hnd, Hst.
    assert (~ In key (PyDict.keys (_buffer b))) as Hnew.
    { rewrite Hk. intros Hin. apply lastn_incl in Hin.
      apply NoDup_remove_2 in Hnd. apply Hnd. apply in_app_iff. auto. }
    destruct (put_fifo key ctx now b Hwf Hs) as
      (b1 & Hput & Hwf1 & Hmax1 & Hs1 & Hle1 & Hk1); auto.
    { intros x Hx. apply (Hle x (key, ctx, now)); simpl; auto. }
    rewrite Hput.
    rewrite keys_length, Hk, Hmax, fifo_keys_lastn in Hk1.
    inversion Hst as [|? ? Hst' Hall]; subst.
    destruct (IH b1 (done ++ [key])) as (b' & Hp & Hwf' & Hmax' & Hs' & Hk');
      auto; try congruence.
    + rewrite <- app_assoc. exact Hnd.
    + intros x it Hx Hit. specialize (Hle1 x Hx).
      rewrite Forall_forall in Hall.
      specialize (Hall (snd it) (in_map snd _ _ Hit)). simpl in Hle1. lia.
    + exists b'. rewrite <- app_assoc in Hk'. auto.
Qed.

(** *** A later read protects a key from earlier-read ones *)

Lemma put_keeps_order J K tj tk key ctx now b :
  RAMBuffer_wf b -> key <> J -> key <> K -> tj < tk ->
  (cached J b = false \/
   (last_access J b = Some tj /\ last_access K b = Some tk)) ->
  exists b',
    RAMBuffer_put key ctx now b = Ok b' /\ RAMBuffer_wf b' /\
    (cached J b' = false \/
     (last_access J b' = Some tj /\ last_access K b' = Some tk)).
Proof.
  intros Hwf HJ HK Hlt Hinv.
  destruct (RAMBuffer_put_wf key ctx now b Hwf) as (b' & Hput & Hwf' & _).
  exists b'. split; [exact Hput|]. split; [exact Hwf'|].
  assert (forall b1,
            (cached J b1 = false \/
             (last_access J b1 = Some tj /\ last_access K b1 = Some tk)) ->
            let b2 := mkRAMBuffer (max_size b1)
                        (PyDict.set key ctx (_buffer b1))
                        (PyDict.set key now (_access_times b1)) in
            cached J b2 = false \/
            (last_access J b2 = Some tj /\ last_access K b2 = Some tk)) as Hset.
  { intros b1 [Hc|[H1 H2]]; simpl.
    - left. unfold cached in *. apply PyDictFacts.mem_false_iff.
      apply PyDictFacts.mem_false_iff in Hc. simpl.
      rewrite PyDictFacts.in_keys_set. intros [?|?]; [congruence|tauto].
    - right. unfold last_access in *. simpl.
      rewrite !PyDictFacts.get_set_other by auto. auto. }
  unfold RAMBuffer_put in Hput.
  destruct (PyDict.len (_buffer b) >=? max_size b).
  - destruct (evict_lru_spec b Hwf) as
      [[_ He]|(k & buf1 & acc1 & Hl & Hd & Hd' & He & Hwf1)];
      rewrite He in Hput; inversion Hput; subst b'.
    + now apply Hset.
    + apply (Hset (mkRAMBuffer (max_size b) buf1 acc1)).
      destruct Hinv as [Hc|[H1 H2]].
      * left. unfold cached in *. simpl.
        apply PyDictFacts.mem_false_iff.
        apply PyDictFacts.mem_false_iff in Hc.
        intros Hin. apply Hc. eapply PyDictFacts.del_in_keys; eauto.
      * destruct (string_dec k J) as [->|Hne].
        -- left. unfold cached. simpl. apply PyDictFacts.mem_false_iff.
           destruct Hwf as [_ Hnd].
           eapply PyDictFacts.del_NoDup; eauto.
        -- right. unfold last_access in *. simpl.
           assert (k <> K) as HneK.
           { intros ->.
             assert (_access_times b <> []) as Hacc.
             { intros E. rewrite E in H1. discriminate. }
             destruct (lru_key_oldest b Hwf Hacc) as (k0 & t0 & Hl0 & Ht0 & _ & Hmin & _).
             rewrite Hl in Hl0. inversion Hl0; subst k0.
             unfold last_access in Ht0. rewrite H2 in Ht0.
             inversion Ht0; subst t0.
             specialize (Hmin J tj H1). lia. }
           rewrite !(PyDictFacts.del_get_other _ _ _ _ Hd') by auto. auto.
  - inversion Hput; subst b'. now apply Hset.
Qed.

Lemma put_all_keeps_order J K tj tk items :
  forall b,
    RAMBuffer_wf b -> tj < tk ->
    (forall it, In it items -> item_key it <> J /\ item_key it <> K) ->
    (cached J b = false \/
     (last_access J b = Some tj /\ last_access K b = Some tk)) ->
    exists b',
      put_all items b = Ok b' /\ RAMBuffer_wf b' /\
      (cached J b' = false \/
       (last_access J b' = Some tj /\ last_access K b' = Some tk)).
Proof.
  induction items as [|[[key ctx] now] rest IH]; intros b Hwf Hlt Hk Hinv; simpl.
  - eauto.
  - destruct (Hk (key, ctx, now)) as [H1 H2]; [simpl; auto|].
    unfold item_key in H1, H2. simpl in H1, H2.
    destruct (put_keeps_order J K tj tk key ctx now b) as (b1 & -> & Hwf1 & Hinv1);
      auto.
    apply IH; auto. intros it Hit. apply Hk. simpl; auto.
Qed.

(** C3, as stated, fails on the code in three ways.
    - A buffer built with [max_size = 0] is at capacity when empty: its
      first [put] finds nothing to evict and inserts, so the buffer holds
      one entry, more than its configured maximum, and inserting
      [N + 1 = 1] key evicts nothing.
    - The last-access times are readings of the wall clock. When it
      returns the same reading for successive calls, the read of a key
      does not protect it: in a buffer of capacity 2, after [put a],
      [put b], [get a], all at reading 5, [put c] evicts [a], ahead of
      [b], which was never read again.
    - When the wall clock is set back between two calls, the entry
      evicted is not the first inserted: in a buffer of capacity 2, after
      [put a] at reading 5 and [put b] at reading 3, [put c] evicts
      [b]. *)
Lemma RAMBuffer_lru_counterexample :
  (exists b,
      RAMBuffer_put "a" (sample_context "a") 1 (RAMBuffer_init 0) = Ok b /\
      PyDict.keys (_buffer b) = ["a"] /\
      PyDict.len (_buffer b) = 1 /\ max_size b = 0) /\
  (exists b2 b3 b4,
      put_all [("a", sample_context "a", 5); ("b", sample_context "b", 5)]
              (RAMBuffer_init 2) = Ok b2 /\
      RAMBuffer_get "a" 5 b2 = (Some (sample_context "a"), b3) /\
      RAMBuffer_put "c" (sample_context "c") 5 b3 = Ok b4 /\
      cached "a" b4 = false /\ cached "b" b4 = true) /\
  (exists b3,
      put_all [("a", sample_context "a", 5); ("b", sample_context "b", 3);
               ("c", sample_context "c", 6)] (RAMBuffer_init 2) = Ok b3 /\
      PyDict.keys (_buffer b3) = ["a"; "c"]).
Proof.
  split; [|split].
  - eexists. split; [reflexivity|]. repeat split.
  - do 3 eexists. split; [reflexivity|]. split; [reflexivity|].
    split; [reflexivity|]. split; reflexivity.
  - eexists. split; reflexivity.
Qed.

(** C3, amended: for a buffer of capacity [N >= 1],
    - the buffer never grows past [N];
    - a [put] at capacity removes exactly one entry, the one [lru_key]
      names, whose last-access time is minimal (the earliest in insertion
      order among those that tie), and then inserts;
    - a [get] of a cached key returns its record and sets its last-access
      time to the clock reading of the call, changing nothing else;
    - inserting [N + 1] distinct keys into the empty buffer, at clock
      readings that do not decrease, evicts exactly the first one;
    - after a read of [K] at a reading strictly later than the last access
      of [J], no run of insertions of other keys evicts [K] while [J]
      stays. *)
Theorem RAMBuffer_lru_positive_capacity (N : Z) :
  1 <= N ->
  (forall b key ctx now b',
      RAMBuffer_wf b -> max_size b = N -> PyDict.len (_buffer b) <= N ->
      RAMBuffer_put key ctx now b = Ok b' ->
      PyDict.len (_buffer b') <= N) /\
  (forall b key ctx now,
      RAMBuffer_wf b -> max_size b = N -> PyDict.len (_buffer b) >= N ->
      exists k t buf' acc',
        lru_key b = Some k /\
        last_access k b = Some t /\
        (forall k' t', last_access k' b = Some t' -> t <= t') /\
        (exists before after,
            _access_times b = before ++ (k, t) :: after /\
            (forall x, In x before -> t < snd x) /\
            (forall x, In x after -> t <= snd x)) /\
        PyDict.del k (_buffer b) = Some buf' /\
        PyDict.del k (_access_times b) = Some acc' /\
        RAMBuffer_put key ctx now b =
        Ok (mkRAMBuffer N (PyDict.set key ctx buf') (PyDict.set key now acc'))) /\
  (forall b key ctx now,
      PyDict.get key (_buffer b) = Some ctx ->
      exists b',
        RAMBuffer_get key now b = (Some ctx, b') /\
        _buffer b' = _buffer b /\
        last_access key b' = Some now /\
        forall k, k <> key -> last_access k b' = last_access k b) /\
  (forall items,
      List.length items = S (Z.to_nat N) ->
      NoDup (map item_key items) ->
      StronglySorted Z.le (map snd items) ->
      exists b',
        put_all items (RAMBuffer_init N) = Ok b' /\
        PyDict.keys (_buffer b') = tl (map item_key items)) /\
  (forall b J K tj ctx now b1 items,
      RAMBuffer_wf b -> max_size b = N -> J <> K ->
      last_access J b = Some tj -> tj < now ->
      RAMBuffer_get K now b = (Some ctx, b1) ->
      (forall it, In it items -> item_key it <> J /\ item_key it <> K) ->
      exists b',
        put_all items b1 = Ok b' /\
        (cached K b' = false -> cached J b' = false)).
Proof.
  intros HN. repeat apply conj.
  - intros b key ctx now b' Hwf Hmax Hlen Hput.
    destruct (put_bounded key ctx now b b') as [H1 H2]; auto; lia.
  - intros b key ctx now Hwf Hmax Hlen. rewrite <- Hmax.
    apply put_at_capacity; auto; [lia|].
    intros E. rewrite E in Hlen. unfold PyDict.len in Hlen. simpl in Hlen. lia.
  - intros b key ctx now Hget.
    pose proof (RAMBuffer_get_spec key now b) as H. rewrite Hget in H.
    destruct H as (b' & H1 & _ & H2 & H3 & H4). eauto.
  - intros items Hlen Hnd Hst.
    destruct (put_all_fifo N items (RAMBuffer_init N) []) as
      (b' & Hp & _ & _ & _ & Hk); auto.
    + apply RAMBuffer_init_wf.
    + constructor.
    + intros x it [].
    + exists b'. split; auto. rewrite Hk. simpl. unfold lastn.
      rewrite length_map, Hlen.
      unfold effective_capacity. rewrite Z.max_l by lia.
      replace (S (Z.to_nat N) - Z.to_nat N)%nat with 1%nat by lia.
      destruct (map item_key items); reflexivity.
  - intros b J K tj ctx now b1 items Hwf Hmax HJK HJ Hlt Hget Hitems.
    pose proof (RAMBuffer_get_spec K now b) as H.
    destruct (PyDict.get K (_buffer b)) as [c|] eqn:EK.
    2:{ rewrite H in Hget. discriminate. }
    destruct H as (b1' & H1 & _ & H2 & H3 & H4).
    rewrite H1 in Hget. inversion Hget; subst c b1'.
    pose proof (RAMBuffer_get_wf K now b Hwf) as Hwf1.
    rewrite H1 in Hwf1. simpl in Hwf1.
    destruct (put_all_keeps_order J K tj now items b1) as (b' & Hp & Hwf' & Hinv);
      auto.
    { right. split; auto. rewrite H4; auto. }
    exists b'. split; auto. intros HK.
    destruct Hinv as [Hc|[_ HK']]; auto.
    assert (cached K b' = true) as Ht.
    { apply cached_last_access; eauto. }
    congruence.
Qed.

Lemma RAMBuffer_lru_positive_capacity_witness :
  1 <= 2 /\
  (exists b',
      put_all [("a", sample_context "a", 1); ("b", sample_context "b", 2);
               ("c", sample_context "c", 3)] (RAMBuffer_init 2) = Ok b' /\
      PyDict.keys (_buffer b') = ["b"; "c"]).
Proof.
  split; [lia|].
  destruct (RAMBuffer_lru_positive_capacity 2 ltac:(lia)) as (_ & _ & _ & H & _).
  apply (H [("a", sample_context "a", 1); ("b", sample_context "b", 2);
            ("c", sample_context "c", 3)]).
  - reflexivity.
  - simpl. repeat constructor; simpl; intuition discriminate.
  - simpl. repeat constructor; lia.
Defined.

(** ** The engine *)

Section EngineFacts.
Context {W : Backend}.

(** [store_memory], step by step. *)
Lemma store_memory_eq content tags s :
  let ctx := new_context content tags s in
  let s1 := tick_clock (tick_uuid s) in
  store_memory content tags s =
  match RAMBuffer_put (MemoryContext.id ctx) ctx (clock (clock_calls s1))
                      (ram_buffer s1) with
  | Raise e => (Raise e, s1)
  | Ok b =>
      let s2 := set_ram_buffer b (tick_clock s1) in
      match store_context ctx (persistent_store s2) with
      | Raise e => (Raise e, s2)
      | Ok ps =>
          (Ok (MemoryContext.id ctx),
           set_vector_store (add_context ctx (vector_store s2))
                            (set_persistent_store ps s2))
      end
  end.
Proof.
  simpl. unfold store_memory, bind, uuid4, time_time, ram_buffer_put,
           persistent_store_store, vector_store_add, ret, new_context.
  simpl.
  destruct (RAMBuffer_put _ _ _ _) as [b|e]; [|reflexivity].
  simpl. destruct (store_context _ _) as [ps|e]; reflexivity.
Qed.

(** [retrieve_memory], case by case. *)
Lemma retrieve_memory_eq context_id s :
  retrieve_memory context_id s =
  match PyDict.get context_id (_buffer (ram_buffer s)) with
  | Some ctx =>
      (Ok (Some ctx),
       set_ram_buffer
         (snd (RAMBuffer_get context_id (clock (clock_calls s)) (ram_buffer s)))
         (tick_clock s))
  | None =>
      match get_context context_id (persistent_store s) with
      | Raise e => (Raise e, s)
      | Ok None => (Ok None, s)
      | Ok (Some ctx) =>
          match RAMBuffer_put context_id ctx (clock (clock_calls s))
                              (ram_buffer s) with
          | Raise e => (Raise e, s)
          | Ok b => (Ok (Some ctx), set_ram_buffer b (tick_clock s))
          end
      end
  end.
Proof.
  unfold retrieve_memory, bind, ram_buffer_get, persistent_store_get,
    ram_buffer_put, ret, RAMBuffer_get, PyDict.mem.
  destruct (PyDict.get context_id (_buffer (ram_buffer s))) as [ctx|] eqn:E.
  - reflexivity.
  - destruct (get_context context_id (persistent_store s)) as [[ctx|]|e];
      try reflexivity.
    destruct (RAMBuffer_put _ _ _ _); reflexivity.
Qed.

End EngineFacts.

(** A [put] takes at most one key out of the cache. *)
Lemma put_evicts_at_most_one key ctx now b b' :
  RAMBuffer_wf b -> RAMBuffer_put key ctx now b = Ok b' ->
  forall k1 k2,
    cached k1 b = true -> cached k2 b = true ->
    cached k1 b' = false -> cached k2 b' = false -> k1 = k2.
Proof.
  intros Hwf Hput k1 k2 H1 H2 H1' H2'.
  unfold cached in *.
  apply PyDictFacts.mem_true_iff in H1, H2.
  apply PyDictFacts.mem_false_iff in H1', H2'.
  unfold RAMBuffer_put in Hput.
  destruct (PyDict.len (_buffer b) >=? max_size b).
  - destruct (evict_lru_spec b Hwf) as
      [[_ He]|(k & buf1 & acc1 & _ & Hd & _ & He & _)];
      rewrite He in Hput; inversion Hput; subst b'; simpl in *.
    + exfalso. apply H1'. apply PyDictFacts.in_keys_set. auto.
    + assert (forall x, In x (PyDict.keys (_buffer b)) ->
                ~ In x (PyDict.keys (PyDict.set key ctx buf1)) -> x = k) as Hx.
      { intros x Hin Hout. destruct (string_dec x k) as [|Hne]; auto.
        exfalso. apply Hout. apply PyDictFacts.in_keys_set. right.
        eapply PyDictFacts.del_keys_other; eauto. }
      rewrite (Hx k1), (Hx k2); auto.
  - inversion Hput; subst b'; simpl in *.
    exfalso. apply H1'. apply PyDictFacts.in_keys_set. auto.
Qed.

(** After a [put] the cache holds the record put and records it held. *)
Lemma put_preserves_records key ctx now b b' :
  RAMBuffer_wf b -> RAMBuffer_put key ctx now b = Ok b' ->
  forall k c,
    PyDict.get k (_buffer b') = Some c ->
    (k = key /\ c = ctx) \/ PyDict.get k (_buffer b) = Some c.
Proof.
  intros Hwf Hput k c Hget.
  assert (forall buf1,
             PyDict.get k (PyDict.set key ctx buf1) = Some c ->
             (k = key /\ c = ctx) \/ PyDict.get k buf1 = Some c) as Hset.
  { intros buf1 H. destruct (string_dec key k) as [->|Hne].
    - rewrite PyDictFacts.get_set_same in H. inversion H. auto.
    - rewrite PyDictFacts.get_set_other in H by auto. auto. }
  unfold RAMBuffer_put in Hput.
  destruct (PyDict.len (_buffer b) >=? max_size b).
  - destruct (evict_lru_spec b Hwf) as
      [[_ He]|(k0 & buf1 & acc1 & _ & Hd & _ & He & _)];
      rewrite He in Hput; inversion Hput; subst b'; simpl in *.
    + now apply Hset.
    + destruct (Hset _ Hget) as [?|H]; auto. right.
      destruct (string_dec k k0) as [->|Hne].
      * destruct Hwf as [_ Hnd].
        rewrite (PyDictFacts.del_get_same _ _ _ Hd Hnd) in H. discriminate.
      * now rewrite (PyDictFacts.del_get_other _ _ _ _ Hd Hne) in H.
  - inversion Hput; subst b'; simpl in *. now apply Hset.
Qed.

Section RetrieveFrame.
Context {W : Backend}.

(** C10: [retrieve_memory] changes the cache only. On every state with
    a well-formed cache it leaves the durable log and the index as they
    were; every record the cache holds afterwards is a record it held
    before or the record just read from the durable log under the
    requested id; at most one key leaves the cache. On a cache hit only
    the last-access time of the requested id changes, to the clock
    reading of the call; on a durable hit the new cache is the old one
    after [put] of the record read; on a miss in both tiers, and when
    decoding raises, the state is unchanged. *)
Theorem retrieve_memory_frame (context_id : string) (s : MemoryEngine) :
  RAMBuffer_wf (ram_buffer s) ->
  let r := fst (retrieve_memory context_id s) in
  let s' := snd (retrieve_memory context_id s) in
  persistent_store s' = persistent_store s /\
  vector_store s' = vector_store s /\
  (forall k c,
      PyDict.get k (_buffer (ram_buffer s')) = Some c ->
      PyDict.get k (_buffer (ram_buffer s)) = Some c \/
      (k = context_id /\
       get_context context_id (persistent_store s) = Ok (Some c))) /\
  (forall k1 k2,
      in_cache k1 s = true -> in_cache k2 s = true ->
      in_cache k1 s' = false -> in_cache k2 s' = false -> k1 = k2) /\
  match PyDict.get context_id (_buffer (ram_buffer s)) with
  | Some ctx =>
      r = Ok (Some ctx) /\
      _buffer (ram_buffer s') = _buffer (ram_buffer s) /\
      max_size (ram_buffer s') = max_size (ram_buffer s) /\
      last_access context_id (ram_buffer s') = Some (clock (clock_calls s)) /\
      forall k, k <> context_id ->
                last_access k (ram_buffer s') = last_access k (ram_buffer s)
  | None =>
      match get_context context_id (persistent_store s) with
      | Ok (Some ctx) =>
          r = Ok (Some ctx) /\
          RAMBuffer_put context_id ctx (clock (clock_calls s)) (ram_buffer s)
          = Ok (ram_buffer s')
      | Ok None => r = Ok None /\ s' = s
      | Raise e => r = Raise e /\ s' = s
      end
  end.
Proof.
  intros Hwf. simpl. rewrite retrieve_memory_eq.
  pose proof (RAMBuffer_get_spec context_id (clock (clock_calls s))
                                 (ram_buffer s)) as Hget.
  destruct (PyDict.get context_id (_buffer (ram_buffer s))) as [ctx|] eqn:E.
  - destruct Hget as (b' & Hg & Hm & Hb & Ha & Ho). rewrite Hg. simpl.
    repeat split; auto.
    + intros k c H. left. now rewrite Hb in H.
    + intros k1 k2 H1 _ H1' _. unfold in_cache, cached in *. simpl in H1'.
      rewrite Hb in H1'. congruence.
  - destruct (get_context context_id (persistent_store s)) as [[ctx|]|e] eqn:G;
      simpl.
    + destruct (RAMBuffer_put_wf context_id ctx (clock (clock_calls s))
                  (ram_buffer s) Hwf) as (b' & Hput & _).
      rewrite Hput. simpl. repeat split; auto.
      * intros k c H.
        destruct (put_preserves_records _ _ _ _ _ Hwf Hput k c H) as [[-> ->]|?];
          auto.
      * intros k1 k2. unfold in_cache. simpl.
        eapply put_evicts_at_most_one; eauto.
    + repeat split; auto. intros k1 k2 H1 _ H1' _. congruence.
    + repeat split; auto. intros k1 k2 H1 _ H1' _. congruence.
Qed.

(** C1, amended: when the durable log rejects the write of
    [store_memory], the error of the log reaches the caller and no id
    is returned; the durable log and the index are as before; the cache
    write, made first, stays: the cache holds the new record under the
    id that was generated and [retrieve_memory] of that id returns
    it. *)
Theorem store_memory_durable_failure (content : json) (tags : list string)
    (msg : string) (s : MemoryEngine) :
  RAMBuffer_wf (ram_buffer s) ->
  env_fault (persistent_store s) = Some msg ->
  exists s' s'',
    store_memory content tags s = (Raise (LmdbError msg), s') /\
    persistent_store s' = persistent_store s /\
    vector_store s' = vector_store s /\
    in_cache (uuid4_draw (uuid_calls s)) s' = true /\
    retrieve_memory (uuid4_draw (uuid_calls s)) s'
    = (Ok (Some (new_context content tags s)), s'').
Proof.
  intros Hwf Hfault. rewrite store_memory_eq. simpl.
  destruct (RAMBuffer_put_wf (uuid4_draw (uuid_calls s))
              (new_context content tags s) (clock (S (clock_calls s)))
              (ram_buffer s) Hwf) as (b' & Hput & Hwf' & _ & Hget & _).
  rewrite Hput. unfold store_context. simpl. rewrite Hfault.
  eexists. eexists. split; [reflexivity|]. simpl.
  repeat split.
  - unfold in_cache, cached, PyDict.mem. simpl. now rewrite Hget.
  - rewrite retrieve_memory_eq. simpl. rewrite Hget. reflexivity.
Qed.

End RetrieveFrame.

Lemma plain_after_two_wf : RAMBuffer_wf (ram_buffer plain_after_two).
Proof.
  split; [reflexivity|]. vm_compute. repeat constructor. simpl. tauto.
Qed.

Lemma retrieve_memory_frame_witness :
  RAMBuffer_wf (ram_buffer plain_after_two) /\
  persistent_store (snd (retrieve_memory "uuid-i" plain_after_two))
  = persistent_store plain_after_two /\
  vector_store (snd (retrieve_memory "uuid-i" plain_after_two))
  = vector_store plain_after_two.
Proof.
  split; [exact plain_after_two_wf|].
  destruct (retrieve_memory_frame "uuid-i" plain_after_two plain_after_two_wf)
    as (H1 & H2 & _).
  exact (conj H1 H2).
Defined.

(** C1, as stated, fails on the code: [store_memory] writes the cache
    before the durable log and has no handler around the durable write.
    On an engine whose log rejects writes the call raises the error of the
    log, and a [retrieve_memory] of the id it generated then returns the
    record, from the cache. *)
Lemma store_memory_durable_failure_counterexample :
  exists s' ctx,
    @store_memory plain_backend (JDict [("note", JStr "x")]) ["t"]
                  (plain_engine 10 (Some "MDB_MAP_FULL"))
    = (Raise (LmdbError "MDB_MAP_FULL"), s') /\
    fst (retrieve_memory "uuid-i" s') = Ok (Some ctx) /\
    MemoryContext.id ctx = "uuid-i" /\
    MemoryContext.content ctx = JDict [("note", JStr "x")].
Proof.
  do 2 eexists. split; [vm_compute; reflexivity|].
  split; [vm_compute; reflexivity|]. split; reflexivity.
Qed.

Lemma store_memory_durable_failure_witness :
  RAMBuffer_wf (ram_buffer (plain_engine 10 (Some "MDB_MAP_FULL"))) /\
  env_fault (persistent_store (plain_engine 10 (Some "MDB_MAP_FULL")))
  = Some "MDB_MAP_FULL" /\
  exists s' s'',
    @store_memory plain_backend (JDict [("note", JStr "x")]) ["t"]
                  (plain_engine 10 (Some "MDB_MAP_FULL"))
    = (Raise (LmdbError "MDB_MAP_FULL"), s') /\
    retrieve_memory "uuid-i" s'
    = (Ok (Some (new_context (JDict [("note", JStr "x")]) ["t"]
                             (plain_engine 10 (Some "MDB_MAP_FULL")))), s'').
Proof.
  assert (RAMBuffer_wf (ram_buffer (plain_engine 10 (Some "MDB_MAP_FULL"))))
    as Hwf by apply RAMBuffer_init_wf.
  split; [exact Hwf|]. split; [reflexivity|].
  destruct (store_memory_durable_failure (JDict [("note", JStr "x")]) ["t"]
              "MDB_MAP_FULL" (plain_engine 10 (Some "MDB_MAP_FULL"))
              Hwf eq_refl) as (s' & s'' & H1 & _ & _ & _ & H2).
  exists s', s''. exact (conj H1 H2).
Defined.

(** ** Read after write *)

Section ReadAfterWrite.
Context {W : Backend}.
Hypothesis Hcodec : codec_round_trip.
Hypothesis Hfresh : uuid4_fresh.

Lemma get_context_stored ctx s :
  durably_stored ctx s ->
  get_context (MemoryContext.id ctx) (persistent_store s) = Ok (Some ctx).
Proof.
  unfold durably_stored, get_context. intros ->.
  destruct (Hcodec ctx) as [Hd Ht]. now rewrite Ht, Hd.
Qed.

Lemma put_other_keeps_entry ctx key c now b b' :
  RAMBuffer_wf b -> key <> MemoryContext.id ctx ->
  (PyDict.get (MemoryContext.id ctx) (_buffer b) = None \/
   PyDict.get (MemoryContext.id ctx) (_buffer b) = Some ctx) ->
  RAMBuffer_put key c now b = Ok b' ->
  PyDict.get (MemoryContext.id ctx) (_buffer b') = None \/
  PyDict.get (MemoryContext.id ctx) (_buffer b') = Some ctx.
Proof.
  intros Hwf Hne Hc Hput.
  destruct (PyDict.get (MemoryContext.id ctx) (_buffer b')) as [c0|] eqn:E;
    auto.
  destruct (put_preserves_records _ _ _ _ _ Hwf Hput _ _ E) as [[H _]|H].
  - congruence.
  - destruct Hc as [Hc|Hc]; rewrite Hc in H; [discriminate|].
    right. congruence.
Qed.

Lemma keeps_store ctx content tags s :
  keeps ctx s -> keeps ctx (snd (store_memory content tags s)).
Proof.
  intros (Hwf & Hd & Hc & n & Hn & Hid).
  rewrite store_memory_eq. simpl.
  assert (uuid4_draw (uuid_calls s) <> MemoryContext.id ctx) as Hne.
  { rewrite Hid. intros H. apply Hfresh in H. lia. }
  destruct (RAMBuffer_put_wf (uuid4_draw (uuid_calls s))
              (new_context content tags s) (clock (S (clock_calls s)))
              (ram_buffer s) Hwf) as (b' & Hput & Hwf' & _).
  rewrite Hput.
  pose proof (put_other_keeps_entry ctx _ _ _ _ _ Hwf Hne Hc Hput) as Hc'.
  unfold store_context. simpl.
  destruct (env_fault (persistent_store s)); simpl;
    (split; [exact Hwf'|]; split; [|split; [exact Hc'|]]).
  - exact Hd.
  - exists n. simpl. split; [lia|exact Hid].
  - unfold durably_stored. simpl.
    rewrite PyDictFacts.get_set_other by exact Hne. exact Hd.
  - exists n. simpl. split; [lia|exact Hid].
Qed.

Lemma keeps_retrieve ctx context_id s :
  keeps ctx s -> keeps ctx (snd (retrieve_memory context_id s)).
Proof.
  intros (Hwf & Hd & Hc & n & Hn & Hid).
  rewrite retrieve_memory_eq.
  destruct (PyDict.get context_id (_buffer (ram_buffer s))) as [c|] eqn:E.
  - simpl. split; [apply RAMBuffer_get_wf; exact Hwf|].
    split; [exact Hd|]. split.
    + unfold RAMBuffer_get. rewrite E. simpl. exact Hc.
    + exists n. simpl. auto.
  - destruct (get_context context_id (persistent_store s)) as [[c|]|e] eqn:G;
      simpl;
      try exact (conj Hwf (conj Hd (conj Hc (ex_intro _ n (conj Hn Hid))))).
    destruct (RAMBuffer_put_wf context_id c (clock (clock_calls s))
                (ram_buffer s) Hwf) as (b' & Hput & Hwf' & _ & Hg & _).
    rewrite Hput. simpl. split; [exact Hwf'|]. split; [exact Hd|]. split.
    + destruct (string_dec context_id (MemoryContext.id ctx)) as [->|Hne].
      * rewrite (get_context_stored ctx s Hd) in G. inversion G; subst c.
        right. simpl. exact Hg.
      * simpl. exact (put_other_keeps_entry ctx _ _ _ _ _ Hwf Hne Hc Hput).
    + exists n. simpl. auto.
Qed.

Lemma keeps_search_loop ctx similar_ids tags limit :
  forall memories s,
    keeps ctx s ->
    keeps ctx (snd (search_loop similar_ids tags limit memories s)).
Proof.
  induction similar_ids as [|[cid sc] rest IH]; intros memories s Hk.
  - exact Hk.
  - cbn [search_loop]. unfold bind.
    pose proof (keeps_retrieve ctx cid s Hk) as Hk1.
    destruct (retrieve_memory cid s) as [[[c|]|e] s1]; simpl in Hk1.
    + destruct (tag_mismatch tags c); [apply IH; exact Hk1|].
      destruct (Z.of_nat (List.length (memories ++ [c])) >=? limit).
      * exact Hk1.
      * apply IH. exact Hk1.
    + apply IH. exact Hk1.
    + exact Hk1.
Qed.

Lemma keeps_run_events ctx evs :
  forall s, keeps ctx s -> keeps ctx (run_events evs s).
Proof.
  unfold run_events.
  induction evs as [|ev evs IH]; intros s Hk; simpl; [exact Hk|].
  apply IH. destruct ev as [c t|cid|q t l|f]; simpl.
  - now apply keeps_store.
  - now apply keeps_retrieve.
  - unfold search_memories. now apply keeps_search_loop.
  - destruct Hk as (Hwf & Hd & Hc & Hn).
    exact (conj Hwf (conj Hd (conj Hc Hn))).
Qed.

Lemma keeps_store_many ctx items :
  forall s, keeps ctx s -> keeps ctx (snd (store_many items s)).
Proof.
  induction items as [|[c t] rest IH]; intros s Hk; [exact Hk|].
  cbn [store_many]. unfold bind.
  pose proof (keeps_store ctx c t s Hk) as Hk1.
  destruct (store_memory c t s) as [[i|e] s1]; simpl in Hk1; [|exact Hk1].
  specialize (IH s1 Hk1).
  destruct (store_many rest s1) as [[ids|e] s2]; exact IH.
Qed.

(** What is kept is read back, and is in the cache afterwards. *)
Lemma keeps_read ctx s :
  keeps ctx s ->
  exists s',
    retrieve_memory (MemoryContext.id ctx) s = (Ok (Some ctx), s') /\
    in_cache (MemoryContext.id ctx) s' = true.
Proof.
  intros (Hwf & Hd & Hc & _). rewrite retrieve_memory_eq.
  destruct Hc as [Hc|Hc]; rewrite Hc.
  - rewrite (get_context_stored ctx s Hd).
    destruct (RAMBuffer_put_wf (MemoryContext.id ctx) ctx
                (clock (clock_calls s)) (ram_buffer s) Hwf)
      as (b' & Hput & _ & _ & Hg & _).
    rewrite Hput. eexists. split; [reflexivity|].
    unfold in_cache, cached, PyDict.mem. simpl. now rewrite Hg.
  - eexists. split; [reflexivity|].
    unfold in_cache, cached, PyDict.mem, RAMBuffer_get. rewrite Hc. simpl.
    now rewrite Hc.
Qed.

(** A store that returns leaves its record kept. *)
Lemma store_keeps content tags s context_id s' :
  RAMBuffer_wf (ram_buffer s) ->
  store_memory content tags s = (Ok context_id, s') ->
  context_id = uuid4_draw (uuid_calls s) /\
  keeps (new_context content tags s) s'.
Proof.
  intros Hwf. rewrite store_memory_eq. simpl.
  destruct (RAMBuffer_put_wf (uuid4_draw (uuid_calls s))
              (new_context content tags s) (clock (S (clock_calls s)))
              (ram_buffer s) Hwf) as (b' & Hput & Hwf' & _ & Hg & _).
  rewrite Hput. unfold store_context. simpl.
  destruct (env_fault (persistent_store s)); [discriminate|].
  intros H. inversion H; subst. split; [reflexivity|].
  split; [exact Hwf'|]. split; [|split].
  - unfold durably_stored. simpl. apply PyDictFacts.get_set_same.
  - right. exact Hg.
  - exists (uuid_calls s). simpl. split; [lia|reflexivity].
Qed.

End ReadAfterWrite.

Lemma lastn_cons {A : Type} (n : nat) (a : A) (l : list A) :
  (n <= List.length l)%nat -> lastn n (a :: l) = lastn n l.
Proof.
  intros H. unfold lastn. simpl List.length.
  replace (S (List.length l) - n)%nat with (S (List.length l - n)) by lia.
  reflexivity.
Qed.

Section Eviction.
Context {W : Backend}.
Hypothesis Hfresh : uuid4_fresh.
Hypothesis Hclock : clock_monotone.

Lemma fifo_inv_store N content tags done s :
  fifo_inv N done s ->
  exists s',
    store_memory content tags s = (Ok (uuid4_draw (uuid_calls s)), s') /\
    uuid_calls s' = S (uuid_calls s) /\
    fifo_inv N (done ++ [uuid4_draw (uuid_calls s)]) s'.
Proof.
  intros (Hwf & Hmax & Hfault & Hs & Hle & Hk & Hdone).
  rewrite store_memory_eq. simpl.
  destruct (put_fifo (uuid4_draw (uuid_calls s)) (new_context content tags s)
              (clock (S (clock_calls s))) (ram_buffer s) Hwf Hs)
    as (b' & Hput & Hwf' & Hmax' & Hs' & Hle' & Hk').
  { intros x Hx. specialize (Hle x Hx).
    pose proof (Hclock (clock_calls s)). lia. }
  { rewrite Hk. intros Hin. apply lastn_incl in Hin.
    destruct (Hdone _ Hin) as (n & Hn & He). apply Hfresh in He. lia. }
  rewrite Hput. unfold store_context. simpl. rewrite Hfault.
  eexists. split; [reflexivity|]. split; [reflexivity|].
  split; [exact Hwf'|]. split; [simpl; congruence|].
  split; [reflexivity|]. split; [exact Hs'|]. split; [|split].
  - simpl. intros x Hx. specialize (Hle' x Hx).
    pose proof (Hclock (S (clock_calls s))). lia.
  - simpl. rewrite Hk', keys_length, Hk, Hmax. apply fifo_keys_lastn.
  - simpl. intros k Hin. apply in_app_iff in Hin.
    destruct Hin as [Hin|[<-|[]]].
    + destruct (Hdone _ Hin) as (n & Hn & He). exists n. split; [lia|auto].
    + exists (uuid_calls s). split; [lia|reflexivity].
Qed.

Lemma fifo_inv_store_many N items :
  forall done s,
    fifo_inv N done s ->
    exists s',
      store_many items s
      = (Ok (map uuid4_draw (seq (uuid_calls s) (List.length items))), s') /\
      fifo_inv N
        (done ++ map uuid4_draw (seq (uuid_calls s) (List.length items))) s'.
Proof.
  induction items as [|[c t] rest IH]; intros done s Hinv.
  - exists s. simpl. rewrite app_nil_r. auto.
  - destruct (fifo_inv_store N c t done s Hinv) as (s1 & Hst & Hu & Hinv1).
    destruct (IH _ _ Hinv1) as (s2 & Hsm & Hinv2).
    exists s2. cbn [store_many]. unfold bind. rewrite Hst, Hsm. rewrite Hu in *.
    split; [reflexivity|]. simpl. rewrite <- app_assoc in Hinv2. exact Hinv2.
Qed.

Lemma not_in_later_draws u n len :
  (u < n)%nat -> ~ In (uuid4_draw u) (map uuid4_draw (seq n len)).
Proof.
  intros Hlt Hin. apply in_map_iff in Hin. destruct Hin as (m & He & Hm).
  apply Hfresh in He. apply in_seq in Hm. lia.
Qed.

End Eviction.

Section ReadAfterWriteTheorem.
Context {W : Backend}.

(** C4: read after write. Given the round trip of the JSON codec and
    identifiers that do not collide:
    - whenever [store_memory content tags] returns an id, then after
      any further run of the engine (stores, retrieves, searches, the
      durable log starting or ceasing to reject writes)
      [retrieve_memory] of that id returns a record with that id, that
      content and those tags, whether the record is still cached or has
      been evicted, and the record is in the cache afterwards;
    - with a clock that does not go back, after [N + 5] stores into a
      freshly started engine whose cache has capacity [N], the first
      record is no longer in the cache, and [retrieve_memory] of its id
      still returns its content, read from the durable log, and puts it
      back into the cache. *)
Theorem read_after_write :
  codec_round_trip -> uuid4_fresh ->
  (forall s content tags context_id s1 evs,
      RAMBuffer_wf (ram_buffer s) ->
      store_memory content tags s = (Ok context_id, s1) ->
      exists ctx s2,
        retrieve_memory context_id (run_events evs s1) = (Ok (Some ctx), s2) /\
        MemoryContext.id ctx = context_id /\
        MemoryContext.content ctx = content /\
        MemoryContext.tags ctx = tags /\
        in_cache context_id s2 = true) /\
  (clock_monotone ->
   forall (N : nat) content tags rest workspace disk index head status
          uuids clocks,
     env_fault disk = None ->
     List.length rest = (N + 4)%nat ->
     exists context_id ids s1 ctx s2,
       store_many ((content, tags) :: rest)
         (MemoryEngine_init workspace (Z.of_nat N) disk index head status
                            uuids clocks)
       = (Ok (context_id :: ids), s1) /\
       in_cache context_id s1 = false /\
       retrieve_memory context_id s1 = (Ok (Some ctx), s2) /\
       MemoryContext.content ctx = content /\
       in_cache context_id s2 = true).
Proof.
  intros Hcodec Hfresh. split.
  - intros s content tags context_id s1 evs Hwf Hst.
    destruct (store_keeps content tags s context_id s1 Hwf Hst) as [-> Hk].
    apply (keeps_run_events Hcodec Hfresh _ evs) in Hk.
    destruct (keeps_read Hcodec _ _ Hk) as (s2 & Hr & Hc).
    exists (new_context content tags s), s2. simpl in *. auto.
  - intros Hclock N content tags rest workspace disk index head status
           uuids clocks Hfault Hlen.
    set (s0 := MemoryEngine_init workspace (Z.of_nat N) disk index head
                                 status uuids clocks).
    assert (fifo_inv (Z.of_nat N) [] s0) as Hinv.
    { split; [apply RAMBuffer_init_wf|]. split; [reflexivity|].
      split; [exact Hfault|]. split; [constructor|].
      split; [intros x []|]. split; [reflexivity|]. intros k []. }
    destruct (fifo_inv_store_many Hfresh Hclock (Z.of_nat N)
                ((content, tags) :: rest) [] s0 Hinv) as (s1 & Hsm & Hinv1).
    simpl List.length in Hsm, Hinv1. simpl seq in Hsm, Hinv1.
    simpl map in Hsm, Hinv1. simpl app in Hinv1.
    set (cid := uuid4_draw (uuid_calls s0)) in *.
    set (ids := map uuid4_draw (seq (S (uuid_calls s0)) (List.length rest))) in *.
    assert (in_cache cid s1 = false) as Hout.
    { destruct Hinv1 as (_ & _ & _ & _ & _ & Hk & _).
      unfold in_cache, cached. apply PyDictFacts.mem_false_iff. rewrite Hk.
      rewrite lastn_cons.
      - intros Hin. apply lastn_incl in Hin.
        revert Hin. apply not_in_later_draws; auto.
      - unfold ids. rewrite length_map, length_seq, Hlen.
        unfold effective_capacity. lia. }
    pose proof Hsm as Hsm'. cbn [store_many] in Hsm'. unfold bind in Hsm'.
    destruct (store_memory content tags s0) as [[i|e] sA] eqn:Hst;
      [|discriminate].
    destruct (store_keeps content tags s0 i sA
                (RAMBuffer_init_wf (Z.of_nat N)) Hst) as [-> Hk].
    pose proof (keeps_store_many Hfresh _ rest sA Hk) as Hk1.
    destruct (store_many rest sA) as [[ids'|e] sB]; [|discriminate].
    unfold ret in Hsm'. inversion Hsm'; subst sB. simpl in Hk1.
    destruct (keeps_read Hcodec _ _ Hk1) as (s2 & Hr & Hc).
    exists cid, ids, s1, (new_context content tags s0), s2.
    simpl in Hr, Hc. fold cid in Hr, Hc. auto.
Qed.

End ReadAfterWriteTheorem.

Lemma plain_codec : @codec_round_trip plain_backend.
Proof. intros ctx. split; reflexivity. Qed.

Lemma strokes_inj m n : strokes m = strokes n -> m = n.
Proof.
  revert n. induction m as [|m IH]; intros [|n]; simpl; intros H;
    try discriminate; auto.
  inversion H. f_equal. auto.
Qed.

Lemma plain_uuid4_fresh : @uuid4_fresh plain_backend.
Proof.
  intros m n H. simpl in H. inversion H. now apply strokes_inj.
Qed.

Lemma plain_clock_monotone : @clock_monotone plain_backend.
Proof. intros n. simpl. lia. Qed.

Lemma read_after_write_witness :
  @codec_round_trip plain_backend /\ @uuid4_fresh plain_backend /\
  @clock_monotone plain_backend /\
  exists context_id ids s1 ctx s2,
    @store_many plain_backend
      [(JDict [("n", JNum 1); ("nested", JDict [("l", JList [JNum 1; JNull])])],
        ["a"]);
       (JDict [("n", JNum 2)], []); (JDict [("n", JNum 3)], []);
       (JDict [("n", JNum 4)], []); (JDict [("n", JNum 5)], []);
       (JDict [("n", JNum 6)], [])]
      (plain_engine 1 None)
    = (Ok (context_id :: ids), s1) /\
    in_cache context_id s1 = false /\
    retrieve_memory context_id s1 = (Ok (Some ctx), s2) /\
    MemoryContext.content ctx
    = JDict [("n", JNum 1); ("nested", JDict [("l", JList [JNum 1; JNull])])] /\
    in_cache context_id s2 = true.
Proof.
  split; [exact plain_codec|]. split; [exact plain_uuid4_fresh|].
  split; [exact plain_clock_monotone|].
  destruct (@read_after_write plain_backend plain_codec plain_uuid4_fresh)
    as [_ H].
  apply (H plain_clock_monotone 1%nat); reflexivity.
Defined.

(** ** Search *)

Section SearchFacts.
Context {W : Backend}.

Lemma tag_mismatch_spec tags ctx :
  tag_mismatch tags ctx = negb (tags_empty tags || shares_tag tags ctx).
Proof. destruct tags; reflexivity. Qed.

Lemma shares_tag_common tags ctx :
  shares_tag tags ctx = true ->
  exists tag, In tag tags /\ In tag (MemoryContext.tags ctx).
Proof.
  unfold shares_tag. intros H. apply existsb_exists in H.
  destruct H as (tag & Hin & H). apply existsb_exists in H.
  destruct H as (tag' & Hin' & He). apply String.eqb_eq in He. subst.
  eauto.
Qed.

(** Below the limit the loop of the code and the collection of the
    design document agree, on the result and on the state. *)
Lemma search_loop_collect similar_ids tags limit :
  forall memories s,
    Z.of_nat (List.length memories) < limit ->
    search_loop similar_ids tags limit memories s
    = search_collect similar_ids tags limit memories s.
Proof.
  induction similar_ids as [|[cid sc] rest IH]; intros memories s Hlt.
  - reflexivity.
  - cbn [search_loop search_collect].
    destruct (Z.geb_spec (Z.of_nat (List.length memories)) limit); [lia|].
    unfold bind. destruct (retrieve_memory cid s) as [[[ctx|]|e] s1]; auto.
    rewrite tag_mismatch_spec.
    destruct (tags_empty tags || shares_tag tags ctx); simpl; auto.
    destruct (Z.geb_spec (Z.of_nat (List.length (memories ++ [ctx]))) limit)
      as [Hge|Hlt'].
    + destruct rest as [|[cid' sc'] rest']; cbn [search_collect]; auto.
      destruct (Z.geb_spec (Z.of_nat (List.length (memories ++ [ctx]))) limit);
        [reflexivity|lia].
    + apply IH. exact Hlt'.
Qed.

Lemma search_loop_sound similar_ids tags limit (P : MemoryContext.t -> Prop) :
  (forall ctx, tag_mismatch tags ctx = false -> P ctx) ->
  forall memories s result s',
    Forall P memories ->
    search_loop similar_ids tags limit memories s = (Ok result, s') ->
    Forall P result.
Proof.
  intros HP.
  induction similar_ids as [|[cid sc] rest IH]; intros memories s result s' Hm.
  - simpl. unfold ret. intros H. inversion H; subst. exact Hm.
  - cbn [search_loop]. unfold bind.
    destruct (retrieve_memory cid s) as [[[ctx|]|e] s1]; try discriminate.
    + destruct (tag_mismatch tags ctx) eqn:Et; [apply IH; exact Hm|].
      assert (Forall P (memories ++ [ctx])) as Hm'.
      { apply Forall_app. split; auto. }
      destruct (Z.of_nat (List.length (memories ++ [ctx])) >=? limit).
      * unfold ret. intros H. inversion H; subst. exact Hm'.
      * apply IH. exact Hm'.
    + apply IH. exact Hm.
Qed.

Lemma search_loop_length_any similar_ids tags limit :
  forall memories s result s',
    Z.of_nat (List.length memories) < Z.max limit 1 ->
    search_loop similar_ids tags limit memories s = (Ok result, s') ->
    Z.of_nat (List.length result) <= Z.max limit 1.
Proof.
  induction similar_ids as [|[cid sc] rest IH]; intros memories s result s' Hm.
  - simpl. unfold ret. intros H. inversion H; subst. lia.
  - cbn [search_loop]. unfold bind.
    destruct (retrieve_memory cid s) as [[[ctx|]|e] s1]; try discriminate.
    + destruct (tag_mismatch tags ctx); [apply IH; exact Hm|].
      destruct (Z.geb_spec (Z.of_nat (List.length (memories ++ [ctx]))) limit)
        as [Hge|Hlt].
      * unfold ret. intros H. inversion H; subst.
        rewrite length_app in *. simpl in *. lia.
      * apply IH. lia.
    + apply IH. exact Hm.
Qed.

(** A limit below one acts as a limit of one: the loop tests it after
    it appended a record. *)
Lemma search_loop_floor similar_ids tags limit :
  limit <= 1 ->
  forall memories s,
    search_loop similar_ids tags limit memories s
    = search_loop similar_ids tags 1 memories s.
Proof.
  intros Hle.
  induction similar_ids as [|[cid sc] rest IH]; intros memories s.
  - reflexivity.
  - cbn [search_loop]. unfold bind.
    destruct (retrieve_memory cid s) as [[[ctx|]|e] s1]; auto.
    destruct (tag_mismatch tags ctx); auto.
    assert (1 <= Z.of_nat (List.length (memories ++ [ctx]))) as Hlen.
    { rewrite length_app. simpl. lia. }
    destruct (Z.geb_spec (Z.of_nat (List.length (memories ++ [ctx]))) limit);
      [|lia].
    destruct (Z.geb_spec (Z.of_nat (List.length (memories ++ [ctx]))) 1);
      [reflexivity|lia].
Qed.

(** C5: [search_memories] asks the index for [2 * limit] candidates
    and is the procedure of the design document on them, run with
    [max(limit, 1)] in the place of [limit]: retrieve each candidate in
    the order of the index, keep it unless tags were requested and it
    shares none, stop once [max(limit, 1)] records are collected or the
    candidates are exhausted. The code tests the limit after it
    appended a record, so for a limit of at least one this is the
    procedure of the design document itself, and for a limit of zero or
    less the first record kept is returned alone. Whatever the limit,
    when tags were requested every record returned shares a tag with
    them, and at most [max(limit, 1)] records are returned. *)
Theorem search_memories_spec :
  (forall query tags limit s,
      search_memories query tags limit s
      = search_collect (search_similar (vector_store s) query (2 * limit))
                       tags (Z.max limit 1) [] s) /\
  (forall query tags limit s,
      1 <= limit ->
      search_memories query tags limit s = search_spec query tags limit s) /\
  (forall query tags limit s memories s',
      search_memories query tags limit s = (Ok memories, s') ->
      (tags <> [] ->
       forall ctx, In ctx memories ->
                   exists tag, In tag tags /\ In tag (MemoryContext.tags ctx)) /\
      Z.of_nat (List.length memories) <= Z.max limit 1).
Proof.
  assert (forall query tags limit s,
             search_memories query tags limit s
             = search_collect
                 (search_similar (vector_store s) query (2 * limit))
                 tags (Z.max limit 1) [] s) as Hmax.
  { intros query tags limit s. unfold search_memories. rewrite Z.mul_comm.
    destruct (Z.le_gt_cases 1 limit) as [Hpos|Hneg].
    - rewrite Z.max_l by lia. apply search_loop_collect. simpl. lia.
    - rewrite Z.max_r by lia. rewrite search_loop_floor by lia.
      apply search_loop_collect. simpl. lia. }
  repeat apply conj.
  - exact Hmax.
  - intros query tags limit s Hpos. rewrite Hmax. unfold search_spec.
    now rewrite Z.max_l by lia.
  - intros query tags limit s memories s' H. unfold search_memories in H.
    split.
    + intros Hne.
      apply (search_loop_sound _ tags limit
               (fun ctx => exists tag,
                    In tag tags /\ In tag (MemoryContext.tags ctx))) in H.
      * rewrite Forall_forall in H. exact H.
      * intros ctx Hm. rewrite tag_mismatch_spec in Hm.
        apply negb_false_iff in Hm. apply orb_true_iff in Hm.
        destruct Hm as [Hm|Hm]; [destruct tags; [congruence|discriminate]|].
        now apply shares_tag_common.
      * constructor.
    + eapply search_loop_length_any; [|exact H]. simpl. lia.
Qed.

End SearchFacts.

Lemma search_memories_spec_witness :
  exists memories s',
    @search_memories plain_backend "n" ["x"] 2 plain_three_tagged
    = (Ok memories, s') /\
    List.length memories = 1%nat /\
    (forall ctx, In ctx memories ->
                 exists tag, In tag ["x"] /\ In tag (MemoryContext.tags ctx)) /\
    Z.of_nat (List.length memories) <= Z.max 2 1 /\
    @search_memories plain_backend "n" ["x"] 2 plain_three_tagged
    = @search_spec plain_backend "n" ["x"] 2 plain_three_tagged.
Proof.
  destruct (@search_memories_spec plain_backend) as (_ & Hspec & Hprop).
  destruct (@search_memories plain_backend "n" ["x"] 2 plain_three_tagged)
    as [[memories|e] s'] eqn:E; [|vm_compute in E; discriminate].
  exists memories, s'. split; [reflexivity|].
  destruct (Hprop "n" ["x"] 2 plain_three_tagged memories s' E) as [Ht Hl].
  split; [vm_compute in E; inversion E; reflexivity|].
  split; [apply Ht; discriminate|].
  split; [exact Hl|].
  rewrite <- E. apply Hspec. lia.
Defined.

(** With a limit of [-1] the procedure of the design document stops at
    once, no record being fewer than [-1] records, and returns nothing.
    The code, run without ChromaDB over three stored records, asks the
    index for [-2] candidates, is answered the first of its three
    matches, and returns that record. *)
Lemma search_memories_limit_counterexample :
  let s :=
    @run_events (fallback_backend plain_backend plain_text)
      [EvStore (JDict [("n", JNum 1)]) [];
       EvStore (JDict [("n", JNum 2)]) [];
       EvStore (JDict [("n", JNum 3)]) []]
      (fallback_engine 5) in
  fst (@search_spec (fallback_backend plain_backend plain_text) "" [] (-1) s)
  = Ok [] /\
  exists ctx,
    fst (@search_memories (fallback_backend plain_backend plain_text)
           "" [] (-1) s)
    = Ok [ctx] /\
    MemoryContext.content ctx = JDict [("n", JNum 1)] /\
    ~ Z.of_nat (List.length [ctx]) <= -1.
Proof.
  intros s. split; [vm_compute; reflexivity|].
  eexists. split; [vm_compute; reflexivity|].
  split; [reflexivity|]. simpl. lia.
Qed.

(** ** The task queue *)

Module heapqFacts.
Import heapq.

Lemma setitem_length i x : forall h, List.length (setitem i x h) = List.length h.
Proof.
  induction i as [|i IH]; intros [|y r]; simpl; auto.
Qed.

Lemma setitem_same i x :
  forall h, nth_error h i = Some x -> setitem i x h = h.
Proof.
  induction i as [|i IH]; intros [|y r]; simpl; intros H; try discriminate.
  - now inversion H.
  - now rewrite IH.
Qed.

Lemma firstn_setitem i x :
  forall j h, (j <= i)%nat -> firstn j (setitem i x h) = firstn j h.
Proof.
  induction i as [|i IH]; intros j [|y r] Hle; simpl; auto.
  - assert (j = 0%nat) as -> by lia. reflexivity.
  - destruct j as [|j]; simpl; auto. rewrite IH by lia. reflexivity.
Qed.

Lemma nth_error_firstn_in (h : heap) i j e :
  (i < j)%nat -> nth_error h i = Some e -> In e (firstn j h).
Proof.
  revert i j. induction h as [|y r IH]; intros [|i] [|j] Hlt H;
    simpl in *; try discriminate; try lia.
  - inversion H. auto.
  - right. apply (IH i j); [lia|exact H].
Qed.

Lemma setitem_head_perm (a b : entry) :
  forall j r,
    (j < List.length r)%nat ->
    Permutation (b :: setitem j a r) (a :: setitem j b r).
Proof.
  induction j as [|j IH]; intros [|z r] Hlt; simpl in *; try lia.
  - apply perm_swap.
  - eapply perm_trans; [apply perm_swap|].
    eapply perm_trans; [apply perm_skip; apply IH; lia|].
    apply perm_swap.
Qed.

(** Writing [b] over an entry and that entry further on exchanges the
    two. *)
Lemma setitem_swap_perm (a b : entry) :
  forall i j h,
    (i < j)%nat -> (j < List.length h)%nat -> nth_error h i = Some a ->
    Permutation (setitem i b (setitem j a h)) (setitem j b h).
Proof.
  induction i as [|i IH]; intros [|j] [|y r] Hij Hj Ha; simpl in *;
    try lia; try discriminate.
  - inversion Ha; subst. apply setitem_head_perm. lia.
  - apply perm_skip. apply IH; auto; lia.
Qed.

Lemma parentpos_lt pos : (0 < pos)%nat -> (Nat.shiftr (pos - 1) 1 < pos)%nat.
Proof.
  intros Hpos. change (Nat.shiftr (pos - 1) 1) with (Nat.div2 (pos - 1)).
  pose proof (Nat.div2_decr (pos - 1) (pos - 1)). lia.
Qed.

(** The loops get enough fuel: more of it changes nothing. *)
Lemma _siftdown_loop_fuel newitem startpos :
  forall fuel fuel' pos h,
    (pos <= fuel)%nat -> (pos <= fuel')%nat ->
    _siftdown_loop fuel newitem startpos pos h
    = _siftdown_loop fuel' newitem startpos pos h.
Proof.
  induction fuel as [|fuel IH]; intros [|fuel'] pos h H1 H2; auto.
  - assert (pos = 0%nat) as -> by lia. reflexivity.
  - assert (pos = 0%nat) as -> by lia. reflexivity.
  - cbn [_siftdown_loop].
    destruct (Nat.ltb_spec startpos pos) as [Hlt|Hge]; auto.
    assert (Nat.shiftr (pos - 1) 1 < pos)%nat by (apply parentpos_lt; lia).
    destruct (getitem _ h) as [parent|e]; auto.
    destruct (entry_lt newitem parent) as [[|]|]; auto.
    apply IH; lia.
Qed.

Lemma smaller_child_range endpos childpos h c :
  smaller_child endpos childpos h = Ok c ->
  c = childpos \/ (c = (childpos + 1)%nat /\ (c < endpos)%nat).
Proof.
  unfold smaller_child.
  destruct (Nat.ltb_spec (childpos + 1) endpos) as [Hlt|Hge].
  - destruct (getitem childpos h) as [x|e]; [|discriminate].
    destruct (getitem (childpos + 1) h) as [y|e]; [|discriminate].
    destruct (entry_lt x y) as [[|]|]; intros H; inversion H; auto.
  - intros H. inversion H. auto.
Qed.

Lemma _siftup_loop_fuel endpos :
  forall fuel fuel' pos h,
    (endpos - pos <= fuel)%nat -> (endpos - pos <= fuel')%nat ->
    _siftup_loop fuel endpos pos h = _siftup_loop fuel' endpos pos h.
Proof.
  induction fuel as [|fuel IH]; intros [|fuel'] pos h H1 H2; auto.
  - cbn [_siftup_loop].
    destruct (Nat.ltb_spec (2 * pos + 1) endpos); [lia|reflexivity].
  - cbn [_siftup_loop].
    destruct (Nat.ltb_spec (2 * pos + 1) endpos); [lia|reflexivity].
  - cbn [_siftup_loop].
    destruct (Nat.ltb_spec (2 * pos + 1) endpos) as [Hlt|Hge]; auto.
    destruct (smaller_child endpos (2 * pos + 1) h) as [c|e] eqn:Ec; auto.
    apply smaller_child_range in Ec.
    destruct (getitem c h) as [child|e]; auto.
    apply IH; lia.
Qed.

Lemma entry_lt_untied (a b : entry) :
  fst b <> fst a -> exists c, entry_lt a b = Some c.
Proof.
  destruct a as [[pa ca] ta], b as [[pb cb] tb]. simpl. intros Hne.
  unfold entry_lt.
  destruct (Z.eqb_spec pa pb) as [->|]; simpl; eauto.
  destruct (Z.eqb_spec ca cb) as [->|]; simpl; eauto.
  congruence.
Qed.

(** Sifting an entry that ties with none of those above it raises
    nothing and only moves entries. *)
Lemma _siftdown_loop_untied newitem startpos :
  forall fuel pos h,
    (pos < List.length h)%nat ->
    untied newitem (firstn pos h) ->
    exists h',
      _siftdown_loop fuel newitem startpos pos h = (Ok tt, h') /\
      Permutation h' (setitem pos newitem h).
Proof.
  induction fuel as [|fuel IH]; intros pos h Hpos Hun.
  - eexists. split; [reflexivity|apply Permutation_refl].
  - cbn [_siftdown_loop].
    destruct (Nat.ltb_spec startpos pos) as [Hlt|Hge];
      [|eexists; split; [reflexivity|apply Permutation_refl]].
    assert (Nat.shiftr (pos - 1) 1 < pos)%nat as Hpar
        by (apply parentpos_lt; lia).
    set (parentpos := Nat.shiftr (pos - 1) 1) in *.
    unfold getitem.
    destruct (nth_error h parentpos) as [parent|] eqn:Ep.
    2:{ apply nth_error_None in Ep. lia. }
    assert (fst parent <> fst newitem) as Hne.
    { unfold untied in Hun. rewrite Forall_forall in Hun. apply Hun.
      eapply nth_error_firstn_in; eauto. }
    destruct (entry_lt_untied newitem parent Hne) as [[|] ->].
    + destruct (IH parentpos (setitem pos parent h)) as (h' & Hrun & Hperm).
      * rewrite setitem_length. lia.
      * rewrite firstn_setitem by lia.
        unfold untied in *. rewrite Forall_forall in *. intros e He.
        apply Hun. rewrite <- (firstn_skipn parentpos (firstn pos h)).
        apply in_or_app. left. rewrite firstn_firstn.
        now rewrite Nat.min_l by lia.
      * exists h'. split; [exact Hrun|].
        eapply perm_trans; [exact Hperm|].
        apply setitem_swap_perm; auto.
    + eexists. split; [reflexivity|apply Permutation_refl].
Qed.

(** [heappush] of an entry that ties with none of the heap returns,
    and the heap then holds the entry besides those it held. *)
Lemma heappush_untied item h :
  untied item h ->
  exists h',
    heappush item h = (Ok tt, h') /\ Permutation h' (item :: h).
Proof.
  intros Hun. unfold heappush, _siftdown, getitem.
  rewrite length_app. simpl.
  replace (List.length h + 1 - 1)%nat with (List.length h) by lia.
  assert (nth_error (h ++ [item]) (List.length h) = Some item) as Hn.
  { rewrite nth_error_app2 by lia. now rewrite Nat.sub_diag. }
  rewrite Hn.
  destruct (_siftdown_loop_untied item 0 (List.length h) (List.length h)
              (h ++ [item])) as (h' & Hrun & Hperm).
  - rewrite length_app. simpl. lia.
  - rewrite firstn_app, firstn_all, Nat.sub_diag. simpl.
    now rewrite app_nil_r.
  - exists h'. split; [exact Hrun|].
    rewrite (setitem_same _ _ _ Hn) in Hperm.
    eapply perm_trans; [exact Hperm|].
    apply Permutation_sym, Permutation_cons_append.
Qed.

End heapqFacts.

Lemma add_task_frame task q :
  max_concurrent (snd (add_task task q)) = max_concurrent q /\
  _running (snd (add_task task q)) = _running q /\
  _results (snd (add_task task q)) = _results q.
Proof.
  unfold add_task. destruct (heapq.heappush _ (_queue q)). simpl. auto.
Qed.

(** C6: the queue loses its task of highest priority where two other
    tasks share a priority and a creation time. Tasks [a] of priority
    5 and [b], [c] of priority 1, the three created at the same clock
    reading, are enqueued in this order, each [add_task] returning.
    [get_next_task] then does not return [a]: it raises the
    [TypeError] of comparing two [Task] objects, [heappop] having taken
    [a] off the heap, moved [c] to the root and compared it with [b].
    The queue is left holding [b] and [c], and [a] is returned by no
    later call. *)
Theorem get_next_task_tie_raises :
  let a := sample_task "a" 5 0 in
  let b := sample_task "b" 1 0 in
  let c := sample_task "c" 1 0 in
  exists q1 q2 q3 q4 q5 q6,
    add_task a (TaskQueue_init default_max_concurrent) = (Ok tt, q1) /\
    add_task b q1 = (Ok tt, q2) /\
    add_task c q2 = (Ok tt, q3) /\
    queued q3 = [a; b; c] /\
    get_next_task q3 = (Raise TypeError_Task, q4) /\
    queued q4 = [b; c] /\
    get_next_task q4 = (Ok (Some b), q5) /\
    get_next_task q5 = (Ok (Some c), q6) /\
    get_next_task q6 = (Ok None, q6).
Proof.
  intros a b c. do 6 eexists.
  repeat (split; [vm_compute; reflexivity|]). vm_compute; reflexivity.
Qed.

(** ** The order of the queue *)

Module heapOrder.
Import heapq heapqFacts.

Lemma nth_error_setitem_eq i x :
  forall h, (i < List.length h)%nat -> nth_error (setitem i x h) i = Some x.
Proof.
  induction i as [|i IH]; intros [|y r] H; simpl in *; try lia; auto.
  apply IH; lia.
Qed.

Lemma nth_error_setitem_neq i x :
  forall j h, i <> j -> nth_error (setitem i x h) j = nth_error h j.
Proof.
  induction i as [|i IH]; intros [|j] [|y r] H; simpl; auto; lia.
Qed.

Lemma setitem_setitem i x y :
  forall h, setitem i x (setitem i y h) = setitem i x h.
Proof.
  induction i as [|i IH]; intros [|z r]; simpl; auto. now rewrite IH.
Qed.

(** The mirror of [setitem_swap_perm]: the entry moved is the later
    one. *)
Lemma setitem_swap_perm_r (a b : entry) :
  forall i j h,
    (i < j)%nat -> nth_error h j = Some a ->
    Permutation (setitem j b (setitem i a h)) (setitem i b h).
Proof.
  induction i as [|i IH]; intros [|j] [|y r] Hij Ha; simpl in *;
    try lia; try discriminate.
  - assert (j < List.length r)%nat as Hj.
    { apply (proj1 (nth_error_Some r j)). rewrite Ha. discriminate. }
    clear Hij. revert r Ha Hj.
    induction j as [|j IHj]; intros [|z r] Ha Hj; simpl in *;
      try lia; try discriminate.
    + inversion Ha; subst. apply perm_swap.
    + eapply perm_trans; [apply perm_swap|].
      eapply perm_trans; [apply perm_skip; apply IHj; auto; lia|].
      apply perm_swap.
  - apply perm_skip. apply IH; auto; lia.
Qed.

Lemma keys_distinct (h : heap) i j a b :
  NoDup (map fst h) -> i <> j ->
  nth_error h i = Some a -> nth_error h j = Some b -> fst a <> fst b.
Proof.
  intros Hnd Hij Ha Hb Heq.
  apply Hij. apply (proj1 (NoDup_nth_error (map fst h)) Hnd).
  - rewrite length_map. apply (proj1 (nth_error_Some h i)). rewrite Ha.
    discriminate.
  - unfold heap, entry in *. rewrite !nth_error_map, Ha, Hb. simpl.
    now rewrite Heq.
Qed.

Lemma key_lt_trans a b c : key_lt a b -> key_lt b c -> key_lt a c.
Proof. unfold key_lt. lia. Qed.

Lemma entry_lt_true (a b : entry) :
  entry_lt a b = Some true -> key_lt (fst a) (fst b).
Proof.
  destruct a as [[pa ca] ta], b as [[pb cb] tb]. unfold entry_lt, key_lt.
  simpl.
  destruct (Z.eqb_spec pa pb) as [->|]; simpl.
  - destruct (Z.eqb_spec ca cb) as [->|]; simpl.
    + destruct (Task.dataclass_eq ta tb); discriminate.
    + intros H. inversion H as [H']. apply Z.ltb_lt in H'. lia.
  - intros H. inversion H as [H']. apply Z.ltb_lt in H'. lia.
Qed.

Lemma entry_lt_false (a b : entry) :
  fst a <> fst b -> entry_lt a b = Some false -> key_lt (fst b) (fst a).
Proof.
  destruct a as [[pa ca] ta], b as [[pb cb] tb]. unfold entry_lt, key_lt.
  simpl. intros Hne.
  destruct (Z.eqb_spec pa pb) as [->|]; simpl.
  - destruct (Z.eqb_spec ca cb) as [->|]; simpl; [congruence|].
    intros H. inversion H as [H']. apply Z.ltb_ge in H'. lia.
  - intros H. inversion H as [H']. apply Z.ltb_ge in H'. lia.
Qed.

Lemma parentpos_lt' i : (0 < i)%nat -> (parentpos i < i)%nat.
Proof. apply parentpos_lt. Qed.

Lemma div2_cases n p :
  Nat.div2 n = p -> n = (2 * p)%nat \/ n = (2 * p + 1)%nat.
Proof.
  intros <-. destruct (Nat.Even_or_Odd n) as [[k ->]|[k ->]].
  - left. rewrite Nat.div2_double. lia.
  - right. replace (2 * k + 1)%nat with (S (2 * k)) by lia.
    rewrite Nat.div2_succ_double. lia.
Qed.

(** The children of [pos] are at [2 * pos + 1] and [2 * pos + 2]. *)
Lemma parentpos_children i pos :
  (0 < i)%nat -> parentpos i = pos ->
  i = (2 * pos + 1)%nat \/ i = (2 * pos + 2)%nat.
Proof.
  unfold parentpos. change (Nat.shiftr (i - 1) 1) with (Nat.div2 (i - 1)).
  intros Hi H. apply div2_cases in H. lia.
Qed.

Lemma parentpos_left pos : parentpos (2 * pos + 1) = pos.
Proof.
  unfold parentpos.
  change (Nat.shiftr (2 * pos + 1 - 1) 1) with (Nat.div2 (2 * pos + 1 - 1)).
  replace (2 * pos + 1 - 1)%nat with (2 * pos)%nat by lia.
  apply Nat.div2_double.
Qed.

Lemma parentpos_right pos : parentpos (2 * pos + 2) = pos.
Proof.
  unfold parentpos.
  change (Nat.shiftr (2 * pos + 2 - 1) 1) with (Nat.div2 (2 * pos + 2 - 1)).
  replace (2 * pos + 2 - 1)%nat with (S (2 * pos)) by lia.
  apply Nat.div2_succ_double.
Qed.


(** Filling the hole with an entry that fits gives a heap. *)
Lemma heap_ordered_fill newitem pos h :
  (pos < List.length h)%nat ->
  hole_ordered pos h -> above_children newitem pos h ->
  ((0 < pos)%nat ->
   forall p, nth_error h (parentpos pos) = Some p ->
             key_lt (fst p) (fst newitem)) ->
  heap_ordered (setitem pos newitem h).
Proof.
  intros Hlen [H1 H2] H3 H4 i c p Hi Hc Hp.
  destruct (Nat.eq_dec i pos) as [->|Hne].
  - rewrite nth_error_setitem_eq in Hc by auto. inversion Hc; subst c.
    pose proof (parentpos_lt' pos Hi).
    rewrite nth_error_setitem_neq in Hp by lia.
    eapply H4; eauto.
  - rewrite nth_error_setitem_neq in Hc by auto.
    destruct (Nat.eq_dec (parentpos i) pos) as [Hp'|Hp'].
    + rewrite Hp' in Hp. rewrite nth_error_setitem_eq in Hp by auto.
      inversion Hp; subst p. eapply H3; eauto.
    + rewrite nth_error_setitem_neq in Hp by auto. eapply H1; eauto.
Qed.

(** The hole moves up: its parent is written into it. *)
Lemma hole_ordered_up pos h parent :
  (0 < pos)%nat -> (pos < List.length h)%nat ->
  nth_error h (parentpos pos) = Some parent ->
  hole_ordered pos h ->
  hole_ordered (parentpos pos) (setitem pos parent h).
Proof.
  intros Hpos Hlen Ep [H1 H2].
  pose proof (parentpos_lt' pos Hpos) as Hpar.
  assert (forall q, (0 < parentpos pos)%nat ->
                    nth_error h (parentpos (parentpos pos)) = Some q ->
                    key_lt (fst q) (fst parent)) as Hup.
  { intros q Hpp Hq.
    pose proof (parentpos_lt' _ Hpp).
    apply (H1 (parentpos pos) parent q); auto; lia. }
  split.
  - intros i c p Hi Hne Hpne Hc Hp.
    destruct (Nat.eq_dec i pos) as [->|Hip]; [congruence|].
    rewrite nth_error_setitem_neq in Hc by auto.
    destruct (Nat.eq_dec (parentpos i) pos) as [Hpi|Hpi].
    + rewrite Hpi in Hp. rewrite nth_error_setitem_eq in Hp by auto.
      inversion Hp; subst p. apply (H2 i c parent); auto.
    + rewrite nth_error_setitem_neq in Hp by auto.
      apply (H1 i c p); auto.
  - intros i c p Hi Hpp Hpi Hc Hp.
    pose proof (parentpos_lt' _ Hpp).
    rewrite nth_error_setitem_neq in Hp by lia.
    destruct (Nat.eq_dec i pos) as [->|Hip].
    + rewrite nth_error_setitem_eq in Hc by auto. inversion Hc; subst c.
      now apply Hup.
    + rewrite nth_error_setitem_neq in Hc by auto.
      apply key_lt_trans with (fst parent); [now apply Hup|].
      apply (H1 i c parent); auto; try lia. now rewrite Hpi.
Qed.

Lemma above_children_up newitem pos h parent :
  (0 < pos)%nat -> (pos < List.length h)%nat ->
  nth_error h (parentpos pos) = Some parent ->
  hole_ordered pos h ->
  key_lt (fst newitem) (fst parent) ->
  above_children newitem (parentpos pos) (setitem pos parent h).
Proof.
  intros Hpos Hlen Ep [H1 H2] Hlt i c Hi Hpi Hc.
  pose proof (parentpos_lt' pos Hpos) as Hpar.
  destruct (Nat.eq_dec i pos) as [->|Hip].
  - rewrite nth_error_setitem_eq in Hc by auto. now inversion Hc; subst c.
  - rewrite nth_error_setitem_neq in Hc by auto.
    apply key_lt_trans with (fst parent); [exact Hlt|].
    apply (H1 i c parent); auto; try lia. now rewrite Hpi.
Qed.

(** [_siftdown] from a hole whose children are above the entry gives a
    heap holding the entry. *)
Lemma _siftdown_loop_ordered newitem :
  forall fuel pos h,
    (pos <= fuel)%nat -> (pos < List.length h)%nat ->
    NoDup (map fst (setitem pos newitem h)) ->
    hole_ordered pos h -> above_children newitem pos h ->
    exists h',
      _siftdown_loop fuel newitem 0 pos h = (Ok tt, h') /\
      Permutation h' (setitem pos newitem h) /\
      heap_ordered h'.
Proof.
  induction fuel as [|fuel IH]; intros pos h Hf Hlen Hnd Hho Hab.
  - eexists. split; [reflexivity|]. split; [apply Permutation_refl|].
    apply heap_ordered_fill; auto. lia.
  - cbn [_siftdown_loop].
    destruct (Nat.ltb_spec 0 pos) as [Hpos|Hz].
    2:{ eexists. split; [reflexivity|]. split; [apply Permutation_refl|].
        apply heap_ordered_fill; auto. lia. }
    pose proof (parentpos_lt' pos Hpos) as Hpar.
    change (Nat.shiftr (pos - 1) 1) with (parentpos pos).
    unfold getitem.
    destruct (nth_error h (parentpos pos)) as [parent|] eqn:Ep.
    2:{ apply nth_error_None in Ep. lia. }
    assert (fst newitem <> fst parent) as Hne.
    { apply (keys_distinct (setitem pos newitem h) pos (parentpos pos));
        auto; try lia.
      - now apply nth_error_setitem_eq.
      - rewrite nth_error_setitem_neq by lia. exact Ep. }
    destruct (entry_lt newitem parent) as [[|]|] eqn:El.
    + destruct (IH (parentpos pos) (setitem pos parent h))
        as (h' & Hrun & Hperm & Hord).
      * lia.
      * rewrite setitem_length. lia.
      * eapply Permutation_NoDup; [|exact Hnd].
        apply Permutation_map, Permutation_sym.
        apply setitem_swap_perm; auto.
      * now apply hole_ordered_up.
      * apply above_children_up; auto. now apply entry_lt_true.
      * exists h'. split; [exact Hrun|]. split; [|exact Hord].
        eapply perm_trans; [exact Hperm|].
        apply setitem_swap_perm; auto.
    + eexists. split; [reflexivity|]. split; [apply Permutation_refl|].
      apply heap_ordered_fill; auto.
      intros _ p Hp. rewrite Ep in Hp. inversion Hp; subst p.
      now apply entry_lt_false.
    + destruct (entry_lt_untied newitem parent) as [c Hc]; [congruence|].
      congruence.
Qed.

(** The hole moves down: its smaller child is written into it. *)
Lemma hole_ordered_down pos c' child h :
  (pos < List.length h)%nat ->
  (0 < c')%nat -> parentpos c' = pos -> nth_error h c' = Some child ->
  hole_ordered pos h ->
  (forall i x, (0 < i)%nat -> parentpos i = pos -> i <> c' ->
               nth_error h i = Some x -> key_lt (fst child) (fst x)) ->
  hole_ordered c' (setitem pos child h).
Proof.
  intros Hlen Hc' Hpc Ec [H1 H2] Hsm.
  pose proof (parentpos_lt' c' Hc') as Hlt. rewrite Hpc in Hlt.
  split.
  - intros i c p Hi Hne Hpne Hc Hp.
    destruct (Nat.eq_dec i pos) as [->|Hip].
    + rewrite nth_error_setitem_eq in Hc by auto. inversion Hc; subst c.
      pose proof (parentpos_lt' pos Hi).
      rewrite nth_error_setitem_neq in Hp by lia.
      apply (H2 c' child p); auto.
    + rewrite nth_error_setitem_neq in Hc by auto.
      destruct (Nat.eq_dec (parentpos i) pos) as [Hpi|Hpi].
      * rewrite Hpi in Hp. rewrite nth_error_setitem_eq in Hp by auto.
        inversion Hp; subst p. apply (Hsm i c); auto.
      * rewrite nth_error_setitem_neq in Hp by auto.
        apply (H1 i c p); auto.
  - intros i c p Hi _ Hpi Hc Hp.
    pose proof (parentpos_lt' i Hi) as Hil. rewrite Hpi in Hil.
    rewrite nth_error_setitem_neq in Hc by lia.
    rewrite Hpc in Hp. rewrite nth_error_setitem_eq in Hp by auto.
    inversion Hp; subst p.
    apply (H1 i c child); auto; try lia. now rewrite Hpi.
Qed.

(** What the loop of [_siftup] picks among the children of the hole. *)
Lemma smaller_child_spec newitem pos h :
  (2 * pos + 1 < List.length h)%nat ->
  NoDup (map fst (setitem pos newitem h)) ->
  exists c' child,
    smaller_child (List.length h) (2 * pos + 1) h = Ok c' /\
    nth_error h c' = Some child /\
    parentpos c' = pos /\ (0 < c')%nat /\ (c' < List.length h)%nat /\
    (forall i x, (0 < i)%nat -> parentpos i = pos -> i <> c' ->
                 nth_error h i = Some x -> key_lt (fst child) (fst x)).
Proof.
  intros Hlen Hnd. unfold smaller_child, getitem.
  destruct (nth_error h (2 * pos + 1)) as [lc|] eqn:El.
  2:{ apply nth_error_None in El. lia. }
  destruct (Nat.ltb_spec (2 * pos + 1 + 1) (List.length h)) as [Hr|Hr].
  - destruct (nth_error h (2 * pos + 1 + 1)) as [rc|] eqn:Er.
    2:{ apply nth_error_None in Er. lia. }
    assert (fst lc <> fst rc) as Hne.
    { apply (keys_distinct (setitem pos newitem h)
               (2 * pos + 1) (2 * pos + 1 + 1)); auto; try lia.
      - rewrite nth_error_setitem_neq by lia. exact El.
      - rewrite nth_error_setitem_neq by lia. exact Er. }
    destruct (entry_lt lc rc) as [[|]|] eqn:Elt.
    + exists (2 * pos + 1)%nat, lc.
      split; [reflexivity|]. split; [exact El|].
      split; [apply parentpos_left|]. split; [lia|]. split; [lia|].
      intros i x Hi Hpi Hic Hx.
      destruct (parentpos_children i pos Hi Hpi) as [-> | ->]; [congruence|].
      replace (2 * pos + 2)%nat with (2 * pos + 1 + 1)%nat in Hx by lia.
      rewrite Er in Hx. inversion Hx; subst x. now apply entry_lt_true.
    + exists (2 * pos + 1 + 1)%nat, rc.
      split; [reflexivity|]. split; [exact Er|].
      split.
      { replace (2 * pos + 1 + 1)%nat with (2 * pos + 2)%nat by lia.
        apply parentpos_right. }
      split; [lia|]. split; [lia|].
      intros i x Hi Hpi Hic Hx.
      destruct (parentpos_children i pos Hi Hpi) as [-> | ->]; [|lia].
      rewrite El in Hx. inversion Hx; subst x. now apply entry_lt_false.
    + destruct (entry_lt_untied lc rc) as [c Hc]; [congruence|]. congruence.
  - exists (2 * pos + 1)%nat, lc.
    split; [reflexivity|]. split; [exact El|].
    split; [apply parentpos_left|]. split; [lia|]. split; [lia|].
    intros i x Hi Hpi Hic Hx.
    destruct (parentpos_children i pos Hi Hpi) as [-> | ->]; [congruence|].
    assert (nth_error h (2 * pos + 2) = None) as Hn
        by (apply nth_error_None; lia).
    congruence.
Qed.

(** The loop of [_siftup] takes the hole down to a leaf. *)
Lemma _siftup_loop_ordered newitem :
  forall fuel pos h,
    (List.length h - pos <= fuel)%nat -> (pos < List.length h)%nat ->
    NoDup (map fst (setitem pos newitem h)) ->
    hole_ordered pos h ->
    exists pos' h',
      _siftup_loop fuel (List.length h) pos h = (Ok pos', h') /\
      List.length h' = List.length h /\
      (pos' < List.length h)%nat /\ (List.length h <= 2 * pos' + 1)%nat /\
      Permutation (setitem pos' newitem h') (setitem pos newitem h) /\
      hole_ordered pos' h'.
Proof.
  induction fuel as [|fuel IH]; intros pos h Hf Hlen Hnd Hho.
  - lia.
  - cbn [_siftup_loop].
    destruct (Nat.ltb_spec (2 * pos + 1) (List.length h)) as [Hc|Hc].
    2:{ exists pos, h. split; [reflexivity|]. split; [reflexivity|].
        split; [exact Hlen|]. split; [exact Hc|].
        split; [apply Permutation_refl|exact Hho]. }
    destruct (smaller_child_spec newitem pos h Hc Hnd)
      as (c' & child & Hsc & Ec & Hpc & Hc0 & Hcl & Hsm).
    rewrite Hsc. unfold getitem. rewrite Ec.
    pose proof (parentpos_lt' c' Hc0) as Hlt. rewrite Hpc in Hlt.
    assert (Permutation (setitem c' newitem (setitem pos child h))
                        (setitem pos newitem h)) as Hswap
        by (apply setitem_swap_perm_r; auto).
    destruct (IH c' (setitem pos child h))
      as (pos' & h' & Hrun & Hl' & Hp' & Hleaf & Hperm & Hho').
    + rewrite setitem_length. lia.
    + rewrite setitem_length. lia.
    + eapply Permutation_NoDup; [|exact Hnd].
      apply Permutation_map, Permutation_sym. exact Hswap.
    + now apply hole_ordered_down.
    + rewrite setitem_length in *.
      exists pos', h'. split; [exact Hrun|]. split; [exact Hl'|].
      split; [exact Hp'|]. split; [exact Hleaf|]. split; [|exact Hho'].
      eapply perm_trans; [exact Hperm|exact Hswap].
Qed.

Lemma hole_ordered_setitem pos x h :
  hole_ordered pos h -> hole_ordered pos (setitem pos x h).
Proof.
  intros [H1 H2]. split.
  - intros i c p Hi Hne Hpne Hc Hp.
    rewrite nth_error_setitem_neq in Hc, Hp by auto.
    apply (H1 i c p); auto.
  - intros i c p Hi Hpos Hpi Hc Hp.
    pose proof (parentpos_lt' i Hi). pose proof (parentpos_lt' pos Hpos).
    rewrite nth_error_setitem_neq in Hc, Hp by lia.
    apply (H2 i c p); auto.
Qed.

(** [_siftup] from the root, where an entry was written over the
    first, gives a heap holding the entry. *)
Lemma _siftup_ordered (newitem : entry) (r : heap) :
  NoDup (map fst (newitem :: r)) ->
  hole_ordered 0 (newitem :: r) ->
  exists h',
    _siftup 0 (newitem :: r) = (Ok tt, h') /\
    Permutation h' (newitem :: r) /\ heap_ordered h'.
Proof.
  intros Hnd Hho. unfold _siftup. cbn [getitem nth_error].
  destruct (_siftup_loop_ordered newitem (List.length (newitem :: r)) 0
              (newitem :: r))
    as (pos' & h1 & Hrun & Hl1 & Hp' & Hleaf & Hperm & Hho1);
    auto; try (simpl; lia).
  rewrite Hrun. unfold _siftdown, getitem.
  rewrite nth_error_setitem_eq by lia.
  destruct (_siftdown_loop_ordered newitem pos' pos' (setitem pos' newitem h1))
    as (h' & Hdown & Hperm' & Hord); auto.
  - rewrite setitem_length. lia.
  - rewrite setitem_setitem.
    eapply Permutation_NoDup; [|exact Hnd].
    apply Permutation_map, Permutation_sym. exact Hperm.
  - now apply hole_ordered_setitem.
  - intros i c Hi Hpi Hc.
    assert (nth_error (setitem pos' newitem h1) i = None) as Hn.
    { apply nth_error_None. rewrite setitem_length.
      destruct (parentpos_children i pos' Hi Hpi); lia. }
    congruence.
  - exists h'. split; [exact Hdown|]. split; [|exact Hord].
    rewrite setitem_setitem in Hperm'.
    eapply perm_trans; [exact Hperm'|exact Hperm].
Qed.


(** [heappush] of an entry that ties with none keeps the heap. *)
Lemma heappush_ordered (item : entry) (h : heap) :
  NoDup (map fst h) -> untied item h -> heap_ordered h ->
  exists h',
    heappush item h = (Ok tt, h') /\
    Permutation h' (item :: h) /\ heap_ordered h'.
Proof.
  intros Hnd Hun Hord. unfold heappush, _siftdown, getitem.
  rewrite length_app. simpl.
  replace (List.length h + 1 - 1)%nat with (List.length h) by lia.
  assert (nth_error (h ++ [item]) (List.length h) = Some item) as Hn.
  { rewrite nth_error_app2 by lia. now rewrite Nat.sub_diag. }
  rewrite Hn.
  assert (forall i c, i <> List.length h ->
                      nth_error (h ++ [item]) i = Some c ->
                      nth_error h i = Some c) as Hin.
  { intros i c Hne Hc.
    assert (i < List.length (h ++ [item]))%nat as Hi.
    { apply (proj1 (nth_error_Some (h ++ [item]) i)). rewrite Hc.
      discriminate. }
    rewrite length_app in Hi. simpl in Hi.
    rewrite nth_error_app1 in Hc by lia. exact Hc. }
  assert (forall i c, (0 < i)%nat -> parentpos i = List.length h ->
                      nth_error (h ++ [item]) i = Some c -> False) as Hleaf.
  { intros i c Hi Hpi Hc. pose proof (parentpos_lt' i Hi).
    assert (nth_error (h ++ [item]) i = None) as Hnone.
    { apply nth_error_None. rewrite length_app. simpl. lia. }
    congruence. }
  destruct (_siftdown_loop_ordered item (List.length h) (List.length h)
              (h ++ [item])) as (h' & Hrun & Hperm & Hord'); auto.
  - rewrite length_app. simpl. lia.
  - rewrite (setitem_same _ _ _ Hn). rewrite map_app. simpl.
    eapply Permutation_NoDup; [apply Permutation_cons_append|].
    constructor; [|exact Hnd].
    intros Hi. apply in_map_iff in Hi. destruct Hi as (e & He & Hi).
    unfold untied in Hun. rewrite Forall_forall in Hun.
    now apply (Hun e Hi).
  - split.
    + intros i c p Hi Hne Hpne Hc Hp.
      apply (Hord i c p); auto.
    + intros i c p Hi _ Hpi Hc _. exfalso. eapply Hleaf; eauto.
  - intros i c Hi Hpi Hc. exfalso. eapply Hleaf; eauto.
  - exists h'. split; [exact Hrun|]. split; [|exact Hord'].
    rewrite (setitem_same _ _ _ Hn) in Hperm.
    eapply perm_trans; [exact Hperm|].
    apply Permutation_sym, Permutation_cons_append.
Qed.

(** The first entry of a heap is below all the others. *)
Lemma heap_root_least (root : entry) (r : heap) :
  heap_ordered (root :: r) ->
  forall c, In c r -> key_lt (fst root) (fst c).
Proof.
  intros Hord.
  assert (forall i c, (0 < i)%nat -> nth_error (root :: r) i = Some c ->
                      key_lt (fst root) (fst c)) as H.
  { induction i as [i IH] using lt_wf_ind. intros c Hi Hc.
    pose proof (parentpos_lt' i Hi) as Hlt.
    destruct (nth_error (root :: r) (parentpos i)) as [p|] eqn:Ep.
    2:{ apply nth_error_None in Ep.
        assert (i < List.length (root :: r))%nat.
        { apply (proj1 (nth_error_Some (root :: r) i)). rewrite Hc.
          discriminate. }
        lia. }
    pose proof (Hord i c p Hi Hc Ep) as Hpc.
    destruct (Nat.eq_dec (parentpos i) 0) as [Hz|Hnz].
    - rewrite Hz in Ep. simpl in Ep. now inversion Ep; subst p.
    - apply key_lt_trans with (fst p); [|exact Hpc].
      apply (IH (parentpos i)); auto. lia. }
  intros c Hin. apply In_nth_error in Hin. destruct Hin as [n Hn].
  apply (H (S n) c); [lia|exact Hn].
Qed.

Lemma list_pop_spec (h : heap) :
  h <> [] ->
  exists lastelt h1, list_pop h = Some (lastelt, h1) /\ h = h1 ++ [lastelt].
Proof.
  induction h as [|x r IH]; [congruence|]. intros _.
  destruct r as [|y r'].
  - exists x, []. split; reflexivity.
  - destruct IH as (lastelt & h1 & Hp & Hh); [discriminate|].
    exists lastelt, (x :: h1). cbn [list_pop] in *. rewrite Hp.
    split; [reflexivity|]. simpl. now rewrite <- Hh.
Qed.

(** [heappop] of a heap whose entries do not tie returns its least
    entry and keeps the heap. *)
Lemma heappop_ordered (h : heap) :
  h <> [] -> NoDup (map fst h) -> heap_ordered h ->
  exists m h',
    heappop h = (Ok m, h') /\
    Permutation h (m :: h') /\ heap_ordered h' /\
    Forall (fun x : entry => key_lt (fst m) (fst x)) h'.
Proof.
  intros Hne Hnd Hord. unfold heappop.
  destruct (list_pop_spec h Hne) as (lastelt & h1 & Hpop & Hh).
  rewrite Hpop. destruct h1 as [|root r].
  - exists lastelt, []. subst h. split; [reflexivity|].
    split; [apply Permutation_refl|]. split; [|constructor].
    intros i c p _ Hc. destruct i; discriminate.
  - cbn [setitem].
    assert (Permutation h (root :: lastelt :: r)) as Hperm.
    { subst h. simpl. apply perm_skip.
      apply Permutation_sym, Permutation_cons_append. }
    assert (NoDup (map fst (lastelt :: r))) as Hnd'.
    { apply (Permutation_map fst) in Hperm.
      apply (Permutation_NoDup Hperm) in Hnd. now inversion Hnd. }
    assert (hole_ordered 0 (lastelt :: r)) as Hho.
    { split; [|intros; lia].
      intros i c p Hi _ Hpne Hc Hp. apply (Hord i c p Hi).
      - subst h. destruct i as [|i]; [lia|].
        change (nth_error ((root :: r) ++ [lastelt]) (S i) = Some c).
        rewrite nth_error_app1; [exact Hc|].
        apply (proj1 (nth_error_Some (root :: r) (S i))).
        simpl in *. rewrite Hc. discriminate.
      - subst h. destruct (parentpos i) as [|j]; [congruence|].
        change (nth_error ((root :: r) ++ [lastelt]) (S j) = Some p).
        rewrite nth_error_app1; [exact Hp|].
        apply (proj1 (nth_error_Some (root :: r) (S j))).
        simpl in *. rewrite Hp. discriminate. }
    destruct (_siftup_ordered lastelt r Hnd' Hho) as (h' & Hrun & Hp' & Hord').
    rewrite Hrun. exists root, h'. split; [reflexivity|].
    split.
    { eapply perm_trans; [exact Hperm|]. apply perm_skip.
      now apply Permutation_sym. }
    split; [exact Hord'|].
    rewrite Forall_forall. intros x Hx.
    apply (Permutation_in _ Hp') in Hx.
    assert (heap_ordered (root :: r ++ [lastelt])) as Hord0
        by (now subst h).
    apply (heap_root_least root (r ++ [lastelt]) Hord0).
    apply in_or_app. destruct Hx as [<-|Hx]; [right; simpl; auto|now left].
Qed.

End heapOrder.

Lemma queue_ok_init cap : queue_ok (TaskQueue_init cap).
Proof.
  split; [constructor|]. split; [constructor|].
  intros i c p _ Hc. destruct i; discriminate.
Qed.

(** [add_task] of a task that ties with no queued task. *)
Lemma add_task_ok task q :
  queue_ok q ->
  untied (- Task.priority task, Task.created_at task, task) (_queue q) ->
  exists q',
    add_task task q = (Ok tt, q') /\ queue_ok q' /\
    Permutation (queued q') (task :: queued q).
Proof.
  intros (Hwf & Hcmp & Hord) Hun. unfold add_task.
  destruct (heapOrder.heappush_ordered _ _ Hcmp Hun Hord)
    as (h' & Hrun & Hperm & Hord').
  rewrite Hrun. eexists. split; [reflexivity|].
  unfold queue_ok, queue_wf, queue_comparable, queued.
  cbn [_queue]. split; [split; [|split; [|exact Hord']]|].
  - eapply Permutation_Forall; [apply Permutation_sym; exact Hperm|].
    constructor; [reflexivity|exact Hwf].
  - eapply Permutation_NoDup;
      [apply Permutation_map, Permutation_sym; exact Hperm|].
    simpl. constructor; [|exact Hcmp].
    intros Hi. apply in_map_iff in Hi. destruct Hi as (e & He & Hi).
    unfold untied in Hun. rewrite Forall_forall in Hun.
    now apply (Hun e Hi).
  - apply (Permutation_map snd) in Hperm. exact Hperm.
Qed.

(** One call of [get_next_task] on a queue whose entries do not tie. *)
Lemma get_next_task_least q :
  queue_ok q -> _queue q <> [] ->
  exists task q',
    get_next_task q = (Ok (Some task), q') /\
    Permutation (queued q) (task :: queued q') /\
    Forall (runs_before task) (queued q') /\
    queue_ok q'.
Proof.
  intros (Hwf & Hcmp & Hord) Hne. unfold get_next_task.
  destruct (heapOrder.heappop_ordered _ Hne Hcmp Hord)
    as (m & h' & Hrun & Hperm & Hord' & Hleast).
  destruct (_queue q) as [|e0 rest] eqn:Eq; [congruence|].
  rewrite Hrun. destruct m as [[pm cm] tm].
  exists tm. eexists. split; [reflexivity|].
  unfold queue_ok, queue_wf, queue_comparable, queued in *.
  cbn [_queue]. rewrite Eq in *.
  assert (Forall (fun e : entry =>
                    fst e = (- Task.priority (snd e),
                             Task.created_at (snd e)))
                 ((pm, cm, tm) :: h')) as Hwf'
      by (eapply Permutation_Forall; [exact Hperm|exact Hwf]).
  inversion Hwf' as [|? ? Hm Hwfo]; subst. simpl in Hm. inversion Hm; subst.
  clear Hm.
  split; [|split; [|split; [exact Hwfo|split; [|exact Hord']]]].
  - apply (Permutation_map snd) in Hperm. exact Hperm.
  - rewrite Forall_forall in *. intros t' Hin.
    apply in_map_iff in Hin. destruct Hin as (x & <- & Hin).
    specialize (Hleast x Hin). specialize (Hwfo x Hin).
    unfold key_lt in Hleast. rewrite Hwfo in Hleast. simpl in Hleast.
    unfold runs_before. lia.
  - apply (Permutation_map fst) in Hperm.
    apply (Permutation_NoDup Hperm) in Hcmp. now inversion Hcmp.
Qed.

Lemma drain_sorted n :
  forall q,
    queue_ok q -> List.length (_queue q) = n ->
    Permutation (queued q) (drain n q) /\
    StronglySorted runs_before (drain n q).
Proof.
  induction n as [|n IH]; intros q Hok Hlen.
  - unfold queued. destruct (_queue q); [|discriminate]. simpl.
    split; constructor.
  - assert (_queue q <> []) as Hne by (intros E; rewrite E in Hlen; discriminate).
    destruct (get_next_task_least q Hok Hne)
      as (task & q' & Hg & Hperm & Hall & Hok').
    cbn [drain]. rewrite Hg.
    assert (List.length (_queue q') = n) as Hlen'.
    { apply Permutation_length in Hperm. unfold queued in Hperm.
      simpl in Hperm. rewrite !length_map in Hperm.
      apply eq_add_S.
      transitivity (List.length (_queue q)); [symmetry; exact Hperm|exact Hlen]. }
    destruct (IH q' Hok' Hlen') as [Hp Hs].
    split.
    + eapply perm_trans; [exact Hperm|]. now apply perm_skip.
    + constructor; auto.
      rewrite Forall_forall in *. intros x Hx. apply Hall.
      eapply Permutation_in; [apply Permutation_sym; exact Hp|exact Hx].
Qed.

Lemma untied_priorities task q :
  queue_wf q ->
  (forall t', In t' (queued q) -> Task.priority t' <> Task.priority task) ->
  untied (- Task.priority task, Task.created_at task, task) (_queue q).
Proof.
  intros Hwf Hp. unfold untied, queue_wf, queued in *.
  rewrite Forall_forall in *. intros e He Heq.
  apply (Hp (snd e)); [now apply in_map|].
  rewrite (Hwf e He) in Heq. simpl in Heq. inversion Heq. lia.
Qed.

(** X23: the queue releases tasks in the order [(-priority, created_at)]
    as long as no two queued tasks share both numbers. A new queue is
    such a queue, and stays one when [add_task] is given a task that
    ties with no queued task on both: the call returns and the task is
    queued besides the others. On such a queue holding at least one
    task, [get_next_task] returns a queued task of the highest priority
    and, among those, of the earliest creation time; the others stay
    queued, so the same holds of the next call, and dequeuing until the
    queue is empty returns the queued tasks by decreasing priority and,
    within a priority, by increasing creation time. After enqueuing
    tasks of priorities 1, 5 and 3 the first task dequeued is the one
    of priority 5. *)
Theorem queue_priority_order :
  (forall cap, queue_ok (TaskQueue_init cap)) /\
  (forall q task,
      queue_ok q ->
      untied (- Task.priority task, Task.created_at task, task) (_queue q) ->
      exists q',
        add_task task q = (Ok tt, q') /\ queue_ok q' /\
        Permutation (queued q') (task :: queued q)) /\
  (forall q,
      queue_ok q -> _queue q <> [] ->
      exists task q',
        get_next_task q = (Ok (Some task), q') /\
        In task (queued q) /\
        (forall t', In t' (queued q) ->
                    Task.priority t' <= Task.priority task /\
                    (Task.priority t' = Task.priority task ->
                     Task.created_at task <= Task.created_at t')) /\
        Permutation (queued q) (task :: queued q') /\
        queue_ok q') /\
  (forall q,
      queue_ok q ->
      Permutation (queued q) (drain (List.length (_queue q)) q) /\
      StronglySorted runs_before (drain (List.length (_queue q)) q)) /\
  (forall cap t1 t5 t3,
      Task.priority t1 = 1 -> Task.priority t5 = 5 -> Task.priority t3 = 3 ->
      exists q1 q2 q3 q4,
        add_task t1 (TaskQueue_init cap) = (Ok tt, q1) /\
        add_task t5 q1 = (Ok tt, q2) /\
        add_task t3 q2 = (Ok tt, q3) /\
        get_next_task q3 = (Ok (Some t5), q4)).
Proof.
  assert (forall q,
             queue_ok q -> _queue q <> [] ->
             exists task q',
               get_next_task q = (Ok (Some task), q') /\
               In task (queued q) /\
               (forall t', In t' (queued q) ->
                           Task.priority t' <= Task.priority task /\
                           (Task.priority t' = Task.priority task ->
                            Task.created_at task <= Task.created_at t')) /\
               Permutation (queued q) (task :: queued q') /\
               queue_ok q') as Hget.
  { intros q Hok Hne.
    destruct (get_next_task_least q Hok Hne)
      as (task & q' & Hg & Hperm & Hall & Hok').
    exists task, q'. split; [exact Hg|]. split.
    { eapply Permutation_in; [apply Permutation_sym; exact Hperm|].
      simpl; auto. }
    split; [|auto].
    intros t' Hin. apply (Permutation_in _ Hperm) in Hin.
    destruct Hin as [<-|Hin]; [lia|].
    rewrite Forall_forall in Hall. specialize (Hall t' Hin).
    unfold runs_before in Hall. lia. }
  split; [exact queue_ok_init|]. split; [intros q task; apply add_task_ok|].
  split; [exact Hget|]. split.
  - intros q Hok. now apply drain_sorted.
  - intros cap t1 t5 t3 H1 H5 H3.
    destruct (add_task_ok t1 (TaskQueue_init cap) (queue_ok_init cap))
      as (q1 & Ha1 & Hok1 & Hp1); [constructor|].
    destruct (add_task_ok t5 q1 Hok1) as (q2 & Ha2 & Hok2 & Hp2).
    { apply untied_priorities; [apply Hok1|]. intros t' Hin.
      apply (Permutation_in _ Hp1) in Hin. simpl in Hin.
      destruct Hin as [<-|[]]. lia. }
    destruct (add_task_ok t3 q2 Hok2) as (q3 & Ha3 & Hok3 & Hp3).
    { apply untied_priorities; [apply Hok2|]. intros t' Hin.
      apply (Permutation_in _ Hp2) in Hin. simpl in Hin.
      destruct Hin as [<-|Hin]; [lia|].
      apply (Permutation_in _ Hp1) in Hin. simpl in Hin.
      destruct Hin as [<-|[]]. lia. }
    assert (forall t', In t' (queued q3) -> t' = t3 \/ t' = t5 \/ t' = t1)
      as Hin3.
    { intros t' Hin. apply (Permutation_in _ Hp3) in Hin.
      destruct Hin as [<-|Hin]; auto.
      apply (Permutation_in _ Hp2) in Hin.
      destruct Hin as [<-|Hin]; auto.
      apply (Permutation_in _ Hp1) in Hin.
      destruct Hin as [<-|[]]; auto. }
    assert (In t5 (queued q3)) as H5in.
    { eapply Permutation_in; [apply Permutation_sym; exact Hp3|].
      right. eapply Permutation_in; [apply Permutation_sym; exact Hp2|].
      left. reflexivity. }
    assert (_queue q3 <> []) as Hne.
    { intros E. unfold queued in H5in. rewrite E in H5in. exact H5in. }
    destruct (Hget q3 Hok3 Hne) as (task & q4 & Hg & Hin & Hmax & _).
    exists q1, q2, q3, q4. repeat (split; [assumption|]).
    destruct (Hmax t5 H5in) as [Hle _].
    destruct (Hin3 task Hin) as [-> | [-> | ->]]; [lia|exact Hg|lia].
Qed.

(** ** The concurrency cap *)

Lemma get_next_task_frame q r q' :
  get_next_task q = (r, q') ->
  max_concurrent q' = max_concurrent q /\ _running q' = _running q /\
  _results q' = _results q.
Proof.
  unfold get_next_task. destruct (_queue q) as [|e rest].
  - intros H. inversion H; subst. auto.
  - destruct (heapq.heappop (e :: rest)) as [[[[p c] t]|ex] h];
      intros H; inversion H; subst; auto.
Qed.






(** ** Submission *)

Section Submission.
Context {W : Backend}.

(** C8: [submit_task] on an agent whose cache is well-formed, when
    the durable log accepts the write and no queued task has both the
    priority and the creation time of the new one. It builds a task
    whose id is the next [uuid4()] of the process, stores a record
    tagged [task], [pending] whose content holds the name, the
    description, the plugin chain and the parameters as given (the
    record is in the cache and in the durable log, and the index is the
    old index after [add_context] of it), sets the id of that record as
    the task's [context_id], pushes the task on the queue, which then
    holds it besides the entries it held, and returns the task's id;
    nothing is run: the cap, the running set, the results and the
    plugins are untouched. When the durable log rejects the write the
    call raises the error of the log instead and nothing is
    enqueued. *)
Theorem submit_task_spec (name description : string)
    (plugin_chain : list string) (parameters : json) (priority : Z)
    (a : TaskAgent) :
  RAMBuffer_wf (ram_buffer (memory_engine a)) ->
  let s0 := memory_engine a in
  let task_id := uuid4_draw (uuid_calls s0) in
  let context_id := uuid4_draw (S (uuid_calls s0)) in
  let created := clock (clock_calls s0) in
  let task :=
    Task.mk task_id name description plugin_chain parameters
            priority created (Some context_id) in
  match env_fault (persistent_store s0) with
  | None =>
      untied (- priority, created, task) (_queue (task_queue a)) ->
      exists a' ctx,
        submit_task name description plugin_chain parameters priority a
        = (Ok task_id, a') /\
        MemoryContext.id ctx = context_id /\
        MemoryContext.content ctx
        = JDict [("task_id", JStr task_id);
                 ("name", JStr name);
                 ("description", JStr description);
                 ("plugins", JList (map JStr plugin_chain));
                 ("parameters", parameters);
                 ("status", JStr "pending")] /\
        MemoryContext.tags ctx = ["task"; "pending"] /\
        durably_stored ctx (memory_engine a') /\
        PyDict.get context_id (_buffer (ram_buffer (memory_engine a')))
        = Some ctx /\
        vector_store (memory_engine a') = add_context ctx (vector_store s0) /\
        Permutation (_queue (task_queue a'))
                    ((- priority, created, task) :: _queue (task_queue a)) /\
        max_concurrent (task_queue a') = max_concurrent (task_queue a) /\
        _running (task_queue a') = _running (task_queue a) /\
        _results (task_queue a') = _results (task_queue a) /\
        plugin_manager a' = plugin_manager a /\
        (uuid4_fresh ->
         task_id <> context_id /\
         forall n, (n < uuid_calls s0)%nat -> task_id <> uuid4_draw n)
  | Some msg =>
      exists a',
        submit_task name description plugin_chain parameters priority a
        = (Raise (LmdbError msg), a') /\
        task_queue a' = task_queue a
  end.
Proof.
  intros Hwf. cbv zeta. unfold submit_task. rewrite store_memory_eq.
  cbv zeta.
  match goal with
  | |- context [RAMBuffer_put ?k ?c ?n ?b] =>
      destruct (RAMBuffer_put_wf k c n b Hwf) as (b' & Hput & _ & _ & Hg & _);
      rewrite Hput
  end.
  unfold store_context. cbn [persistent_store set_ram_buffer tick_clock tick_uuid].
  destruct (env_fault (persistent_store (memory_engine a))) as [msg|].
  - eexists. split; reflexivity.
  - intros Hun.
    destruct (heapqFacts.heappush_untied _ _ Hun) as (h' & Hpush & Hperm).
    unfold add_task.
    match goal with
    | |- context [heapq.heappush ?e ?h] =>
        replace (heapq.heappush e h) with (@Ok unit tt, h')
          by (symmetry; exact Hpush)
    end.
    eexists.
    match type of Hg with _ = Some ?c => exists c end.
    split; [reflexivity|]. simpl.
    split; [reflexivity|]. split; [reflexivity|]. split; [reflexivity|].
    split; [unfold durably_stored; simpl; apply PyDictFacts.get_set_same|].
    split; [exact Hg|]. split; [reflexivity|]. split; [exact Hperm|].
    do 4 (split; [reflexivity|]).
    intros Hfresh. split.
    + intros He. apply Hfresh in He. lia.
    + intros n Hn He. apply Hfresh in He. lia.
Qed.

End Submission.

Lemma submit_task_spec_witness :
  RAMBuffer_wf (ram_buffer (memory_engine plain_agent)) /\
  exists a',
    @submit_task plain_backend "echo" "say hi" ["echo"]
                 (JDict [("message", JStr "hi")]) 3 plain_agent
    = (Ok "uuid-i", a') /\
    Permutation
      (queued (task_queue a'))
      [Task.mk "uuid-i" "echo" "say hi" ["echo"]
               (JDict [("message", JStr "hi")]) 3 0 (Some "uuid-ii")] /\
    _running (task_queue a') = [].
Proof.
  assert (RAMBuffer_wf (ram_buffer (memory_engine plain_agent))) as Hwf
    by apply RAMBuffer_init_wf.
  split; [exact Hwf|].
  pose proof (@submit_task_spec plain_backend "echo" "say hi" ["echo"]
                (JDict [("message", JStr "hi")]) 3 plain_agent Hwf) as H.
  simpl in H.
  destruct (H (Forall_nil _))
    as (a' & ctx & Hs & _ & _ & _ & _ & _ & _ & Hq & _ & Hr & _).
  exists a'. split; [exact Hs|]. split.
  - unfold queued. apply (Permutation_map snd) in Hq. exact Hq.
  - exact Hr.
Defined.

(** [submit_task] does not return an id on every call. With a durable
    log that rejects writes it raises the error of the log and
    enqueues nothing. With a clock that gives the same reading to two
    submissions of the same priority, the second call raises the
    [TypeError] of comparing two [Task] objects, after it stored the
    pending record of its task. *)
Lemma submit_task_raises_counterexample :
  (let out :=
     @submit_task frozen_backend "echo" "say hi" ["echo"] (JDict []) 1
                  (frozen_agent (Some "disk full")) in
   fst out = Raise (LmdbError "disk full") /\
   _queue (task_queue (snd out)) = []) /\
  (let a1 :=
     snd (@submit_task frozen_backend "first" "" ["echo"] (JDict []) 1
                       (frozen_agent None)) in
   let out :=
     @submit_task frozen_backend "second" "" ["echo"] (JDict []) 1 a1 in
   List.length (_queue (task_queue a1)) = 1%nat /\
   fst out = Raise TypeError_Task /\
   exists ctx,
     @durably_stored frozen_backend ctx (memory_engine (snd out)) /\
     MemoryContext.content ctx
     = JDict [("task_id", JStr "uuid-iii");
              ("name", JStr "second");
              ("description", JStr "");
              ("plugins", JList [JStr "echo"]);
              ("parameters", JDict []);
              ("status", JStr "pending")]).
Proof.
  split.
  - split; vm_compute; reflexivity.
  - cbv zeta. split; [vm_compute; reflexivity|].
    split; [vm_compute; reflexivity|].
    exists (MemoryContext.mk "uuid-iiii"
              (JDict [("task_id", JStr "uuid-iii");
                      ("name", JStr "second");
                      ("description", JStr "");
                      ("plugins", JList [JStr "echo"]);
                      ("parameters", JDict []);
                      ("status", JStr "pending")])
              ["task"; "pending"] 0 "uuid-" (Some "/ws") None).
    split; [vm_compute; reflexivity|reflexivity].
Qed.

(** ** Results *)

Section Results.
Context {W : Backend}.

Lemma try_block_ok pm task start_time s r memory_contexts s' :
  try_block pm task start_time s = (Ok r, memory_contexts, s') ->
  TaskResult.task_id r = Task.id task /\
  TaskResult.status r = COMPLETED /\ TaskResult.error r = None /\
  exists chain_output, TaskResult.output r = Some chain_output.
Proof.
  unfold try_block.
  destruct (chain_prologue task s) as [[ec|e] s1]; [|discriminate].
  destruct (run_chain pm task (Task.plugin_chain task) ec PyDict.empty [] s1)
    as [[[[ec' co]|e] mc] s2]; [|discriminate].
  match goal with
  | |- context [bind ?m ?k s2] => destruct (bind m k s2) as [[i|e] s3]
  end; [|discriminate].
  intros H. inversion H; subst. simpl.
  repeat split. eexists. reflexivity.
Qed.

Lemma except_block_ok task start_time e memory_contexts s r s' :
  except_block task start_time e memory_contexts s = (Ok r, s') ->
  TaskResult.task_id r = Task.id task /\
  TaskResult.status r = FAILED /\
  TaskResult.error r = Some (str_exn e) /\
  TaskResult.output r = None /\
  exists error_context_id,
    TaskResult.memory_contexts r
    = Some (memory_contexts ++ [error_context_id]).
Proof.
  unfold except_block, bind, time_time, ret.
  destruct (store_memory _ _ _) as [[i|e'] s1]; [|discriminate].
  intros H. inversion H; subst. simpl.
  repeat split. eexists. reflexivity.
Qed.

(** C9: a result carries an error exactly when its status is failed.
    A result returned by [execute_task_chain] is either completed,
    without error, or failed, with the message of the exception that
    ended the [try] block; the result [_handle_task_completion] records
    is that result or, when the execution itself raised, a failed
    result with the message of that exception. *)
Theorem task_result_error_iff_failed :
  (forall pm task s r s',
      execute_task_chain pm task s = (Ok r, s') ->
      (TaskResult.error r <> None <-> TaskResult.status r = FAILED) /\
      ((TaskResult.status r = COMPLETED /\ TaskResult.error r = None) \/
       (TaskResult.status r = FAILED /\
        exists e memory_contexts s1,
          try_block pm task (clock (clock_calls s)) (tick_clock s)
          = (Raise e, memory_contexts, s1) /\
          TaskResult.error r = Some (str_exn e)))) /\
  (forall pm task s task_id q,
      exists r,
        get_result (TaskResult.task_id r)
          (_handle_task_completion task_id
             (fst (execute_task_chain pm task s)) q)
        = Some r /\
        (TaskResult.error r <> None <-> TaskResult.status r = FAILED) /\
        match fst (execute_task_chain pm task s) with
        | Ok r0 => r = r0
        | Raise e =>
            TaskResult.task_id r = task_id /\
            TaskResult.status r = FAILED /\
            TaskResult.error r = Some (str_exn e)
        end).
Proof.
  assert (forall pm task s r s',
             execute_task_chain pm task s = (Ok r, s') ->
             (TaskResult.status r = COMPLETED /\ TaskResult.error r = None) \/
             (TaskResult.status r = FAILED /\
              exists e memory_contexts s1,
                try_block pm task (clock (clock_calls s)) (tick_clock s)
                = (Raise e, memory_contexts, s1) /\
                TaskResult.error r = Some (str_exn e))) as Hcases.
  { intros pm task s r s'. unfold execute_task_chain.
    destruct (try_block pm task (clock (clock_calls s)) (tick_clock s))
      as [[[r0|e] mc] s1] eqn:Et.
    - intros H. inversion H; subst.
      destruct (try_block_ok _ _ _ _ _ _ _ Et) as (_ & H1 & H2 & _). auto.
    - intros H. destruct (except_block_ok _ _ _ _ _ _ _ H) as (_ & H1 & H2 & _).
      right. split; auto. exists e, mc, s1. auto. }
  assert (forall pm task s r s',
             execute_task_chain pm task s = (Ok r, s') ->
             (TaskResult.error r <> None <-> TaskResult.status r = FAILED))
    as Hiff.
  { intros pm task s r s' H.
    destruct (Hcases _ _ _ _ _ H) as [[H1 H2]|[H1 (e & mc & s1 & _ & H2)]];
      rewrite H1, H2; split; congruence. }
  split.
  - intros pm task s r s' H. split; eauto.
  - intros pm task s task_id q. unfold _handle_task_completion.
    destruct (execute_task_chain pm task s) as [[r0|e] s'] eqn:E; simpl.
    + exists r0. unfold get_result, add_result.
      split; [|split; [eapply Hiff; eauto|reflexivity]].
      destruct (PyDict.del _ _); simpl; apply PyDictFacts.get_set_same.
    + exists (TaskResult.mk task_id FAILED None (Some (str_exn e)) 0 None).
      unfold get_result, add_result. simpl.
      split; [|split; [split; congruence|repeat split]].
      destruct (PyDict.del _ _); simpl; apply PyDictFacts.get_set_same.
Qed.

End Results.

(** ** The chain of plugins *)

Section Chain.
Context {W : Backend}.
Hypothesis Hfresh : uuid4_fresh.

Lemma grows_refl s : grows s s.
Proof. split; [auto|split; [reflexivity|split; [lia|auto]]]. Qed.

Lemma grows_trans s1 s2 s3 : grows s1 s2 -> grows s2 s3 -> grows s1 s3.
Proof.
  intros (A1 & A2 & A3 & A4) (B1 & B2 & B3 & B4).
  split; [auto|split; [congruence|split; [lia|auto]]].
Qed.

Lemma grows_tick_clock s : grows s (tick_clock s).
Proof. split; [auto|split; [reflexivity|split; [simpl; lia|auto]]]. Qed.

(** A change of the cache and of the counters only. *)
Lemma grows_cache s s' :
  (RAMBuffer_wf (ram_buffer s) -> RAMBuffer_wf (ram_buffer s')) ->
  persistent_store s' = persistent_store s ->
  (uuid_calls s <= uuid_calls s')%nat ->
  grows s s'.
Proof.
  intros Hwf Hps Hu. split; [exact Hwf|]. split; [now rewrite Hps|].
  split; [exact Hu|]. intros ctx (Hd & n & Hn & He). split.
  - unfold durably_stored in *. now rewrite Hps.
  - exists n. split; [lia|exact He].
Qed.

Lemma grows_store content tags s :
  grows s (snd (store_memory content tags s)).
Proof.
  rewrite store_memory_eq. cbv zeta.
  assert (forall ctx, persisted ctx s ->
            uuid4_draw (uuid_calls s) <> MemoryContext.id ctx) as Hne.
  { intros ctx (_ & n & Hn & He) H. rewrite He in H. apply Hfresh in H. lia. }
  destruct (RAMBuffer_put _ _ _ _) as [b'|e] eqn:Hput.
  - assert (RAMBuffer_wf (ram_buffer s) -> RAMBuffer_wf b') as Hwf.
    { intros Hwf.
      destruct (RAMBuffer_put_wf (uuid4_draw (uuid_calls s))
                  (new_context content tags s)
                  (clock (S (clock_calls s))) (ram_buffer s) Hwf)
        as (b'' & Hput' & Hwf' & _).
      simpl in Hput. rewrite Hput' in Hput. inversion Hput; subst. auto. }
    unfold store_context. simpl.
    destruct (env_fault (persistent_store s)) eqn:Ef; simpl.
    + apply grows_cache; simpl; auto.
    + split; [exact Hwf|]. split; [simpl; now rewrite Ef|].
      split; [simpl; lia|]. intros ctx Hp. pose proof (Hne ctx Hp) as Hn'.
      destruct Hp as (Hd & n & Hn & He). split.
      * unfold durably_stored in *. simpl.
        rewrite PyDictFacts.get_set_other by exact Hn'. exact Hd.
      * exists n. simpl. split; [lia|exact He].
  - simpl. apply grows_cache; simpl; auto.
Qed.

Lemma grows_retrieve context_id s :
  grows s (snd (retrieve_memory context_id s)).
Proof.
  rewrite retrieve_memory_eq.
  destruct (PyDict.get context_id (_buffer (ram_buffer s))) as [c|].
  - simpl. apply grows_cache; simpl; auto.
    intros Hwf. now apply RAMBuffer_get_wf.
  - destruct (get_context context_id (persistent_store s)) as [[c|]|e];
      try apply grows_refl.
    destruct (RAMBuffer_put context_id c (clock (clock_calls s)) (ram_buffer s))
      as [b'|e] eqn:Hput; [|apply grows_refl].
    simpl. apply grows_cache; simpl; auto.
    intros Hwf.
    destruct (RAMBuffer_put_wf context_id c (clock (clock_calls s))
                (ram_buffer s) Hwf) as (b'' & Hput' & Hwf' & _).
    rewrite Hput' in Hput. inversion Hput; subst. auto.
Qed.

Lemma grows_store_all memories :
  forall s, grows s (snd (store_all memories s)).
Proof.
  induction memories as [|[c t] rest IH]; intros s; [apply grows_refl|].
  cbn [store_all]. unfold bind.
  pose proof (grows_store c t s) as H.
  destruct (store_memory c t s) as [[i|e] s1]; simpl in H; [|exact H].
  eapply grows_trans; [exact H|apply IH].
Qed.

Lemma grows_execute_plugin pm plugin_name parameters context s :
  grows s (snd (execute_plugin pm plugin_name parameters context s)).
Proof.
  unfold execute_plugin.
  destruct (PyDict.get plugin_name (_plugins pm)) as [p|]; [|apply grows_refl].
  destruct (negb (PluginBase.validate_parameters p parameters));
    [apply grows_refl|].
  unfold plugin_execute, bind.
  pose proof (grows_store_all (fst (PluginBase.execute p parameters context)) s)
    as H.
  destruct (store_all _ s) as [[u|e] s1]; simpl in H; [|exact H].
  destruct (snd (PluginBase.execute p parameters context)); exact H.
Qed.

Lemma grows_prologue task s : grows s (snd (chain_prologue task s)).
Proof.
  unfold chain_prologue, get_workspace_context, time_time, bind.
  destruct (str_truthy (Task.context_id task)); cbv beta iota.
  - match goal with
    | |- context [retrieve_memory ?c ?st] =>
        pose proof (grows_retrieve c st) as H;
        destruct (retrieve_memory c st) as [[r|e] s1]
    end; simpl in *;
      (eapply grows_trans; [apply grows_tick_clock|exact H]).
  - simpl. apply grows_tick_clock.
Qed.

Lemma grows_run_chain pm task chain :
  forall ec co mc s, grows s (snd (run_chain pm task chain ec co mc s)).
Proof.
  induction chain as [|name rest IH]; intros ec co mc s; [apply grows_refl|].
  cbn [run_chain].
  pose proof (grows_execute_plugin pm name (Task.parameters task) ec s) as H1.
  destruct (execute_plugin pm name (Task.parameters task) ec s)
    as [[out|e] s1]; simpl in H1; [|exact H1].
  match goal with
  | |- context [store_memory ?c ?t s1] =>
      pose proof (grows_store c t s1) as H2;
      destruct (store_memory c t s1) as [[i|e] s2]
  end; simpl in H2.
  - eapply grows_trans; [exact H1|]. eapply grows_trans; [exact H2|apply IH].
  - eapply grows_trans; eauto.
Qed.

(** A store that returns gives the id it drew and leaves its record
    persisted. *)
Lemma store_persisted content tags s i s' :
  store_memory content tags s = (Ok i, s') ->
  i = uuid4_draw (uuid_calls s) /\ persisted (new_context content tags s) s'.
Proof.
  rewrite store_memory_eq. cbv zeta.
  destruct (RAMBuffer_put _ _ _ _) as [b'|e]; [|discriminate].
  unfold store_context. simpl.
  destruct (env_fault (persistent_store s)); [discriminate|].
  intros H. inversion H; subst. split; [reflexivity|]. split.
  - unfold durably_stored. simpl. apply PyDictFacts.get_set_same.
  - exists (uuid_calls s). simpl. split; [lia|reflexivity].
Qed.

(** On a well-formed cache over a writable log a store returns. *)
Lemma store_returns content tags s :
  RAMBuffer_wf (ram_buffer s) -> env_fault (persistent_store s) = None ->
  exists s', store_memory content tags s = (Ok (uuid4_draw (uuid_calls s)), s').
Proof.
  intros Hwf Hf. rewrite store_memory_eq. cbv zeta.
  destruct (RAMBuffer_put_wf (uuid4_draw (uuid_calls s))
              (new_context content tags s) (clock (S (clock_calls s)))
              (ram_buffer s) Hwf) as (b' & Hput & _).
  simpl. rewrite Hput. unfold store_context. simpl. rewrite Hf. eauto.
Qed.

Lemma run_chain_app pm task pre suf :
  forall ec co mc s,
    run_chain pm task (pre ++ suf) ec co mc s =
    match run_chain pm task pre ec co mc s with
    | (Ok (ec', co'), mc', s') => run_chain pm task suf ec' co' mc' s'
    | (Raise e, mc', s') => (Raise e, mc', s')
    end.
Proof.
  induction pre as [|name rest IH]; intros ec co mc s; [reflexivity|].
  cbn [app run_chain].
  destruct (execute_plugin pm name (Task.parameters task) ec s)
    as [[out|e] s1]; [|reflexivity].
  destruct (store_memory _ _ s1) as [[i|e] s2]; [|reflexivity].
  apply IH.
Qed.

(** The records of the steps a loop completed. *)
Lemma run_chain_records pm task chain :
  forall ec co mc s ec' co' mc' s',
    run_chain pm task chain ec co mc s = (Ok (ec', co'), mc', s') ->
    exists ids,
      mc' = mc ++ ids /\
      Forall2 (fun name i =>
                 exists ctx out step,
                   MemoryContext.id ctx = i /\ persisted ctx s' /\
                   step_record task name out step ctx)
              chain ids /\
      (forall name out,
          PyDict.get name co' = Some out ->
          PyDict.get name co = Some out \/
          exists ctx step,
            In (MemoryContext.id ctx) ids /\ persisted ctx s' /\
            step_record task name out step ctx).
Proof.
  induction chain as [|name rest IH]; intros ec co mc s ec' co' mc' s'.
  - simpl. intros H. inversion H; subst. exists []. rewrite app_nil_r.
    repeat split; auto.
  - cbn [run_chain].
    destruct (execute_plugin pm name (Task.parameters task) ec s)
      as [[out|e] s1]; [|discriminate].
    destruct (store_memory _ _ s1) as [[i|e] s2] eqn:Hst; [|discriminate].
    intros Hrun.
    destruct (store_persisted _ _ _ _ _ Hst) as [Hi Hp].
    pose proof (grows_run_chain pm task rest
                  (PyDict.set (String.append name "_output") out ec)
                  (PyDict.set name out co) (mc ++ [i]) s2) as Hg.
    rewrite Hrun in Hg. simpl in Hg.
    destruct (IH _ _ _ _ _ _ _ _ Hrun) as (ids & Hmc & Hall & Hco).
    exists (i :: ids). split; [rewrite Hmc, <- app_assoc; reflexivity|].
    assert (exists ctx step,
               MemoryContext.id ctx = i /\ persisted ctx s' /\
               step_record task name out step ctx) as Hhead.
    { eexists. eexists. split; [|split; [apply Hg; exact Hp|]].
      - simpl. auto.
      - split; reflexivity. }
    split.
    + constructor; auto. destruct Hhead as (ctx & step & H1 & H2 & H3).
      exists ctx, out, step. auto.
    + intros name' out' Hget. destruct (Hco _ _ Hget) as [Hold|Hnew].
      * destruct (string_dec name name') as [<-|Hne].
        -- rewrite PyDictFacts.get_set_same in Hold. inversion Hold; subst.
           right. destruct Hhead as (ctx & step & H1 & H2 & H3).
           exists ctx, step. rewrite H1. simpl. auto.
        -- rewrite PyDictFacts.get_set_other in Hold by auto. auto.
      * right. destruct Hnew as (ctx & step & H1 & H2 & H3).
        exists ctx, step. simpl. auto.
Qed.

Lemma run_chain_ext pm task task' chain :
  same_but_chain task task' ->
  forall ec co mc s,
    run_chain pm task' chain ec co mc s = run_chain pm task chain ec co mc s.
Proof.
  intros (Hid & _ & Hpar & _).
  induction chain as [|name rest IH]; intros ec co mc s; [reflexivity|].
  cbn [run_chain]. rewrite Hpar.
  destruct (execute_plugin pm name (Task.parameters task) ec s)
    as [[out|e] s1]; [|reflexivity].
  unfold intermediate_context. rewrite Hid.
  destruct (store_memory _ _ s1) as [[i|e] s2]; [|reflexivity].
  apply IH.
Qed.

Lemma chain_prologue_ext task task' s :
  same_but_chain task task' ->
  chain_prologue task' s = chain_prologue task s.
Proof.
  intros (Hid & _ & Hpar & Hcid).
  unfold chain_prologue, initial_execution_context.
  now rewrite Hid, Hpar, Hcid.
Qed.

Lemma except_block_ext task task' start_time e mc s :
  same_but_chain task task' ->
  except_block task' start_time e mc s = except_block task start_time e mc s.
Proof.
  intros (Hid & _). unfold except_block, error_context. now rewrite Hid.
Qed.

(** When the plugin after [pre] raises, the handler runs on what the
    loop had reached. *)
Lemma execute_raises pm task pre K rest s ec0 s1 ec1 cout mctx s2 e s3 :
  Task.plugin_chain task = pre ++ K :: rest ->
  chain_prologue task (tick_clock s) = (Ok ec0, s1) ->
  run_chain pm task pre ec0 PyDict.empty [] s1 = (Ok (ec1, cout), mctx, s2) ->
  execute_plugin pm K (Task.parameters task) ec1 s2 = (Raise e, s3) ->
  execute_task_chain pm task s
  = except_block task (clock (clock_calls s)) e mctx s3.
Proof.
  intros Hchain Hpro Hpre HK. unfold execute_task_chain, try_block.
  rewrite Hpro, Hchain, run_chain_app, Hpre. cbn [run_chain]. now rewrite HK.
Qed.

End Chain.

Lemma Forall2_weaken {A B : Type} (P Q : A -> B -> Prop) (l1 : list A)
    (l2 : list B) :
  (forall a b, P a b -> Q a b) -> Forall2 P l1 l2 -> Forall2 Q l1 l2.
Proof. intros HPQ H. induction H; constructor; auto. Qed.

Section ChainTheorem.
Context {W : Backend}.

(** C2, amended: when the plugins before [K] in the chain complete and
    [K] raises, on an engine whose cache is well-formed and whose
    durable log accepts writes, [execute_task_chain] returns a result of
    status failed whose error is the message of the exception and whose
    output is absent. The record it persists for the failure holds the
    task id, the status, the error and the elapsed time only. The
    outputs of the plugins that completed are kept in the records that
    were persisted one per completed step: the result lists their ids,
    in order, followed by the id of the failure record; each is in the
    durable log with the name and the output of its plugin, and every
    entry of the partial [chain_output] is in one of them. Nothing after
    [K] runs: a task that differs only in what follows [K] in its chain
    gives the same result and leaves the same state. *)
Theorem chain_short_circuit (pm : PluginManager) (task : Task.t)
    (pre : list string) (K : string) (rest : list string)
    (s s1 s2 s3 : MemoryEngine) (ec0 ec1 cout : PyDict.t json)
    (mctx : list string) (e : exn) :
  uuid4_fresh ->
  RAMBuffer_wf (ram_buffer s) ->
  env_fault (persistent_store s) = None ->
  Task.plugin_chain task = pre ++ K :: rest ->
  chain_prologue task (tick_clock s) = (Ok ec0, s1) ->
  run_chain pm task pre ec0 PyDict.empty [] s1 = (Ok (ec1, cout), mctx, s2) ->
  execute_plugin pm K (Task.parameters task) ec1 s2 = (Raise e, s3) ->
  exists r s' failure elapsed,
    execute_task_chain pm task s = (Ok r, s') /\
    TaskResult.status r = FAILED /\
    TaskResult.error r = Some (str_exn e) /\
    TaskResult.output r = None /\
    TaskResult.memory_contexts r
    = Some (mctx ++ [MemoryContext.id failure]) /\
    persisted failure s' /\
    MemoryContext.content failure
    = JDict [("task_id", JStr (Task.id task));
             ("status", JStr "failed");
             ("error", JStr (str_exn e));
             ("execution_time", JNum elapsed)] /\
    Forall2 (fun name i =>
               exists ctx out step,
                 MemoryContext.id ctx = i /\ persisted ctx s' /\
                 step_record task name out step ctx)
            pre mctx /\
    (forall name out,
        PyDict.get name cout = Some out ->
        exists ctx step,
          In (MemoryContext.id ctx) mctx /\ persisted ctx s' /\
          step_record task name out step ctx) /\
    (forall task' rest',
        same_but_chain task task' ->
        Task.plugin_chain task' = pre ++ K :: rest' ->
        execute_task_chain pm task' s = (Ok r, s')).
Proof.
  intros Hfresh Hwf Hfault Hchain Hpro Hpre HK.
  assert (grows s s2) as G2.
  { eapply grows_trans; [apply grows_tick_clock|].
    pose proof (grows_prologue task (tick_clock s)) as G.
    rewrite Hpro in G. eapply grows_trans; [exact G|].
    pose proof (grows_run_chain Hfresh pm task pre ec0 PyDict.empty [] s1) as G'.
    rewrite Hpre in G'. exact G'. }
  assert (grows s2 s3) as G3.
  { pose proof (grows_execute_plugin Hfresh pm K (Task.parameters task) ec1 s2)
      as G. rewrite HK in G. exact G. }
  pose proof (grows_trans _ _ _ G2 G3) as (Hwf3 & Hf3 & _ & _).
  specialize (Hwf3 Hwf). rewrite Hfault in Hf3.
  set (start := clock (clock_calls s)).
  set (elapsed := clock (clock_calls s3) - start).
  destruct (store_returns (error_context task e elapsed)
              ["task"; "failed"; "error"] (tick_clock s3) Hwf3 Hf3)
    as (s5 & Hst).
  destruct (store_persisted _ _ _ _ _ Hst) as [_ Hp5].
  pose proof (grows_store Hfresh (error_context task e elapsed)
                ["task"; "failed"; "error"] (tick_clock s3)) as G5.
  rewrite Hst in G5. simpl in G5.
  assert (grows s2 (tick_clock s5)) as G.
  { eapply grows_trans; [exact G3|].
    eapply grows_trans; [apply grows_tick_clock|].
    eapply grows_trans; [exact G5|apply grows_tick_clock]. }
  assert (except_block task start e mctx s3
          = (Ok (TaskResult.mk (Task.id task) FAILED None (Some (str_exn e))
                   (clock (clock_calls s5) - start)
                   (Some (mctx ++ [uuid4_draw (uuid_calls s3)]))),
             tick_clock s5)) as Hex.
  { unfold except_block, bind, time_time. fold elapsed. rewrite Hst.
    reflexivity. }
  destruct (run_chain_records Hfresh pm task pre _ _ _ _ _ _ _ _ Hpre)
    as (ids & Hids & Hall & Hco).
  simpl in Hids. subst ids.
  exists (TaskResult.mk (Task.id task) FAILED None (Some (str_exn e))
            (clock (clock_calls s5) - start)
            (Some (mctx ++ [uuid4_draw (uuid_calls s3)]))),
    (tick_clock s5),
    (new_context (error_context task e elapsed) ["task"; "failed"; "error"]
                 (tick_clock s3)),
    elapsed.
  split.
  { rewrite (execute_raises pm task pre K rest s ec0 s1 ec1 cout mctx s2 e s3
               Hchain Hpro Hpre HK).
    exact Hex. }
  do 4 (split; [reflexivity|]).
  split; [apply (proj2 (proj2 (proj2 (grows_tick_clock s5)))); exact Hp5|].
  split; [reflexivity|].
  destruct G as (_ & _ & _ & Gp).
  split; [|split].
  - eapply Forall2_weaken; [|exact Hall].
    intros name i (ctx & out & step & H1 & H2 & H3).
    exists ctx, out, step. auto.
  - intros name out Hget. destruct (Hco name out Hget) as [Hold|Hnew].
    + discriminate.
    + destruct Hnew as (ctx & step & H1 & H2 & H3). exists ctx, step. auto.
  - intros task' rest' Hsame Hchain'.
    destruct Hsame as (Hid & Hname & Hpar & Hcid).
    assert (same_but_chain task task') as Hsame by (repeat split; auto).
    rewrite (execute_raises pm task' pre K rest' s ec0 s1 ec1 cout mctx s2
               e s3); auto.
    + rewrite (except_block_ext _ _ _ _ _ _ Hsame). exact Hex.
    + now rewrite (chain_prologue_ext task task' _ Hsame).
    + now rewrite (run_chain_ext pm task task' pre Hsame).
    + now rewrite Hpar.
Qed.

End ChainTheorem.

(** C2, as stated, fails on the code: the partial outputs are in neither
    the result nor the record persisted for the failure. For a chain of
    three plugins whose second raises ["boom"], the result is failed with
    an absent output, and the failure record, the last one the result
    lists, holds the task id, the status, the error and the elapsed time:
    the output of the first plugin is in the record of its own step
    only. *)
Lemma chain_short_circuit_counterexample :
  exists r s',
    @execute_task_chain plain_backend three_plugins three_step_task
                        (plain_engine 10 None) = (Ok r, s') /\
    TaskResult.status r = FAILED /\
    TaskResult.output r = None /\
    TaskResult.memory_contexts r = Some ["uuid-i"; "uuid-ii"] /\
    option_map MemoryContext.content
               (PyDict.get "uuid-ii" (env_db (persistent_store s')))
    = Some (JDict [("task_id", JStr "t-1"); ("status", JStr "failed");
                   ("error", JStr "boom"); ("execution_time", JNum 4)]) /\
    option_map MemoryContext.content
               (PyDict.get "uuid-i" (env_db (persistent_store s')))
    = Some (JDict [("task_id", JStr "t-1"); ("plugin", JStr "first");
                   ("output", JDict [("value", JNum 1)]); ("step", JNum 1)]).
Proof.
  do 2 eexists. split; [vm_compute; reflexivity|].
  repeat split; reflexivity.
Qed.

Lemma chain_short_circuit_witness :
  @uuid4_fresh plain_backend /\
  exists r s',
    @execute_task_chain plain_backend three_plugins three_step_task
                        (plain_engine 10 None) = (Ok r, s') /\
    TaskResult.status r = FAILED /\
    TaskResult.error r = Some "boom" /\
    (forall rest',
        @execute_task_chain plain_backend three_plugins
          (Task.set_plugin_chain ("first" :: "second" :: rest') three_step_task)
          (plain_engine 10 None) = (Ok r, s')).
Proof.
  split; [exact plain_uuid4_fresh|].
  destruct (@chain_short_circuit plain_backend three_plugins three_step_task
              ["first"] "second" ["third"] (plain_engine 10 None)
              (snd (@chain_prologue plain_backend three_step_task
                      (tick_clock (plain_engine 10 None))))
              (snd (@run_chain plain_backend three_plugins three_step_task
                      ["first"]
                      (@initial_execution_context three_step_task
                         [("workspace_path", JStr "/ws");
                          ("session_id", JStr "uuid-");
                          ("timestamp", JNum 1)] None)
                      PyDict.empty []
                      (snd (@chain_prologue plain_backend three_step_task
                              (tick_clock (plain_engine 10 None))))))
              (snd (@run_chain plain_backend three_plugins three_step_task
                      ["first"]
                      (@initial_execution_context three_step_task
                         [("workspace_path", JStr "/ws");
                          ("session_id", JStr "uuid-");
                          ("timestamp", JNum 1)] None)
                      PyDict.empty []
                      (snd (@chain_prologue plain_backend three_step_task
                              (tick_clock (plain_engine 10 None))))))
              (@initial_execution_context three_step_task
                 [("workspace_path", JStr "/ws");
                  ("session_id", JStr "uuid-");
                  ("timestamp", JNum 1)] None)
              (PyDict.set "first_output" (JDict [("value", JNum 1)])
                 (@initial_execution_context three_step_task
                    [("workspace_path", JStr "/ws");
                     ("session_id", JStr "uuid-");
                     ("timestamp", JNum 1)] None))
              [("first", JDict [("value", JNum 1)])]
              ["uuid-i"] (ValueError "boom")
              plain_uuid4_fresh (RAMBuffer_init_wf 10) eq_refl eq_refl
              eq_refl eq_refl eq_refl)
    as (r & s' & failure & elapsed & Hex & Hst & Herr & _ & _ & _ & _ & _ & _ & Hrest).
  exists r, s'. split; [exact Hex|]. split; [exact Hst|]. split; [exact Herr|].
  intros rest'. apply (Hrest _ rest').
  - repeat split.
  - reflexivity.
Defined.

Lemma task_result_error_iff_failed_witness :
  exists r s',
    @execute_task_chain plain_backend three_plugins
      (Task.set_plugin_chain ["first"; "third"] three_step_task)
      (plain_engine 10 None) = (Ok r, s') /\
    TaskResult.status r = COMPLETED /\
    (TaskResult.error r <> None <-> TaskResult.status r = FAILED).
Proof.
  destruct (@task_result_error_iff_failed plain_backend) as [H _].
  do 2 eexists. split; [vm_compute; reflexivity|]. split; [reflexivity|].
  eapply (H three_plugins
            (Task.set_plugin_chain ["first"; "third"] three_step_task)
            (plain_engine 10 None)).
  vm_compute. reflexivity.
Defined.

(** * More properties of the two modules *)

(** ** The cache under any run of its operations *)

Lemma evict_lru_bound b :
  RAMBuffer_wf b ->
  exists b',
    _evict_lru b = Ok b' /\ RAMBuffer_wf b' /\ max_size b' = max_size b /\
    PyDict.len (_buffer b') <= PyDict.len (_buffer b).
Proof.
  intros Hwf.
  destruct (evict_lru_spec b Hwf)
    as [[_ He]|(k & buf' & acc' & _ & Hd & _ & He & Hwf')].
  - exists b. split; [exact He|]. split; [exact Hwf|]. split; [reflexivity|lia].
  - eexists. split; [exact He|]. split; [exact Hwf'|]. split; [reflexivity|].
    simpl. apply PyDictFacts.del_len in Hd. lia.
Qed.

Lemma len_nonneg {V : Type} (d : PyDict.t V) : 0 <= PyDict.len d.
Proof. unfold PyDict.len. lia. Qed.

Lemma put_bound_any key ctx now b :
  RAMBuffer_wf b ->
  PyDict.len (_buffer b) <= Z.max (max_size b) 1 ->
  exists b',
    RAMBuffer_put key ctx now b = Ok b' /\ RAMBuffer_wf b' /\
    max_size b' = max_size b /\
    PyDict.len (_buffer b') <= Z.max (max_size b) 1.
Proof.
  intros Hwf Hlen.
  destruct (RAMBuffer_put_wf key ctx now b Hwf) as (b' & Hput & Hwf' & Hmax & _).
  exists b'. split; [exact Hput|]. split; [exact Hwf'|]. split; [exact Hmax|].
  unfold RAMBuffer_put in Hput.
  destruct (Z.geb_spec (PyDict.len (_buffer b)) (max_size b)) as [Hge|Hlt].
  - destruct (evict_lru_spec b Hwf)
      as [[Hnil He]|(k & buf' & acc' & _ & Hd & _ & He & _)];
      rewrite He in Hput; inversion Hput; subst b'; simpl.
    + rewrite (wf_acc_nil b Hwf Hnil). unfold PyDict.len. simpl. lia.
    + pose proof (PyDictFacts.len_set_le key ctx buf').
      apply PyDictFacts.del_len in Hd. lia.
  - inversion Hput; subst b'; simpl.
    pose proof (PyDictFacts.len_set_le key ctx (_buffer b)). lia.
Qed.

Lemma run_cache_ops_inv ops :
  forall b,
    RAMBuffer_wf b ->
    PyDict.len (_buffer b) <= Z.max (max_size b) 1 ->
    exists b',
      run_cache_ops ops b = Ok b' /\ RAMBuffer_wf b' /\
      max_size b' = max_size b /\
      PyDict.len (_buffer b') <= Z.max (max_size b) 1.
Proof.
  induction ops as [|op rest IH]; intros b Hwf Hlen.
  - exists b. auto.
  - assert (exists b1,
               run_cache_op op b = Ok b1 /\ RAMBuffer_wf b1 /\
               max_size b1 = max_size b /\
               PyDict.len (_buffer b1) <= Z.max (max_size b) 1)
      as (b1 & Hop & Hwf1 & Hmax1 & Hlen1).
    { destruct op as [key now|key ctx now| |]; simpl.
      - eexists. split; [reflexivity|].
        split; [now apply RAMBuffer_get_wf|].
        unfold RAMBuffer_get.
        destruct (PyDict.get key (_buffer b)); simpl; auto.
      - now apply put_bound_any.
      - destruct (evict_lru_bound b Hwf) as (b1 & H1 & H2 & H3 & H4).
        exists b1. split; [exact H1|]. split; [exact H2|].
        split; [exact H3|lia].
      - eexists. split; [reflexivity|]. split; [|split; [reflexivity|]].
        + split; simpl; [reflexivity|constructor].
        + unfold PyDict.len. simpl. lia. }
    cbn [run_cache_ops]. rewrite Hop.
    destruct (IH b1 Hwf1) as (b' & H1 & H2 & H3 & H4); [rewrite Hmax1; exact Hlen1|].
    exists b'. rewrite Hmax1 in *. auto.
Qed.

(** X1: whatever operations ([get], [put], [_evict_lru], [clear]) a
    buffer built by [RAMBuffer(N)] goes through, whatever the keys and
    the clock readings, none of them raises (the [del] statements of
    [_evict_lru] never meet a missing key), the two dictionaries keep
    the same keys in the same order, each once, and the buffer holds
    at most [max(N, 1)] entries. *)
Theorem run_cache_ops_safe (N : Z) (ops : list cache_op) :
  exists b,
    run_cache_ops ops (RAMBuffer_init N) = Ok b /\
    RAMBuffer_wf b /\
    max_size b = N /\
    PyDict.len (_buffer b) <= Z.max N 1 /\
    PyDict.len (_access_times b) = PyDict.len (_buffer b).
Proof.
  destruct (run_cache_ops_inv ops (RAMBuffer_init N) (RAMBuffer_init_wf N))
    as (b & H1 & H2 & H3 & H4).
  - unfold PyDict.len. simpl. lia.
  - exists b. simpl in *. split; [exact H1|]. split; [exact H2|].
    split; [exact H3|]. split; [exact H4|]. now apply wf_len.
Qed.

(** X2: a [put] of a key the buffer already holds, when the buffer is
    at capacity, evicts all the same. When the least recently used
    key [J] is another key, [J] is dropped although no room was
    needed, and the buffer is left one entry short of what it held;
    when it is the key itself, the entry is removed and put back at
    the end of the iteration order. In both cases the key is cached
    afterwards with the new record. *)
Theorem put_cached_key_at_capacity (key : string) (ctx : MemoryContext.t)
    (now : Z) (b : RAMBuffer) (J : string) :
  RAMBuffer_wf b ->
  PyDict.len (_buffer b) >= max_size b ->
  cached key b = true ->
  lru_key b = Some J ->
  exists b',
    RAMBuffer_put key ctx now b = Ok b' /\
    PyDict.get key (_buffer b') = Some ctx /\
    last_access key b' = Some now /\
    cached J b' = (if String.eqb J key then true else false) /\
    (J <> key ->
     PyDict.len (_buffer b') = PyDict.len (_buffer b) - 1 /\
     forall k, k <> J -> cached k b' = cached k b) /\
    (J = key ->
     PyDict.len (_buffer b') = PyDict.len (_buffer b) /\
     exists buf',
       PyDict.del key (_buffer b) = Some buf' /\
       _buffer b' = buf' ++ [(key, ctx)]).
Proof.
  intros Hwf Hlen Hc HJ.
  assert (_buffer b <> []) as Hne.
  { intros E. unfold cached, PyDict.mem in Hc. rewrite E in Hc. discriminate. }
  destruct (put_at_capacity key ctx now b Hwf Hlen Hne)
    as (k & t & buf' & acc' & Hl & _ & _ & _ & Hd & Hd' & Hput).
  rewrite HJ in Hl. inversion Hl; subst k. clear Hl.
  destruct Hwf as [Hk Hnd].
  destruct (PyDictFacts.del_NoDup _ _ _ Hd Hnd) as [Hnd' HJout].
  apply cached_iff in Hc.
  eexists. split; [exact Hput|]. simpl.
  split; [apply PyDictFacts.get_set_same|].
  split; [unfold last_access; simpl; apply PyDictFacts.get_set_same|].
  split; [|split].
  - unfold cached. simpl. destruct (String.eqb_spec J key) as [->|Hneq].
    + apply PyDictFacts.mem_true_iff. apply PyDictFacts.in_keys_set. auto.
    + apply PyDictFacts.mem_false_iff. intros Hin.
      apply PyDictFacts.in_keys_set in Hin. destruct Hin; [congruence|tauto].
  - intros Hneq.
    assert (In key (PyDict.keys buf')) as Hin.
    { eapply PyDictFacts.del_keys_other; eauto. }
    split.
    + rewrite PyDictFacts.len_set_present by exact Hin.
      now apply PyDictFacts.del_len in Hd.
    + intros k0 Hk0. unfold cached. simpl.
      destruct (PyDict.mem k0 (_buffer b)) eqn:E.
      * apply PyDictFacts.mem_true_iff. apply PyDictFacts.in_keys_set.
        right. apply PyDictFacts.mem_true_iff in E.
        eapply PyDictFacts.del_keys_other; eauto.
      * apply PyDictFacts.mem_false_iff. intros Hin0.
        apply PyDictFacts.mem_false_iff in E. apply E.
        apply PyDictFacts.in_keys_set in Hin0. destruct Hin0 as [->|Hin0]; auto.
        eapply PyDictFacts.del_in_keys; eauto.
  - intros ->. split.
    + rewrite PyDictFacts.len_set_absent by exact HJout.
      apply PyDictFacts.del_len in Hd. lia.
    + exists buf'. split; [exact Hd|]. now apply PyDictFacts.set_absent.
Qed.

Lemma put_cached_key_at_capacity_witness :
  let b := mkRAMBuffer 2
             [("a", sample_context "a"); ("b", sample_context "b")]
             [("a", 1); ("b", 2)] in
  RAMBuffer_wf b /\ PyDict.len (_buffer b) >= max_size b /\
  cached "b" b = true /\ lru_key b = Some "a" /\
  exists b',
    RAMBuffer_put "b" (sample_context "b2") 3 b = Ok b' /\
    cached "a" b' = false /\
    PyDict.len (_buffer b') = PyDict.len (_buffer b) - 1.
Proof.
  intros b.
  assert (RAMBuffer_wf b) as Hwf.
  { split; [reflexivity|]. simpl.
    repeat constructor; simpl; intuition discriminate. }
  assert (PyDict.len (_buffer b) >= max_size b) as Hlen
    by (unfold PyDict.len; simpl; lia).
  split; [exact Hwf|]. split; [exact Hlen|].
  split; [reflexivity|]. split; [reflexivity|].
  destruct (put_cached_key_at_capacity "b" (sample_context "b2") 3 b "a"
              Hwf Hlen eq_refl eq_refl)
    as (b' & Hput & _ & _ & Hout & Hother & _).
  destruct (Hother ltac:(discriminate)) as [Hl _].
  exists b'. split; [exact Hput|]. split; [exact Hout|exact Hl].
Defined.

(** ** The durable log *)

Lemma string_leb_trans a :
  forall b c,
    String.leb a b = true -> String.leb b c = true -> String.leb a c = true.
Proof.
  unfold String.leb.
  induction a as [|x a IH]; intros [|y b] [|z c]; simpl; try congruence.
  unfold Ascii.compare.
  destruct (N.compare_spec (Ascii.N_of_ascii x) (Ascii.N_of_ascii y)),
           (N.compare_spec (Ascii.N_of_ascii y) (Ascii.N_of_ascii z)),
           (N.compare_spec (Ascii.N_of_ascii x) (Ascii.N_of_ascii z));
    try congruence; try lia; eauto.
Qed.

Lemma cursor_insert_perm {V : Type} (kv : string * V) l :
  Permutation (cursor_insert kv l) (kv :: l).
Proof.
  induction l as [|kv' r IH]; simpl; auto.
  destruct (String.leb (fst kv) (fst kv')); auto.
  eapply perm_trans; [apply perm_skip; exact IH|apply perm_swap].
Qed.

Lemma lmdb_cursor_perm {V : Type} (db : PyDict.t V) :
  Permutation (lmdb_cursor db) db.
Proof.
  induction db as [|kv r IH]; simpl; auto.
  eapply perm_trans; [apply cursor_insert_perm|now apply perm_skip].
Qed.

Lemma cursor_insert_sorted {V : Type} (kv : string * V) l :
  StronglySorted (fun a b : string * V => String.leb (fst a) (fst b) = true) l ->
  StronglySorted (fun a b : string * V => String.leb (fst a) (fst b) = true)
                 (cursor_insert kv l).
Proof.
  induction l as [|kv' r IH]; simpl; intros Hs.
  - repeat constructor.
  - inversion Hs as [|? ? Hs' Hall]; subst.
    destruct (String.leb (fst kv) (fst kv')) eqn:E.
    + constructor; auto. constructor; auto.
      rewrite Forall_forall in *. intros x Hx.
      eapply string_leb_trans; eauto.
    + constructor; auto.
      rewrite Forall_forall in *. intros x Hx.
      apply (Permutation_in _ (cursor_insert_perm kv r)) in Hx.
      destruct Hx as [<-|Hx]; auto.
      destruct (String.leb_total (fst kv) (fst kv')); congruence.
Qed.

Lemma lmdb_cursor_sorted {V : Type} (db : PyDict.t V) :
  StronglySorted (fun a b : string * V => String.leb (fst a) (fst b) = true)
                 (lmdb_cursor db).
Proof.
  induction db as [|kv r IH]; simpl; [constructor|].
  now apply cursor_insert_sorted.
Qed.

Lemma StronglySorted_map {A B : Type} (f : A -> B) (R : B -> B -> Prop) l :
  StronglySorted (fun a b => R (f a) (f b)) l -> StronglySorted R (map f l).
Proof.
  induction 1 as [|a l Hs IH Hall]; simpl; constructor; auto.
  rewrite Forall_forall in *. intros y Hy. apply in_map_iff in Hy.
  destruct Hy as (x & <- & Hx). auto.
Qed.

Lemma firstn_incl {A : Type} (n : nat) (l : list A) (x : A) :
  In x (firstn n l) -> In x l.
Proof.
  intros H. rewrite <- (firstn_skipn n l). apply in_app_iff. auto.
Qed.

Section ListingFacts.
Context {W : Backend}.

(** The loop takes keys until it holds [limit] of them, and at least
    one when there is one. *)
Lemma list_contexts_loop_eq cursor limit :
  forall contexts,
    list_contexts_loop cursor limit contexts =
    contexts ++
    firstn (Z.to_nat (Z.max 1 (limit - Z.of_nat (List.length contexts))))
           (map fst cursor).
Proof.
  induction cursor as [|[key value] rest IH]; intros contexts.
  - simpl. now rewrite firstn_nil, app_nil_r.
  - cbn [list_contexts_loop map fst].
    rewrite length_app. simpl List.length.
    destruct (Z.geb_spec (Z.of_nat (List.length contexts + 1)) limit) as [Hge|Hlt].
    + replace (Z.to_nat (Z.max 1 (limit - Z.of_nat (List.length contexts))))
        with 1%nat by lia.
      reflexivity.
    + rewrite IH, length_app. simpl List.length. rewrite <- app_assoc.
      replace (Z.to_nat (Z.max 1 (limit - Z.of_nat (List.length contexts))))
        with (S (Z.to_nat
                   (Z.max 1 (limit - Z.of_nat (List.length contexts + 1)))))
        by lia.
      reflexivity.
Qed.

(** X3: [list_contexts(limit)] returns the first [max(limit, 1)] ids
    of the durable log in the order of the cursor, that is by
    increasing key: at most [limit] ids for a limit of at least one,
    and still one id for a limit of zero or less when the log is not
    empty, since the limit is tested after the id was appended. Every
    id listed is a key of the log, and with a limit no smaller than
    the number of entries every key is listed. *)
Theorem list_contexts_spec (limit : Z) (ps : PersistentStore) :
  let ids := map fst (lmdb_cursor (env_db ps)) in
  list_contexts limit ps = firstn (Z.to_nat (Z.max 1 limit)) ids /\
  Permutation ids (PyDict.keys (env_db ps)) /\
  StronglySorted (fun a b => String.leb a b = true) ids /\
  Z.of_nat (List.length (list_contexts limit ps))
  = Z.min (Z.max 1 limit) (PyDict.len (env_db ps)) /\
  (forall k, In k (list_contexts limit ps) ->
             PyDict.mem k (env_db ps) = true) /\
  (PyDict.len (env_db ps) <= Z.max 1 limit ->
   forall k, PyDict.mem k (env_db ps) = true ->
             In k (list_contexts limit ps)).
Proof.
  intros ids.
  assert (list_contexts limit ps = firstn (Z.to_nat (Z.max 1 limit)) ids) as Heq.
  { unfold list_contexts. rewrite list_contexts_loop_eq. simpl.
    now rewrite Z.sub_0_r. }
  assert (Permutation ids (PyDict.keys (env_db ps))) as Hperm.
  { unfold ids, PyDict.keys. apply Permutation_map. apply lmdb_cursor_perm. }
  assert (List.length ids = List.length (env_db ps)) as Hlen.
  { rewrite (Permutation_length Hperm). unfold PyDict.keys.
    now rewrite length_map. }
  split; [exact Heq|]. split; [exact Hperm|]. split; [|split; [|split]].
  - unfold ids. apply StronglySorted_map. apply lmdb_cursor_sorted.
  - rewrite Heq, length_firstn, Hlen. unfold PyDict.len. lia.
  - intros k Hin. rewrite Heq in Hin. apply firstn_incl in Hin.
    apply PyDictFacts.mem_true_iff. eapply Permutation_in; eauto.
  - intros Hall k Hk. rewrite Heq, firstn_all2.
    + apply PyDictFacts.mem_true_iff in Hk.
      eapply Permutation_in; [apply Permutation_sym; exact Hperm|exact Hk].
    + rewrite Hlen. unfold PyDict.len in Hall. lia.
Qed.

(** X4: what [store_context] writes, [get_context] reads back. Given
    the round trip of the JSON codec, after a [store_context] that
    returned, [get_context] of the id of the record returns the
    record, [get_context] of any other id returns what it returned
    before, and the condition of the log is unchanged; a second
    [store_context] under the same id replaces the record and adds no
    entry to the log. *)
Theorem store_context_round_trip (ctx : MemoryContext.t)
    (ps ps' : PersistentStore) :
  codec_round_trip ->
  store_context ctx ps = Ok ps' ->
  get_context (MemoryContext.id ctx) ps' = Ok (Some ctx) /\
  (forall k, k <> MemoryContext.id ctx ->
             get_context k ps' = get_context k ps) /\
  env_fault ps' = env_fault ps /\
  In (MemoryContext.id ctx) (PyDict.keys (env_db ps')) /\
  (forall ctx2,
      MemoryContext.id ctx2 = MemoryContext.id ctx ->
      exists ps2,
        store_context ctx2 ps' = Ok ps2 /\
        get_context (MemoryContext.id ctx) ps2 = Ok (Some ctx2) /\
        PyDict.keys (env_db ps2) = PyDict.keys (env_db ps')).
Proof.
  intros Hcodec. unfold store_context.
  destruct (env_fault ps) as [msg|] eqn:Ef; [discriminate|].
  intros H. inversion H; subst ps'. clear H. simpl.
  assert (forall c (db : PyDict.t bytes),
             get_context (MemoryContext.id c)
               (mkPersistentStore
                  (PyDict.set (MemoryContext.id c) (encode_context c) db) None)
             = Ok (Some c)) as Hread.
  { intros c db. unfold get_context. simpl.
    rewrite PyDictFacts.get_set_same.
    destruct (Hcodec c) as [Hd Ht]. now rewrite Ht, Hd. }
  split; [apply Hread|]. split; [|split; [reflexivity|split]].
  - intros k Hk. unfold get_context. simpl.
    rewrite PyDictFacts.get_set_other by congruence. reflexivity.
  - apply PyDictFacts.in_keys_set. auto.
  - intros ctx2 Hid. eexists. split; [reflexivity|]. simpl. split.
    + rewrite <- Hid. apply Hread.
    + apply PyDictFacts.keys_set_present. rewrite Hid.
      apply PyDictFacts.in_keys_set. auto.
Qed.

End ListingFacts.

Lemma store_context_round_trip_witness :
  @codec_round_trip plain_backend /\
  exists ps',
    @store_context plain_backend (sample_context "a")
      (@mkPersistentStore plain_backend PyDict.empty None) = Ok ps' /\
    @get_context plain_backend "a" ps' = Ok (Some (sample_context "a")).
Proof.
  split; [exact plain_codec|].
  eexists. split; [reflexivity|].
  apply (@store_context_round_trip plain_backend (sample_context "a")
           (@mkPersistentStore plain_backend PyDict.empty None) _
           plain_codec eq_refl).
Defined.

(** ** The index without ChromaDB *)

Lemma slice_to_incl {A : Type} (limit : Z) (l : list A) (x : A) :
  In x (slice_to limit l) -> In x l.
Proof.
  unfold slice_to. destruct (limit <? 0); apply firstn_incl.
Qed.

Lemma slice_to_all {A : Type} (limit : Z) (l : list A) :
  Z.of_nat (List.length l) <= limit -> slice_to limit l = l.
Proof.
  intros H. unfold slice_to.
  destruct (Z.ltb_spec limit 0); [lia|]. apply firstn_all2. lia.
Qed.

Lemma slice_to_length {A : Type} (limit : Z) (l : list A) :
  Z.of_nat (List.length (slice_to limit l))
  = if limit <? 0 then Z.max 0 (Z.of_nat (List.length l) + limit)
    else Z.min limit (Z.of_nat (List.length l)).
Proof.
  unfold slice_to. destruct (Z.ltb_spec limit 0); rewrite length_firstn; lia.
Qed.

Lemma StronglySorted_firstn {A : Type} (R : A -> A -> Prop) (n : nat) l :
  StronglySorted R l -> StronglySorted R (firstn n l).
Proof.
  revert l. induction n as [|n IH]; intros [|a l] Hs; simpl; try constructor.
  - inversion Hs; subst. auto.
  - inversion Hs as [|? ? _ Hall]; subst.
    rewrite Forall_forall in *. intros x Hx. apply Hall.
    eapply firstn_incl; eauto.
Qed.

Lemma NoDup_firstn {A : Type} (n : nat) (l : list A) :
  NoDup l -> NoDup (firstn n l).
Proof.
  revert l. induction n as [|n IH]; intros [|a l] Hnd; simpl; try constructor.
  - inversion Hnd; subst. intros Hin. apply firstn_incl in Hin. tauto.
  - inversion Hnd; subst. auto.
Qed.

Lemma NoDup_map_fst_filter {A B : Type} (f : A * B -> bool) (l : list (A * B)) :
  NoDup (map fst l) -> NoDup (map fst (filter f l)).
Proof.
  induction l as [|x r IH]; simpl; intros Hnd; [constructor|].
  inversion Hnd as [|? ? Hnot Hnd']; subst.
  destruct (f x); simpl; auto. constructor; auto.
  intros Hin. apply Hnot. apply in_map_iff in Hin.
  destruct Hin as (y & Hy & Hin). apply filter_In in Hin.
  apply in_map_iff. exists y. tauto.
Qed.

Section SimpleIndexFacts.
Context {T : TextOps}.

(** The loop collects the matches in the order of the store. *)
Lemma simple_matches_eq query items :
  forall results,
    simple_matches query items results
    = results ++ map (entry_scored query) (filter (entry_matches query) items).
Proof.
  induction items as [|[context_id data] rest IH]; intros results.
  - simpl. now rewrite app_nil_r.
  - cbn [simple_matches filter]. unfold entry_matches at 1. simpl snd.
    destruct (str_contains (str_lower query) (str_lower (entry_content data))).
    + rewrite IH, <- app_assoc. reflexivity.
    + apply IH.
Qed.

Lemma insert_by_score_perm x l : Permutation (insert_by_score x l) (x :: l).
Proof.
  induction l as [|y r IH]; simpl; auto.
  destruct (number_lt (snd x) (snd y)); auto.
  eapply perm_trans; [apply perm_skip; exact IH|apply perm_swap].
Qed.

Lemma sort_by_score_perm l : Permutation (sort_by_score l) l.
Proof.
  induction l as [|x r IH]; simpl; auto.
  eapply perm_trans; [apply insert_by_score_perm|now apply perm_skip].
Qed.

Lemma number_lt_asym :
  number_ordered ->
  forall a b, number_lt a b = true -> number_lt b a = false.
Proof.
  intros (Hirr & Htr & _) a b Hab.
  destruct (number_lt b a) eqn:E; auto.
  rewrite <- (Hirr a). symmetry. eapply Htr; eauto.
Qed.

Lemma insert_by_score_sorted x l :
  number_ordered ->
  StronglySorted (fun a b => number_lt (snd a) (snd b) = false) l ->
  StronglySorted (fun a b => number_lt (snd a) (snd b) = false)
                 (insert_by_score x l).
Proof.
  intros Hord. pose proof Hord as (Hirr & Htr & Hneg).
  induction l as [|y r IH]; simpl; intros Hs.
  - repeat constructor.
  - inversion Hs as [|? ? Hs' Hall]; subst.
    destruct (number_lt (snd x) (snd y)) eqn:E.
    + constructor; auto.
      rewrite Forall_forall in *. intros z Hz.
      apply (Permutation_in _ (insert_by_score_perm x r)) in Hz.
      destruct Hz as [<-|Hz]; auto.
      now apply number_lt_asym.
    + constructor; auto. constructor; auto.
      rewrite Forall_forall in *. intros z Hz.
      eapply Hneg; eauto.
Qed.

Lemma sort_by_score_sorted l :
  number_ordered ->
  StronglySorted (fun a b => number_lt (snd a) (snd b) = false)
                 (sort_by_score l).
Proof.
  intros Hord. induction l as [|x r IH]; simpl; [constructor|].
  now apply insert_by_score_sorted.
Qed.

(** Entries of the same score stay in the order they had. *)
Lemma insert_by_score_stable v x l :
  number_ordered ->
  filter (fun y => same_score v (snd y)) (insert_by_score x l)
  = filter (fun y => same_score v (snd y)) (x :: l).
Proof.
  intros Hord. pose proof Hord as (Hirr & Htr & Hneg).
  induction l as [|y r IH]; [reflexivity|].
  cbn [insert_by_score].
  destruct (number_lt (snd x) (snd y)) eqn:E; [|reflexivity].
  cbn [filter] in *. rewrite IH.
  destruct (same_score v (snd x)) eqn:Ex; [|reflexivity].
  destruct (same_score v (snd y)) eqn:Ey; [|reflexivity].
  exfalso. unfold same_score in Ex, Ey.
  apply andb_true_iff in Ex, Ey.
  destruct Ex as [Ex1 Ex2], Ey as [Ey1 Ey2].
  apply negb_true_iff in Ex1, Ex2, Ey1, Ey2.
  pose proof (Hneg _ _ _ Ex2 Ey1). congruence.
Qed.

Lemma sort_by_score_stable v l :
  number_ordered ->
  filter (fun y => same_score v (snd y)) (sort_by_score l)
  = filter (fun y => same_score v (snd y)) l.
Proof.
  intros Hord. induction l as [|x r IH]; [reflexivity|].
  cbn [sort_by_score fold_right]. fold (sort_by_score r).
  rewrite insert_by_score_stable by exact Hord.
  cbn [filter]. now rewrite IH.
Qed.

Lemma simple_search_similar_eq store query limit :
  simple_search_similar store query limit
  = slice_to limit (sort_by_score (simple_candidates query store)).
Proof.
  unfold simple_search_similar, simple_candidates.
  now rewrite simple_matches_eq.
Qed.

Lemma candidate_hit store query context_id :
  NoDup (PyDict.keys store) ->
  (In context_id (map fst (simple_candidates query store))
   <-> simple_hit store query context_id).
Proof.
  intros Hnd. unfold simple_candidates, simple_hit. rewrite map_map. split.
  - intros Hin. apply in_map_iff in Hin.
    destruct Hin as ([k data] & Hk & Hin). simpl in Hk. subst k.
    apply filter_In in Hin. destruct Hin as [Hin Hm].
    exists data. split; [now apply get_of_in|exact Hm].
  - intros (data & Hget & Hm). apply in_map_iff.
    exists (context_id, data). split; [reflexivity|].
    apply filter_In. split; [now apply in_of_get|exact Hm].
Qed.

Lemma search_found_hit store query limit context_id :
  NoDup (PyDict.keys store) ->
  In context_id (map fst (simple_search_similar store query limit)) ->
  simple_hit store query context_id.
Proof.
  intros Hnd Hin. apply (candidate_hit store query context_id Hnd).
  apply in_map_iff in Hin. destruct Hin as (x & Hx & Hin).
  rewrite simple_search_similar_eq in Hin. apply slice_to_incl in Hin.
  apply (Permutation_in _ (sort_by_score_perm _)) in Hin.
  apply in_map_iff. eauto.
Qed.

Lemma candidates_length query store :
  Z.of_nat (List.length (simple_candidates query store)) <= PyDict.len store.
Proof.
  unfold simple_candidates, PyDict.len. rewrite length_map.
  pose proof (filter_length_le (entry_matches query) store). lia.
Qed.

Lemma search_finds_hit store query limit context_id :
  NoDup (PyDict.keys store) ->
  PyDict.len store <= limit ->
  simple_hit store query context_id ->
  In context_id (map fst (simple_search_similar store query limit)).
Proof.
  intros Hnd Hlen Hhit. rewrite simple_search_similar_eq, slice_to_all.
  - apply (candidate_hit store query context_id Hnd) in Hhit.
    apply in_map_iff in Hhit. destruct Hhit as (x & Hx & Hin).
    apply in_map_iff. exists x. split; [exact Hx|].
    eapply Permutation_in; [apply Permutation_sym, sort_by_score_perm|exact Hin].
  - rewrite (Permutation_length (sort_by_score_perm _)).
    pose proof (candidates_length query store). lia.
Qed.

(** X5: without ChromaDB, [search_similar] returns matches only, each
    once, and all of them when the limit allows. Every id returned is
    an id of the store whose text, in lower case, contains the query in
    lower case; no id is returned twice; and with a limit no smaller
    than the number of entries of the store, every such id is
    returned. *)
Theorem simple_search_similar_hits (store : simple_store) (query : string)
    (limit : Z) :
  NoDup (PyDict.keys store) ->
  (forall context_id sc,
      In (context_id, sc) (simple_search_similar store query limit) ->
      simple_hit store query context_id) /\
  NoDup (map fst (simple_search_similar store query limit)) /\
  (PyDict.len store <= limit ->
   forall context_id,
     simple_hit store query context_id ->
     In context_id (map fst (simple_search_similar store query limit))).
Proof.
  intros Hnd. split; [|split].
  - intros context_id sc Hin.
    apply (search_found_hit store query limit context_id Hnd).
    apply in_map_iff. exists (context_id, sc). auto.
  - rewrite simple_search_similar_eq. unfold slice_to.
    assert (NoDup (map fst (sort_by_score (simple_candidates query store))))
      as Hs.
    { eapply Permutation_NoDup;
        [apply Permutation_map, Permutation_sym, sort_by_score_perm|].
      unfold simple_candidates. rewrite map_map. simpl.
      now apply NoDup_map_fst_filter. }
    destruct (limit <? 0); rewrite <- firstn_map; now apply NoDup_firstn.
  - intros Hlen context_id Hhit. now apply search_finds_hit.
Qed.

(** X6: the ranking of [search_similar]. Where [<] on the scores is a
    strict weak order, the result is a prefix, cut by the slice
    [[:limit]], of the matches ranked by decreasing score, matches of
    equal score staying in the order of the store, that is in the order
    in which their ids were first added. *)
Theorem simple_search_similar_ranked (store : simple_store) (query : string)
    (limit : Z) :
  number_ordered ->
  exists ranked,
    simple_search_similar store query limit = slice_to limit ranked /\
    Permutation ranked (simple_candidates query store) /\
    StronglySorted (fun x y => number_lt (snd x) (snd y) = false) ranked /\
    (forall v,
        filter (fun x => same_score v (snd x)) ranked
        = filter (fun x => same_score v (snd x))
                 (simple_candidates query store)) /\
    StronglySorted (fun x y => number_lt (snd x) (snd y) = false)
                   (simple_search_similar store query limit).
Proof.
  intros Hord. exists (sort_by_score (simple_candidates query store)).
  split; [apply simple_search_similar_eq|].
  split; [apply sort_by_score_perm|].
  split; [now apply sort_by_score_sorted|].
  split; [intros v; now apply sort_by_score_stable|].
  rewrite simple_search_similar_eq. unfold slice_to.
  destruct (limit <? 0); apply StronglySorted_firstn;
    now apply sort_by_score_sorted.
Qed.

(** X7: how many ids [search_similar] returns. With [h] matches in the
    store, a limit of zero or more gives [min(limit, h)] ids; a
    negative limit does not give none: the slice [[:limit]] then
    drops the last [-limit] of the ranked matches and returns the
    [max(0, h + limit)] others. *)
Theorem simple_search_similar_length (store : simple_store) (query : string)
    (limit : Z) :
  let h := Z.of_nat (List.length (filter (entry_matches query) store)) in
  Z.of_nat (List.length (simple_search_similar store query limit))
  = (if limit <? 0 then Z.max 0 (h + limit) else Z.min limit h) /\
  h <= PyDict.len store.
Proof.
  intros h. split.
  - rewrite simple_search_similar_eq, slice_to_length.
    rewrite (Permutation_length (sort_by_score_perm _)).
    unfold simple_candidates. rewrite length_map. reflexivity.
  - unfold h, PyDict.len.
    pose proof (filter_length_le (entry_matches query) store). lia.
Qed.

Lemma simple_hit_add ctx store query k :
  simple_hit (simple_add_context ctx store) query k <->
  (k = MemoryContext.id ctx /\
   str_contains (str_lower query)
     (str_lower (json_dumps (MemoryContext.content ctx))) = true) \/
  (k <> MemoryContext.id ctx /\ simple_hit store query k).
Proof.
  unfold simple_hit, simple_add_context.
  destruct (string_dec k (MemoryContext.id ctx)) as [->|Hne].
  - rewrite PyDictFacts.get_set_same. split.
    + intros (data & Hd & Hm). inversion Hd; subst data. simpl in Hm. auto.
    + intros [[_ Hm]|[Hne _]]; [|congruence].
      eexists. split; [reflexivity|exact Hm].
  - rewrite PyDictFacts.get_set_other by congruence. split.
    + intros H. right. auto.
    + intros [[He _]|[_ H]]; [congruence|exact H].
Qed.

(** X8: [add_context] changes what a search finds for the id of the
    record only. After [add_context] of a record, with a limit that
    covers the store, [search_similar] returns the id of the record
    exactly when the JSON text of its content contains the query, both
    in lower case, whatever the store held under that id before, and
    returns any other id exactly when the store before had a match
    under it; the store grows by at most one entry and its ids stay
    distinct. *)
Theorem simple_add_context_search (ctx : MemoryContext.t)
    (store : simple_store) (query : string) (limit : Z) :
  NoDup (PyDict.keys store) ->
  PyDict.len store < limit ->
  NoDup (PyDict.keys (simple_add_context ctx store)) /\
  PyDict.len (simple_add_context ctx store) <= PyDict.len store + 1 /\
  forall k,
    In k (map fst (simple_search_similar (simple_add_context ctx store)
                                         query limit)) <->
    (k = MemoryContext.id ctx /\
     str_contains (str_lower query)
       (str_lower (json_dumps (MemoryContext.content ctx))) = true) \/
    (k <> MemoryContext.id ctx /\ simple_hit store query k).
Proof.
  intros Hnd Hlen.
  assert (NoDup (PyDict.keys (simple_add_context ctx store))) as Hnd'
    by now apply PyDictFacts.NoDup_keys_set.
  assert (PyDict.len (simple_add_context ctx store) <= PyDict.len store + 1)
    as Hlen' by apply PyDictFacts.len_set_le.
  split; [exact Hnd'|]. split; [exact Hlen'|].
  intros k. rewrite <- simple_hit_add. split.
  - now apply search_found_hit.
  - apply search_finds_hit; auto. lia.
Qed.

End SimpleIndexFacts.

Lemma plain_number_ordered : @number_ordered plain_text.
Proof.
  unfold number_ordered. simpl. repeat split.
  - intros a. apply negb_false_iff. apply Qle_bool_iff. apply Qle_refl.
  - intros a b c Hab Hbc. apply negb_true_iff in Hab, Hbc.
    apply negb_true_iff. apply not_true_iff_false. intros Hca.
    apply Qle_bool_iff in Hca.
    assert (~ (b <= a)%Q) as Hba
      by (intros H; apply Qle_bool_iff in H; congruence).
    assert (~ (c <= b)%Q) as Hcb
      by (intros H; apply Qle_bool_iff in H; congruence).
    apply Qnot_le_lt in Hba, Hcb.
    apply (Qlt_irrefl a).
    eapply Qlt_le_trans; [exact Hba|].
    eapply Qle_trans; [apply Qlt_le_weak; exact Hcb|exact Hca].
  - intros a b c Hab Hbc. apply negb_false_iff in Hab, Hbc.
    apply negb_false_iff. apply Qle_bool_iff.
    apply Qle_bool_iff in Hab, Hbc. eapply Qle_trans; eauto.
Qed.

(** A store of the instance with three entries, two of which hold the
    word [git]. *)
Lemma simple_search_similar_hits_witness :
  let store :=
    @simple_add_context plain_text
      (MemoryContext.mk "c" (JDict [("t", JStr "GIT")]) [] 3 "s" None None)
      (@simple_add_context plain_text
         (MemoryContext.mk "b" (JDict [("t", JStr "other")]) [] 2 "s" None None)
         (@simple_add_context plain_text
            (MemoryContext.mk "a" (JDict [("task", JStr "git status")])
                              ["x"] 1 "s" None None)
            PyDict.empty)) in
  NoDup (PyDict.keys store) /\
  map fst (@simple_search_similar plain_text store "Git" 10) = ["c"; "a"] /\
  forall context_id sc,
    In (context_id, sc) (@simple_search_similar plain_text store "Git" 10) ->
    @simple_hit plain_text store "Git" context_id.
Proof.
  intros store.
  assert (NoDup (PyDict.keys store)) as Hnd.
  { vm_compute. repeat constructor; simpl; intuition discriminate. }
  split; [exact Hnd|]. split; [vm_compute; reflexivity|].
  exact (proj1 (@simple_search_similar_hits plain_text store "Git" 10 Hnd)).
Defined.

Lemma simple_search_similar_ranked_witness :
  @number_ordered plain_text /\
  exists ranked,
    @simple_search_similar plain_text
      (@simple_add_context plain_text
         (MemoryContext.mk "b" (JDict [("t", JStr "git")]) [] 2 "s" None None)
         (@simple_add_context plain_text
            (MemoryContext.mk "a" (JDict [("task", JStr "git status")])
                              [] 1 "s" None None)
            PyDict.empty))
      "git" 1
    = slice_to 1 ranked /\
    StronglySorted
      (fun x y => @number_lt plain_text (snd x) (snd y) = false) ranked.
Proof.
  split; [exact plain_number_ordered|].
  destruct (@simple_search_similar_ranked plain_text
              (@simple_add_context plain_text
                 (MemoryContext.mk "b" (JDict [("t", JStr "git")]) [] 2 "s"
                                   None None)
                 (@simple_add_context plain_text
                    (MemoryContext.mk "a" (JDict [("task", JStr "git status")])
                                      [] 1 "s" None None)
                    PyDict.empty))
              "git" 1 plain_number_ordered)
    as (ranked & H1 & _ & H2 & _).
  exists ranked. split; [exact H1|exact H2].
Defined.

Lemma simple_add_context_search_witness :
  NoDup (PyDict.keys (PyDict.empty : simple_store)) /\
  PyDict.len (PyDict.empty : simple_store) < 5 /\
  In "a"
     (map fst
        (@simple_search_similar plain_text
           (@simple_add_context plain_text
              (MemoryContext.mk "a" (JDict [("task", JStr "git status")])
                                [] 1 "s" None None)
              PyDict.empty)
           "STATUS" 5)).
Proof.
  assert (NoDup (PyDict.keys (PyDict.empty : simple_store))) as Hnd
    by constructor.
  assert (PyDict.len (PyDict.empty : simple_store) < 5) as Hlen
    by (unfold PyDict.len; simpl; lia).
  split; [exact Hnd|]. split; [exact Hlen|].
  destruct (@simple_add_context_search plain_text
              (MemoryContext.mk "a" (JDict [("task", JStr "git status")])
                                [] 1 "s" None None)
              PyDict.empty "STATUS" 5 Hnd Hlen) as (_ & _ & H).
  apply H. left. split; [reflexivity|vm_compute; reflexivity].
Defined.

(** ** More of the engine *)

(** A [put] that returns holds the record put, whatever the buffer. *)
Lemma put_holds_record key ctx now b b' :
  RAMBuffer_put key ctx now b = Ok b' ->
  PyDict.get key (_buffer b') = Some ctx /\ max_size b' = max_size b.
Proof.
  unfold RAMBuffer_put.
  destruct (PyDict.len (_buffer b) >=? max_size b).
  - unfold _evict_lru. destruct (lru_key b) as [k|].
    + destruct (PyDict.del k (_buffer b)); [|discriminate].
      destruct (PyDict.del k (_access_times b)); [|discriminate].
      intros H. inversion H; subst. simpl.
      split; [apply PyDictFacts.get_set_same|reflexivity].
    + intros H. inversion H; subst. simpl.
      split; [apply PyDictFacts.get_set_same|reflexivity].
  - intros H. inversion H; subst. simpl.
    split; [apply PyDictFacts.get_set_same|reflexivity].
Qed.

Lemma NoDup_draws {W : Backend} (n len : nat) :
  uuid4_fresh -> NoDup (map uuid4_draw (seq n len)).
Proof.
  intros Hfresh. revert n. induction len as [|len IH]; intros n; simpl.
  - constructor.
  - constructor; [|apply IH].
    intros Hin. apply in_map_iff in Hin. destruct Hin as (m & He & Hm).
    apply Hfresh in He. apply in_seq in Hm. lia.
Qed.

Section EngineMore.
Context {W : Backend}.

(** What a [retrieve_memory] leaves as it was. *)
Lemma retrieve_memory_keeps context_id s :
  let s' := snd (retrieve_memory context_id s) in
  persistent_store s' = persistent_store s /\
  vector_store s' = vector_store s /\
  uuid_calls s' = uuid_calls s /\
  max_size (ram_buffer s') = max_size (ram_buffer s) /\
  (RAMBuffer_wf (ram_buffer s) ->
   RAMBuffer_wf (ram_buffer s') /\
   forall k c,
     PyDict.get k (_buffer (ram_buffer s')) = Some c ->
     PyDict.get k (_buffer (ram_buffer s)) = Some c \/
     get_context k (persistent_store s) = Ok (Some c)).
Proof.
  simpl. rewrite retrieve_memory_eq.
  destruct (PyDict.get context_id (_buffer (ram_buffer s))) as [c0|] eqn:E.
  - simpl. do 3 (split; [reflexivity|]). unfold RAMBuffer_get. rewrite E. simpl.
    split; [reflexivity|]. intros Hwf. split.
    + pose proof (RAMBuffer_get_wf context_id (clock (clock_calls s))
                                   (ram_buffer s) Hwf) as H.
      unfold RAMBuffer_get in H. rewrite E in H. exact H.
    + auto.
  - destruct (get_context context_id (persistent_store s)) as [[c0|]|e] eqn:G;
      simpl; try (repeat (split; [reflexivity|]); intros Hwf; split; auto).
    destruct (RAMBuffer_put context_id c0 (clock (clock_calls s)) (ram_buffer s))
      as [b'|e] eqn:Hput; simpl.
    + do 3 (split; [reflexivity|]).
      split; [apply (put_holds_record _ _ _ _ _ Hput)|].
      intros Hwf.
      destruct (RAMBuffer_put_wf context_id c0 (clock (clock_calls s))
                  (ram_buffer s) Hwf) as (b'' & Hput' & Hwf' & _).
      rewrite Hput' in Hput. inversion Hput; subst b''. split; [exact Hwf'|].
      intros k c Hget.
      destruct (put_preserves_records _ _ _ _ _ Hwf Hput' k c Hget)
        as [[-> ->]|H]; auto.
    + repeat (split; [reflexivity|]). intros Hwf. split; auto.
Qed.

Lemma search_loop_keeps similar_ids tags limit :
  forall memories s,
    let s' := snd (search_loop similar_ids tags limit memories s) in
    persistent_store s' = persistent_store s /\
    vector_store s' = vector_store s /\
    uuid_calls s' = uuid_calls s /\
    max_size (ram_buffer s') = max_size (ram_buffer s) /\
    (RAMBuffer_wf (ram_buffer s) ->
     RAMBuffer_wf (ram_buffer s') /\
     forall k c,
       PyDict.get k (_buffer (ram_buffer s')) = Some c ->
       PyDict.get k (_buffer (ram_buffer s)) = Some c \/
       get_context k (persistent_store s) = Ok (Some c)).
Proof.
  induction similar_ids as [|[cid sc] rest IH]; intros memories s.
  - simpl. repeat (split; [reflexivity|]). intros Hwf. split; auto.
  - cbn [search_loop]. unfold bind.
    pose proof (retrieve_memory_keeps cid s) as Hr. simpl in Hr.
    destruct (retrieve_memory cid s) as [[found|e] s1]; simpl in Hr.
    2:{ exact Hr. }
    destruct Hr as (R1 & R2 & R3 & R4 & R5).
    assert (forall mem,
               let s' := snd (search_loop rest tags limit mem s1) in
               persistent_store s' = persistent_store s /\
               vector_store s' = vector_store s /\
               uuid_calls s' = uuid_calls s /\
               max_size (ram_buffer s') = max_size (ram_buffer s) /\
               (RAMBuffer_wf (ram_buffer s) ->
                RAMBuffer_wf (ram_buffer s') /\
                forall k c,
                  PyDict.get k (_buffer (ram_buffer s')) = Some c ->
                  PyDict.get k (_buffer (ram_buffer s)) = Some c \/
                  get_context k (persistent_store s) = Ok (Some c))) as Hgo.
    { intros mem. destruct (IH mem s1) as (I1 & I2 & I3 & I4 & I5).
      simpl. split; [congruence|]. split; [congruence|].
      split; [congruence|]. split; [congruence|].
      intros Hwf. destruct (R5 Hwf) as [Hwf1 Hc1].
      destruct (I5 Hwf1) as [Hwf' Hc']. split; [exact Hwf'|].
      intros k c Hget. destruct (Hc' k c Hget) as [H|H].
      - now apply Hc1.
      - right. now rewrite <- R1. }
    destruct found as [ctx|]; [|apply Hgo].
    destruct (tag_mismatch tags ctx); [apply Hgo|].
    destruct (Z.of_nat (List.length (memories ++ [ctx])) >=? limit);
      [|apply Hgo].
    simpl. exact (conj R1 (conj R2 (conj R3 (conj R4 R5)))).
Qed.

Lemma search_memories_frame_aux query tags limit s :
  let s' := snd (search_memories query tags limit s) in
  persistent_store s' = persistent_store s /\
  vector_store s' = vector_store s /\
  uuid_calls s' = uuid_calls s /\
  max_size (ram_buffer s') = max_size (ram_buffer s) /\
  (RAMBuffer_wf (ram_buffer s) ->
   RAMBuffer_wf (ram_buffer s') /\
   forall k c,
     PyDict.get k (_buffer (ram_buffer s')) = Some c ->
     PyDict.get k (_buffer (ram_buffer s)) = Some c \/
     get_context k (persistent_store s) = Ok (Some c)).
Proof.
  unfold search_memories. apply search_loop_keeps.
Qed.

(** X9: a search writes nothing but the cache. Whatever the index
    answers, [search_memories] leaves the durable log and the index as
    they were and draws no identifier; the capacity of the cache is
    unchanged, a well-formed cache stays well-formed, and every
    record the cache holds afterwards is one it held before or one
    read from the durable log under its key. *)
Theorem search_memories_frame (query : string) (tags : list string)
    (limit : Z) (s : MemoryEngine) :
  let s' := snd (search_memories query tags limit s) in
  persistent_store s' = persistent_store s /\
  vector_store s' = vector_store s /\
  uuid_calls s' = uuid_calls s /\
  max_size (ram_buffer s') = max_size (ram_buffer s) /\
  (RAMBuffer_wf (ram_buffer s) ->
   RAMBuffer_wf (ram_buffer s') /\
   forall k c,
     PyDict.get k (_buffer (ram_buffer s')) = Some c ->
     PyDict.get k (_buffer (ram_buffer s)) = Some c \/
     get_context k (persistent_store s) = Ok (Some c)).
Proof.
  apply search_memories_frame_aux.
Qed.

(** X10: a limit of zero or less does not give an empty search. The
    loop of [search_memories] tests the limit after it appended a
    record, so whatever the limit the call returns at most
    [max(limit, 1)] records: with a limit of zero or a negative limit,
    the result is empty or a single record that passes the tag
    filter. *)
Theorem search_memories_length (query : string) (tags : list string)
    (limit : Z) (s : MemoryEngine) (memories : list MemoryContext.t)
    (s' : MemoryEngine) :
  search_memories query tags limit s = (Ok memories, s') ->
  Z.of_nat (List.length memories) <= Z.max limit 1 /\
  (limit <= 0 ->
   memories = [] \/
   exists ctx, memories = [ctx] /\ tag_mismatch tags ctx = false).
Proof.
  intros H. unfold search_memories in H.
  assert (Z.of_nat (List.length memories) <= Z.max limit 1) as Hlen.
  { eapply search_loop_length_any; [|exact H]. simpl. lia. }
  split; [exact Hlen|]. intros Hlim.
  destruct memories as [|ctx [|ctx2 more]]; auto.
  - right. exists ctx. split; [reflexivity|].
    assert (Forall (fun c => tag_mismatch tags c = false) [ctx]) as Hf.
    { eapply (search_loop_sound _ tags limit
                (fun c => tag_mismatch tags c = false)); [auto|constructor|].
      exact H. }
    now inversion Hf.
  - simpl in Hlen. lia.
Qed.

(** X11: a read can be repeated. When [retrieve_memory] returned a
    record, the id is in the cache afterwards, the durable log and the
    index are as before, and the next [retrieve_memory] of the same id
    returns the same record, from the cache, leaving the records of
    the cache as they are. *)
Theorem retrieve_memory_repeatable (context_id : string) (s : MemoryEngine)
    (ctx : MemoryContext.t) (s1 : MemoryEngine) :
  retrieve_memory context_id s = (Ok (Some ctx), s1) ->
  in_cache context_id s1 = true /\
  persistent_store s1 = persistent_store s /\
  vector_store s1 = vector_store s /\
  exists s2,
    retrieve_memory context_id s1 = (Ok (Some ctx), s2) /\
    _buffer (ram_buffer s2) = _buffer (ram_buffer s1) /\
    persistent_store s2 = persistent_store s /\
    vector_store s2 = vector_store s.
Proof.
  intros H.
  assert (PyDict.get context_id (_buffer (ram_buffer s1)) = Some ctx /\
          persistent_store s1 = persistent_store s /\
          vector_store s1 = vector_store s) as (Hget & Hps & Hvs).
  { rewrite retrieve_memory_eq in H.
    destruct (PyDict.get context_id (_buffer (ram_buffer s))) as [c|] eqn:E.
    - inversion H; subst. simpl. unfold RAMBuffer_get. rewrite E. simpl. auto.
    - destruct (get_context context_id (persistent_store s)) as [[c|]|e];
        try discriminate.
      destruct (RAMBuffer_put context_id c (clock (clock_calls s))
                  (ram_buffer s)) as [b'|e] eqn:Hput; [|discriminate].
      inversion H; subst. simpl.
      split; [apply (put_holds_record _ _ _ _ _ Hput)|auto]. }
  split; [unfold in_cache, cached, PyDict.mem; now rewrite Hget|].
  split; [exact Hps|]. split; [exact Hvs|].
  rewrite retrieve_memory_eq, Hget. eexists. split; [reflexivity|].
  simpl. unfold RAMBuffer_get. rewrite Hget. simpl. auto.
Qed.

(** X12: a store that succeeds writes the three tiers. On an engine
    whose cache is well-formed and whose durable log accepts writes,
    [store_memory] returns the identifier it drew; the record it built
    from the content, the tags, the clock, the session and the
    workspace is then in the cache under that identifier, its encoding
    is in the durable log under that identifier, the index is the old
    index after [add_context] of the record, and no other entry of the
    durable log has changed; exactly one identifier was drawn. *)
Theorem store_memory_writes_all_tiers (content : json) (tags : list string)
    (s : MemoryEngine) :
  RAMBuffer_wf (ram_buffer s) ->
  env_fault (persistent_store s) = None ->
  exists ctx s',
    store_memory content tags s = (Ok (MemoryContext.id ctx), s') /\
    ctx = MemoryContext.mk (uuid4_draw (uuid_calls s)) content tags
            (clock (clock_calls s)) (engine_session_id s)
            (Some (config_workspace_path s)) (git_head s) /\
    PyDict.get (MemoryContext.id ctx) (_buffer (ram_buffer s')) = Some ctx /\
    PyDict.get (MemoryContext.id ctx) (env_db (persistent_store s'))
    = Some (encode_context ctx) /\
    vector_store s' = add_context ctx (vector_store s) /\
    (forall k, k <> MemoryContext.id ctx ->
               PyDict.get k (env_db (persistent_store s'))
               = PyDict.get k (env_db (persistent_store s))) /\
    RAMBuffer_wf (ram_buffer s') /\
    env_fault (persistent_store s') = None /\
    uuid_calls s' = S (uuid_calls s).
Proof.
  intros Hwf Hf. exists (new_context content tags s).
  rewrite store_memory_eq. cbv zeta.
  destruct (RAMBuffer_put_wf (uuid4_draw (uuid_calls s))
              (new_context content tags s) (clock (S (clock_calls s)))
              (ram_buffer s) Hwf) as (b' & Hput & Hwf' & _ & Hg & _).
  simpl. rewrite Hput. unfold store_context. simpl. rewrite Hf.
  eexists. split; [reflexivity|]. simpl.
  split; [reflexivity|]. split; [exact Hg|].
  split; [apply PyDictFacts.get_set_same|]. split; [reflexivity|].
  split; [|auto].
  intros k Hk. apply PyDictFacts.get_set_other. congruence.
Qed.

Lemma store_many_draws items :
  uuid4_fresh ->
  forall s,
    RAMBuffer_wf (ram_buffer s) ->
    env_fault (persistent_store s) = None ->
    exists s',
      store_many items s
      = (Ok (map uuid4_draw (seq (uuid_calls s) (List.length items))), s') /\
      Forall2 (fun item i =>
                 exists ctx,
                   MemoryContext.id ctx = i /\
                   MemoryContext.content ctx = fst item /\
                   MemoryContext.tags ctx = snd item /\
                   persisted ctx s')
              items (map uuid4_draw (seq (uuid_calls s) (List.length items))) /\
      grows s s'.
Proof.
  intros Hfresh. induction items as [|[c t] rest IH]; intros s Hwf Hf.
  - exists s. simpl. split; [reflexivity|]. split; [constructor|].
    apply grows_refl.
  - destruct (store_returns c t s Hwf Hf) as (s1 & Hst).
    destruct (store_persisted _ _ _ _ _ Hst) as [_ Hp].
    pose proof (grows_store Hfresh c t s) as G1. rewrite Hst in G1.
    simpl in G1. pose proof G1 as (Gwf & Gf & Gu & _).
    assert (uuid_calls s1 = S (uuid_calls s)) as Hu.
    { rewrite store_memory_eq in Hst. cbv zeta in Hst.
      destruct (RAMBuffer_put _ _ _ _); [|discriminate].
      destruct (store_context _ _); inversion Hst. reflexivity. }
    destruct (IH s1 (Gwf Hwf)) as (s' & Hsm & Hall & G2);
      [rewrite Gf; exact Hf|].
    exists s'. cbn [store_many]. unfold bind. rewrite Hst, Hsm, Hu.
    split; [reflexivity|]. split.
    + simpl. constructor.
      * exists (new_context c t s). simpl.
        repeat split; try reflexivity; apply G2; apply Hp.
      * rewrite Hu in Hall. exact Hall.
    + eapply grows_trans; eauto.
Qed.

(** X13: no store overwrites another. With identifiers that do not
    collide, on an engine whose cache is well-formed and whose durable
    log accepts writes, any number of [store_memory] in a row all
    return, their identifiers are pairwise distinct, every one of the
    records is in the durable log afterwards with its own content and
    tags, and so is every record that was persisted before. *)
Theorem store_many_distinct (items : list (json * list string))
    (s : MemoryEngine) :
  uuid4_fresh ->
  RAMBuffer_wf (ram_buffer s) ->
  env_fault (persistent_store s) = None ->
  exists ids s',
    store_many items s = (Ok ids, s') /\
    List.length ids = List.length items /\
    NoDup ids /\
    Forall2 (fun item i =>
               exists ctx,
                 MemoryContext.id ctx = i /\
                 MemoryContext.content ctx = fst item /\
                 MemoryContext.tags ctx = snd item /\
                 persisted ctx s')
            items ids /\
    (forall ctx, persisted ctx s -> persisted ctx s') /\
    RAMBuffer_wf (ram_buffer s') /\
    env_fault (persistent_store s') = None.
Proof.
  intros Hfresh Hwf Hf.
  destruct (store_many_draws items Hfresh s Hwf Hf) as (s' & Hsm & Hall & G).
  destruct G as (Gwf & Gf & _ & Gp).
  eexists. exists s'. split; [exact Hsm|].
  split; [now rewrite length_map, length_seq|].
  split; [now apply NoDup_draws|]. split; [exact Hall|].
  split; [exact Gp|]. split; [auto|]. now rewrite Gf.
Qed.

End EngineMore.

Lemma retrieve_memory_repeatable_witness :
  exists ctx s1 s2,
    @retrieve_memory plain_backend "uuid-i" plain_after_two
    = (Ok (Some ctx), s1) /\
    in_cache "uuid-i" plain_after_two = false /\
    in_cache "uuid-i" s1 = true /\
    @retrieve_memory plain_backend "uuid-i" s1 = (Ok (Some ctx), s2).
Proof.
  destruct (@retrieve_memory plain_backend "uuid-i" plain_after_two)
    as [[[ctx|]|e] s1] eqn:E; try (vm_compute in E; discriminate).
  destruct (@retrieve_memory_repeatable plain_backend "uuid-i"
              plain_after_two ctx s1 E) as (Hin & _ & _ & s2 & Hr & _).
  exists ctx, s1, s2. split; [reflexivity|]. split; [reflexivity|].
  split; [exact Hin|exact Hr].
Defined.

Lemma store_memory_writes_all_tiers_witness :
  RAMBuffer_wf (ram_buffer (plain_engine 10 None)) /\
  env_fault (persistent_store (plain_engine 10 None)) = None /\
  exists ctx s',
    @store_memory plain_backend (JDict [("note", JStr "x")]) ["t"]
                  (plain_engine 10 None) = (Ok "uuid-i", s') /\
    MemoryContext.id ctx = "uuid-i" /\
    PyDict.get "uuid-i" (env_db (persistent_store s')) = Some ctx /\
    vector_store s' = ["uuid-i"].
Proof.
  assert (RAMBuffer_wf (ram_buffer (plain_engine 10 None))) as Hwf
    by apply RAMBuffer_init_wf.
  split; [exact Hwf|]. split; [reflexivity|].
  destruct (@store_memory_writes_all_tiers plain_backend
              (JDict [("note", JStr "x")]) ["t"] (plain_engine 10 None)
              Hwf eq_refl)
    as (ctx & s' & Hst & Hctx & _ & Hd & Hv & _).
  exists ctx, s'. subst ctx. simpl in *.
  split; [exact Hst|]. split; [reflexivity|]. split; [exact Hd|exact Hv].
Defined.

Lemma store_many_distinct_witness :
  @uuid4_fresh plain_backend /\
  RAMBuffer_wf (ram_buffer (plain_engine 1 None)) /\
  exists ids s',
    @store_many plain_backend
      [(JDict [("n", JNum 1)], ["a"]); (JDict [("n", JNum 2)], ["b"]);
       (JDict [("n", JNum 3)], [])]
      (plain_engine 1 None) = (Ok ids, s') /\
    List.length ids = 3%nat /\ NoDup ids.
Proof.
  assert (RAMBuffer_wf (ram_buffer (plain_engine 1 None))) as Hwf
    by apply RAMBuffer_init_wf.
  split; [exact plain_uuid4_fresh|]. split; [exact Hwf|].
  destruct (@store_many_distinct plain_backend
              [(JDict [("n", JNum 1)], ["a"]); (JDict [("n", JNum 2)], ["b"]);
               (JDict [("n", JNum 3)], [])]
              (plain_engine 1 None) plain_uuid4_fresh Hwf eq_refl)
    as (ids & s' & H1 & H2 & H3 & _).
  exists ids, s'. auto.
Defined.

(** ** The engine over the index without ChromaDB *)

Lemma Forall2_in_r_aux {A B : Type} (R : A -> B -> Prop) l1 l2 :
  Forall2 R l1 l2 -> forall b, In b l2 -> exists a, In a l1 /\ R a b.
Proof.
  induction 1 as [|a b l1 l2 HR _ IH]; intros x Hin; [destruct Hin|].
  destruct Hin as [<-|Hin].
  - exists a. simpl. auto.
  - destruct (IH x Hin) as (a' & H1 & H2). exists a'. simpl. auto.
Qed.

Section FallbackFacts.
Context {W : Backend} {T : TextOps}.
Hypothesis Hcodec : @codec_round_trip W.
Hypothesis Hfresh : @uuid4_fresh W.

(** The index after a [store_memory]. *)
Lemma store_memory_index content tags (s : @MemoryEngine (fallback_backend W T)) :
  match fst (@store_memory (fallback_backend W T) content tags s) with
  | Ok _ =>
      @vector_store (fallback_backend W T) (snd (@store_memory (fallback_backend W T) content tags s))
      = simple_add_context (@new_context (fallback_backend W T) content tags s) (@vector_store (fallback_backend W T) s)
  | Raise _ =>
      @vector_store (fallback_backend W T) (snd (@store_memory (fallback_backend W T) content tags s)) = @vector_store (fallback_backend W T) s
  end.
Proof.
  rewrite (@store_memory_eq (fallback_backend W T)). cbv zeta.
  destruct (RAMBuffer_put _ _ _ _) as [b|e]; [|reflexivity].
  destruct (@store_context (fallback_backend W T) _ _) as [ps|e]; reflexivity.
Qed.

Lemma index_kept_event (ev : event) (s : @MemoryEngine (fallback_backend W T)) :
  index_kept s -> index_kept (@run_event (fallback_backend W T) ev s).
Proof.
  intros (Hwf & Hnd & Hall).
  assert (forall ctx, @keeps (fallback_backend W T) ctx s -> @keeps (fallback_backend W T) ctx (@run_event (fallback_backend W T) ev s))
    as Hkeep.
  { intros ctx Hk.
    apply (@keeps_run_events (fallback_backend W T) Hcodec Hfresh ctx [ev] s Hk). }
  destruct ev as [content tags|context_id|query tags limit|fault].
  - cbn [run_event].
    pose proof (store_memory_index content tags s) as Hidx.
    pose proof (@grows_store (fallback_backend W T) Hfresh content tags s) as (Gwf & _).
    specialize (Hkeep) as Hkeep'. cbn [run_event] in Hkeep'.
    destruct (@store_memory (fallback_backend W T) content tags s) as [[i|e] s'] eqn:Hst;
      simpl in Hidx, Gwf, Hkeep' |- *.
    + destruct (@store_keeps (fallback_backend W T) content tags s i s' Hwf Hst) as [-> Hnew].
      split; [auto|]. rewrite Hidx. split.
      * now apply PyDictFacts.NoDup_keys_set.
      * intros k data Hget. unfold simple_add_context in Hget.
        destruct (string_dec (MemoryContext.id (@new_context (fallback_backend W T) content tags s)) k)
          as [He|Hne].
        -- rewrite <- He in Hget. rewrite PyDictFacts.get_set_same in Hget.
           inversion Hget; subst data.
           exists (@new_context (fallback_backend W T) content tags s). simpl in *. auto.
        -- rewrite PyDictFacts.get_set_other in Hget by exact Hne.
           destruct (Hall k data Hget) as (ctx & H1 & H2 & H3).
           exists ctx. auto.
    + split; [auto|]. rewrite Hidx. split; [exact Hnd|].
      intros k data Hget.
      destruct (Hall k data Hget) as (ctx & H1 & H2 & H3). exists ctx. auto.
  - cbn [run_event] in *.
    destruct (@retrieve_memory_keeps (fallback_backend W T) context_id s) as (_ & Hv & _ & _ & Hw).
    simpl in Hv, Hw. destruct (Hw Hwf) as [Hwf' _].
    split; [exact Hwf'|]. rewrite Hv. split; [exact Hnd|].
    intros k data Hget.
    destruct (Hall k data Hget) as (ctx & H1 & H2 & H3). exists ctx. auto.
  - cbn [run_event] in *.
    destruct (@search_memories_frame_aux (fallback_backend W T) query tags limit s)
      as (_ & Hv & _ & _ & Hw).
    simpl in Hv, Hw. destruct (Hw Hwf) as [Hwf' _].
    split; [exact Hwf'|]. rewrite Hv. split; [exact Hnd|].
    intros k data Hget.
    destruct (Hall k data Hget) as (ctx & H1 & H2 & H3). exists ctx. auto.
  - cbn [run_event] in *. split; [exact Hwf|]. split; [exact Hnd|].
    intros k data Hget.
    destruct (Hall k data Hget) as (ctx & H1 & H2 & H3). exists ctx. auto.
Qed.

Lemma index_kept_events (evs : list event) :
  forall s : @MemoryEngine (fallback_backend W T), index_kept s -> index_kept (@run_events (fallback_backend W T) evs s).
Proof.
  unfold run_events.
  induction evs as [|ev evs IH]; intros s Hk; simpl; [exact Hk|].
  apply IH. now apply index_kept_event.
Qed.

Lemma index_kept_init workspace max_ram_size disk head status uuids clocks :
  index_kept (@MemoryEngine_init (fallback_backend W T) workspace max_ram_size disk PyDict.empty
                                 head status uuids clocks).
Proof.
  split; [apply RAMBuffer_init_wf|]. split; [constructor|].
  intros k data H. discriminate.
Qed.

(** The engine keeps one record at most under an id. *)
Lemma keeps_unique (a b : MemoryContext.t) (s : @MemoryEngine (fallback_backend W T)) :
  @keeps (fallback_backend W T) a s -> @keeps (fallback_backend W T) b s ->
  MemoryContext.id a = MemoryContext.id b -> a = b.
Proof.
  intros (_ & Ha & _) (_ & Hb & _) Hid.
  unfold durably_stored in Ha, Hb. rewrite Hid in Ha. rewrite Ha in Hb.
  inversion Hb as [He].
  destruct (Hcodec a) as [Da _]. destruct (Hcodec b) as [Db _].
  simpl in He. rewrite He in Da. rewrite Da in Db. now inversion Db.
Qed.

(** The candidates of a search are ids of kept records. *)
Lemma candidates_kept (s : @MemoryEngine (fallback_backend W T)) query limit cid sc :
  index_kept s ->
  In (cid, sc) (simple_search_similar (@vector_store (fallback_backend W T) s) query limit) ->
  exists ctx,
    MemoryContext.id ctx = cid /\ text_matches query ctx = true /\
    @keeps (fallback_backend W T) ctx s.
Proof.
  intros (Hwf & Hnd & Hall) Hin.
  assert (simple_hit (@vector_store (fallback_backend W T) s) query cid) as (data & Hget & Hm).
  { apply (search_found_hit _ query limit cid Hnd).
    apply in_map_iff. exists (cid, sc). auto. }
  destruct (Hall cid data Hget) as (ctx & H1 & H2 & H3).
  exists ctx. split; [exact H1|]. split; [|exact H3].
  unfold text_matches. now rewrite <- H2.
Qed.

Lemma search_loop_kept (P : MemoryContext.t -> Prop) similar_ids tags limit :
  forall memories (s : @MemoryEngine (fallback_backend W T)) result s',
    (forall cid sc,
        In (cid, sc) similar_ids ->
        exists ctx, MemoryContext.id ctx = cid /\ P ctx /\ @keeps (fallback_backend W T) ctx s) ->
    Forall P memories ->
    @search_loop (fallback_backend W T) similar_ids tags limit memories s = (Ok result, s') ->
    Forall P result.
Proof.
  induction similar_ids as [|[cid sc] rest IH];
    intros memories s result s' Hc Hm.
  - simpl. unfold ret. intros H. inversion H; subst. exact Hm.
  - cbn [search_loop]. unfold bind.
    destruct (Hc cid sc (or_introl eq_refl)) as (ctx & Hid & HP & Hk).
    destruct (@keeps_read (fallback_backend W T) Hcodec ctx s Hk) as (s1 & Hr & _).
    rewrite Hid in Hr.
    assert (forall cid' sc',
               In (cid', sc') rest ->
               exists ctx', MemoryContext.id ctx' = cid' /\ P ctx' /\
                            @keeps (fallback_backend W T) ctx' s1) as Hc1.
    { intros cid' sc' Hin.
      destruct (Hc cid' sc' (or_intror Hin)) as (ctx' & H1 & H2 & H3).
      exists ctx'. split; [exact H1|]. split; [exact H2|].
      pose proof (@keeps_retrieve (fallback_backend W T) Hcodec ctx' cid s H3) as H.
      rewrite Hr in H. exact H. }
    rewrite Hr.
    destruct (tag_mismatch tags ctx); [now apply IH|].
    assert (Forall P (memories ++ [ctx])) as Hm'
      by (apply Forall_app; split; auto).
    destruct (Z.of_nat (List.length (memories ++ [ctx])) >=? limit).
    + unfold ret. intros H. inversion H; subst. exact Hm'.
    + now apply IH.
Qed.

Lemma search_loop_all (Q : MemoryContext.t -> Prop) similar_ids limit :
  forall memories (s : @MemoryEngine (fallback_backend W T)),
    (forall cid sc,
        In (cid, sc) similar_ids ->
        exists ctx, MemoryContext.id ctx = cid /\ Q ctx /\ @keeps (fallback_backend W T) ctx s) ->
    Z.of_nat (List.length memories) + Z.of_nat (List.length similar_ids)
    <= limit ->
    exists result s',
      @search_loop (fallback_backend W T) similar_ids [] limit memories s
      = (Ok (memories ++ result), s') /\
      Forall2 (fun c ctx => MemoryContext.id ctx = fst c /\ Q ctx)
              similar_ids result.
Proof.
  induction similar_ids as [|[cid sc] rest IH]; intros memories s Hc Hlen.
  - exists [], s. rewrite app_nil_r. split; [reflexivity|constructor].
  - cbn [search_loop]. unfold bind.
    destruct (Hc cid sc (or_introl eq_refl)) as (ctx & Hid & HQ & Hk).
    destruct (@keeps_read (fallback_backend W T) Hcodec ctx s Hk) as (s1 & Hr & _).
    rewrite Hid in Hr. rewrite Hr. cbn [tag_mismatch].
    assert (forall cid' sc',
               In (cid', sc') rest ->
               exists ctx', MemoryContext.id ctx' = cid' /\ Q ctx' /\
                            @keeps (fallback_backend W T) ctx' s1) as Hc1.
    { intros cid' sc' Hin.
      destruct (Hc cid' sc' (or_intror Hin)) as (ctx' & H1 & H2 & H3).
      exists ctx'. split; [exact H1|]. split; [exact H2|].
      pose proof (@keeps_retrieve (fallback_backend W T) Hcodec ctx' cid s H3) as H.
      rewrite Hr in H. exact H. }
    simpl List.length in Hlen.
    destruct (Z.geb_spec (Z.of_nat (List.length (memories ++ [ctx]))) limit)
      as [Hge|Hlt].
    + rewrite length_app in Hge. simpl in Hge.
      destruct rest as [|c rest']; [|simpl in Hlen; lia].
      exists [ctx], s1. split; [reflexivity|].
      constructor; [simpl; auto|constructor].
    + destruct (IH (memories ++ [ctx]) s1 Hc1) as (result & s' & Hl & Hall).
      { rewrite length_app. simpl. lia. }
      exists (ctx :: result), s'. rewrite <- app_assoc in Hl.
      split; [exact Hl|]. constructor; [simpl; auto|exact Hall].
Qed.

(** X14: without ChromaDB, a search returns only records that hold
    the query. On an engine started over an empty index, after any run
    of stores, retrieves, searches and changes of condition of the
    durable log, every record [search_memories] returns has the query,
    in lower case, in the JSON text of its content, in lower case,
    given the round trip of the JSON codec and identifiers that do not
    collide. *)
Theorem fallback_search_sound (workspace : string) (max_ram_size : Z)
    (disk : @PersistentStore (fallback_backend W T)) (head : option string)
    (status : PyDict.t json) (uuids clocks : nat) (evs : list event)
    (query : string) (tags : list string) (limit : Z)
    (memories : list MemoryContext.t) (s' : @MemoryEngine (fallback_backend W T)) :
  @search_memories (fallback_backend W T) query tags limit
    (@run_events (fallback_backend W T) evs
       (@MemoryEngine_init (fallback_backend W T) workspace max_ram_size disk PyDict.empty
                           head status uuids clocks))
  = (Ok memories, s') ->
  forall ctx, In ctx memories -> text_matches query ctx = true.
Proof.
  intros H.
  pose proof (index_kept_events evs _
                (index_kept_init workspace max_ram_size disk head status
                                 uuids clocks)) as Hk.
  unfold search_memories in H.
  apply (search_loop_kept (fun ctx => text_matches query ctx = true)) in H.
  - rewrite Forall_forall in H. exact H.
  - intros cid sc Hin.
    exact (candidates_kept _ query (limit * 2) cid sc Hk Hin).
  - constructor.
Qed.

(** X15: without ChromaDB, what was stored is found, given the round
    trip of the JSON codec and identifiers that do not collide. On an
    engine started over an empty index, after any run of it, when the
    durable log accepts writes, [store_memory] of a content followed by
    [search_memories] of a query that the JSON text of the content
    contains (both in lower case), without tags and with a limit above
    the number of entries of the index, returns the new record among
    its results; every result holds the query and no id comes twice. *)
Theorem fallback_store_then_search (workspace : string) (max_ram_size : Z)
    (disk : @PersistentStore (fallback_backend W T)) (head : option string)
    (status : PyDict.t json) (uuids clocks : nat) (evs : list event)
    (content : json) (tags : list string) (query : string) (limit : Z) :
  let s := @run_events (fallback_backend W T) evs
             (@MemoryEngine_init (fallback_backend W T) workspace max_ram_size disk PyDict.empty
                                 head status uuids clocks) in
  env_fault (@persistent_store (fallback_backend W T) s) = None ->
  str_contains (str_lower query) (str_lower (json_dumps content)) = true ->
  PyDict.len (@vector_store (fallback_backend W T) s) < limit ->
  exists ctx s1 memories s2,
    @store_memory (fallback_backend W T) content tags s = (Ok (MemoryContext.id ctx), s1) /\
    MemoryContext.content ctx = content /\
    MemoryContext.tags ctx = tags /\
    @search_memories (fallback_backend W T) query [] limit s1 = (Ok memories, s2) /\
    In ctx memories /\
    NoDup (map MemoryContext.id memories) /\
    forall c, In c memories -> text_matches query c = true.
Proof.
  intros s Hf Hq Hlen.
  assert (index_kept s) as Hk.
  { apply index_kept_events. apply index_kept_init. }
  pose proof Hk as (Hwf & Hnd & _).
  destruct (@store_returns (fallback_backend W T) content tags s Hwf Hf) as (s1 & Hst).
  pose proof (index_kept_event (EvStore content tags) s Hk) as Hk1.
  cbn [run_event] in Hk1. rewrite Hst in Hk1. simpl in Hk1.
  pose proof (store_memory_index content tags s) as Hidx.
  rewrite Hst in Hidx. simpl in Hidx.
  destruct (@store_keeps (fallback_backend W T) content tags s _ s1 Hwf Hst) as [_ Hnew].
  set (ctx := @new_context (fallback_backend W T) content tags s) in *.
  pose proof Hk1 as (Hwf1 & Hnd1 & _).
  assert (PyDict.len (@vector_store (fallback_backend W T) s1) <= limit) as Hlen1.
  { rewrite Hidx. unfold simple_add_context.
    pose proof (PyDictFacts.len_set_le (MemoryContext.id ctx)
                  (mk_simple_entry (json_dumps (MemoryContext.content ctx))
                     (mk_simple_metadata (MemoryContext.id ctx)
                        (String.concat "," (MemoryContext.tags ctx))
                        (MemoryContext.timestamp ctx)
                        (MemoryContext.session_id ctx)))
                  (@vector_store (fallback_backend W T) s)) as Hle.
    lia. }
  set (cands := simple_search_similar (@vector_store (fallback_backend W T) s1) query (limit * 2)).
  assert (Z.of_nat (List.length cands) <= limit) as Hcl.
  { unfold cands. rewrite simple_search_similar_eq.
    assert (forall (l : list (string * number)),
               (List.length (slice_to (limit * 2) l) <= List.length l)%nat)
      as Hsl.
    { intros l. unfold slice_to.
      destruct (limit * 2 <? 0); rewrite length_firstn; lia. }
    pose proof (Hsl (sort_by_score
                       (simple_candidates query (@vector_store (fallback_backend W T) s1)))) as H1.
    rewrite (Permutation_length (sort_by_score_perm _)) in H1.
    pose proof (candidates_length query (@vector_store (fallback_backend W T) s1)). lia. }
  destruct (search_loop_all
              (fun c => text_matches query c = true /\
                        (MemoryContext.id c = MemoryContext.id ctx -> c = ctx))
              cands limit [] s1) as (result & s2 & Hl & Hall).
  { intros cid sc Hin.
    destruct (candidates_kept s1 query (limit * 2) cid sc Hk1 Hin)
      as (c & H1 & H2 & H3).
    exists c. split; [exact H1|]. split; [|exact H3]. split; [exact H2|].
    intros Hid. now apply (keeps_unique c ctx s1). }
  { simpl. lia. }
  exists ctx, s1, result, s2.
  split; [exact Hst|]. split; [reflexivity|]. split; [reflexivity|].
  split; [exact Hl|].
  assert (map MemoryContext.id result = map fst cands) as Hids.
  { clear - Hall. induction Hall as [|c r cs rs [H _] _ IH]; simpl;
      [reflexivity|]. now rewrite H, IH. }
  split; [|split].
  - assert (In (MemoryContext.id ctx) (map fst cands)) as Hin.
    { unfold cands. apply search_finds_hit; [exact Hnd1|lia|].
      rewrite Hidx. apply simple_hit_add. left. split; [reflexivity|exact Hq]. }
    rewrite <- Hids in Hin. apply in_map_iff in Hin.
    destruct Hin as (c & Hc & Hin).
    destruct (Forall2_in_r_aux _ _ _ Hall c Hin) as (a & _ & _ & _ & Hu).
    rewrite <- (Hu Hc). exact Hin.
  - rewrite Hids. unfold cands. rewrite simple_search_similar_eq.
    unfold slice_to.
    assert (NoDup (map fst (sort_by_score
                              (simple_candidates query (@vector_store (fallback_backend W T) s1)))))
      as Hs.
    { eapply Permutation_NoDup;
        [apply Permutation_map, Permutation_sym, sort_by_score_perm|].
      unfold simple_candidates. rewrite map_map. simpl.
      now apply NoDup_map_fst_filter. }
    destruct (limit * 2 <? 0); rewrite <- firstn_map; now apply NoDup_firstn.
  - intros c Hin.
    destruct (Forall2_in_r_aux _ _ _ Hall c Hin) as (a & _ & _ & Ht & _).
    exact Ht.
Qed.

End FallbackFacts.

(** An engine without ChromaDB after three stores, two of which hold
    the word [git]. *)
Lemma fallback_search_sound_witness :
  let out :=
    @search_memories (fallback_backend plain_backend plain_text) "Git" [] 5
      (@run_events (fallback_backend plain_backend plain_text)
         [EvStore (JDict [("task", JStr "git status")]) ["x"];
          EvStore (JDict [("t", JStr "other")]) [];
          EvStore (JDict [("t", JStr "GIT")]) []]
         (fallback_engine 5)) in
  exists memories,
    fst out = Ok memories /\
    map MemoryContext.id memories = ["uuid-iii"; "uuid-i"] /\
    forall ctx, In ctx memories -> @text_matches plain_text "Git" ctx = true.
Proof.
  intros out.
  set (memories := match fst out with Ok l => l | Raise _ => [] end).
  assert (fst out = Ok memories) as Hfst by (vm_compute; reflexivity).
  exists memories. split; [exact Hfst|].
  split; [vm_compute; reflexivity|].
  assert (out = (Ok memories, snd out)) as Hout.
  { rewrite <- Hfst. apply surjective_pairing. }
  exact (@fallback_search_sound plain_backend plain_text plain_codec
           plain_uuid4_fresh "/ws" 5
           (@mkPersistentStore (fallback_backend plain_backend plain_text)
              PyDict.empty None)
           None PyDict.empty 0%nat 0%nat
           [EvStore (JDict [("task", JStr "git status")]) ["x"];
            EvStore (JDict [("t", JStr "other")]) [];
            EvStore (JDict [("t", JStr "GIT")]) []]
           "Git" [] 5 memories (snd out) Hout).
Defined.

Lemma fallback_store_then_search_witness :
  exists ctx s1 memories s2,
    @store_memory (fallback_backend plain_backend plain_text)
      (JDict [("task", JStr "git status")]) ["x"] (fallback_engine 5)
    = (Ok (MemoryContext.id ctx), s1) /\
    MemoryContext.content ctx = JDict [("task", JStr "git status")] /\
    MemoryContext.tags ctx = ["x"] /\
    @search_memories (fallback_backend plain_backend plain_text)
      "STATUS" [] 5 s1 = (Ok memories, s2) /\
    In ctx memories /\
    NoDup (map MemoryContext.id memories) /\
    forall c, In c memories -> @text_matches plain_text "STATUS" c = true.
Proof.
  exact (@fallback_store_then_search plain_backend plain_text plain_codec
           plain_uuid4_fresh "/ws" 5
           (@mkPersistentStore (fallback_backend plain_backend plain_text)
              PyDict.empty None)
           None PyDict.empty 0%nat 0%nat []
           (JDict [("task", JStr "git status")]) ["x"] "STATUS" 5
           eq_refl
           ltac:(vm_compute; reflexivity)
           ltac:(vm_compute; reflexivity)).
Defined.

(** With a limit of [-1] the index is asked for [-2] candidates and
    answers all its matches but the last two; the search returns the
    first of them. *)
Lemma search_memories_length_witness :
  let out :=
    @search_memories (fallback_backend plain_backend plain_text) "" [] (-1)
      (@run_events (fallback_backend plain_backend plain_text)
         [EvStore (JDict [("n", JNum 1)]) [];
          EvStore (JDict [("n", JNum 2)]) [];
          EvStore (JDict [("n", JNum 3)]) []]
         (fallback_engine 5)) in
  exists memories,
    fst out = Ok memories /\
    List.length memories = 1%nat /\
    Z.of_nat (List.length memories) <= Z.max (-1) 1.
Proof.
  intros out.
  set (memories := match fst out with Ok l => l | Raise _ => [] end).
  assert (fst out = Ok memories) as Hfst by (vm_compute; reflexivity).
  exists memories. split; [exact Hfst|].
  split; [vm_compute; reflexivity|].
  assert (out = (Ok memories, snd out)) as Hout.
  { rewrite <- Hfst. apply surjective_pairing. }
  exact (proj1 (@search_memories_length
                  (fallback_backend plain_backend plain_text) "" [] (-1)
                  (@run_events (fallback_backend plain_backend plain_text)
                     [EvStore (JDict [("n", JNum 1)]) [];
                      EvStore (JDict [("n", JNum 2)]) [];
                      EvStore (JDict [("n", JNum 3)]) []]
                     (fallback_engine 5))
                  memories (snd out) Hout)).
Defined.

(** ** The plugin registry *)

Lemma registered_app plugins p :
  registered (plugins ++ [p]) = register_plugin p (registered plugins).
Proof. unfold registered. now rewrite fold_left_app. Qed.

Lemma last_named_app name plugins p :
  last_named name (plugins ++ [p])
  = if String.eqb name (PluginBase.name p) then Some p
    else last_named name plugins.
Proof.
  induction plugins as [|x r IH]; simpl.
  - reflexivity.
  - rewrite IH. destruct (String.eqb name (PluginBase.name p)); reflexivity.
Qed.

Lemma last_named_some name plugins p :
  last_named name plugins = Some p ->
  PluginBase.name p = name /\ In p plugins.
Proof.
  induction plugins as [|x r IH]; simpl; [discriminate|].
  destruct (last_named name r) as [q|].
  - intros H. inversion H; subst. destruct (IH eq_refl). auto.
  - destruct (String.eqb_spec name (PluginBase.name x)); [|discriminate].
    intros H. inversion H; subst. auto.
Qed.

Lemma last_named_in plugins p :
  In p plugins -> exists q, last_named (PluginBase.name p) plugins = Some q.
Proof.
  induction plugins as [|x r IH]; simpl; [tauto|].
  intros [->|Hin].
  - destruct (last_named (PluginBase.name p) r); eauto.
    rewrite String.eqb_refl. eauto.
  - destruct (IH Hin) as (q & ->). eauto.
Qed.

Lemma find_loop_eq capability items :
  forall matching,
    find_loop capability items matching
    = matching ++
      map fst (filter (fun kv : string * list string =>
                         existsb (String.eqb capability) (snd kv)) items).
Proof.
  induction items as [|[name caps] rest IH]; intros matching; simpl.
  - now rewrite app_nil_r.
  - destruct (existsb (String.eqb capability) caps); simpl.
    + rewrite IH, <- app_assoc. reflexivity.
    + apply IH.
Qed.

Lemma map_fst_filter {A B : Type} (f : A * B -> bool) (g : A -> bool)
    (l : list (A * B)) :
  (forall kv, In kv l -> f kv = g (fst kv)) ->
  map fst (filter f l) = filter g (map fst l).
Proof.
  induction l as [|kv r IH]; simpl; intros H; [reflexivity|].
  rewrite <- (H kv (or_introl eq_refl)).
  destruct (f kv); simpl; rewrite IH; auto.
Qed.

Lemma registered_inv (plugins : list PluginBase.t) :
  NoDup (list_plugins (registered plugins)) /\
  PyDict.keys (_capabilities (registered plugins))
  = list_plugins (registered plugins) /\
  (forall name, get_plugin name (registered plugins) = last_named name plugins) /\
  (forall name,
      PyDict.get name (_capabilities (registered plugins))
      = option_map PluginBase.get_capabilities (last_named name plugins)).
Proof.
  induction plugins as [|p plugins IH] using rev_ind.
  - split; [constructor|]. split; [reflexivity|]. split; reflexivity.
  - destruct IH as (Hnd & Hk & Hg & Hc).
    rewrite registered_app. unfold list_plugins, get_plugin in *.
    cbn [register_plugin _plugins _capabilities].
    split; [now apply PyDictFacts.NoDup_keys_set|].
    split; [now apply PyDictFacts.set_keys_sync|].
    split; intros name; rewrite last_named_app;
      destruct (String.eqb_spec name (PluginBase.name p)) as [->|Hne].
    + apply PyDictFacts.get_set_same.
    + rewrite PyDictFacts.get_set_other by congruence. apply Hg.
    + simpl. apply PyDictFacts.get_set_same.
    + rewrite PyDictFacts.get_set_other by congruence. apply Hc.
Qed.

(** X16: the registry after any registrations. Whatever plugins were
    registered, in whatever order and however often under the same
    name, [list_plugins] names each registered name once,
    [get_plugin] returns for a name the plugin registered last under
    it (and nothing for a name never registered), the capabilities the
    manager holds for a name are those of that plugin, and the two
    dictionaries of the manager have the same keys in the same
    order. *)
Theorem registered_plugins (plugins : list PluginBase.t) :
  let pm := registered plugins in
  NoDup (list_plugins pm) /\
  PyDict.keys (_capabilities pm) = list_plugins pm /\
  (forall name, get_plugin name pm = last_named name plugins) /\
  (forall name,
      PyDict.get name (_capabilities pm)
      = option_map PluginBase.get_capabilities (get_plugin name pm)) /\
  (forall name p,
      get_plugin name pm = Some p -> PluginBase.name p = name /\ In p plugins) /\
  (forall name,
      In name (list_plugins pm) <->
      exists p, In p plugins /\ PluginBase.name p = name).
Proof.
  intros pm. destruct (registered_inv plugins) as (Hnd & Hk & Hg & Hc).
  fold pm in Hnd, Hk, Hg, Hc.
  split; [exact Hnd|]. split; [exact Hk|]. split; [exact Hg|].
  split; [|split].
  - intros name. now rewrite Hc, Hg.
  - intros name p H. rewrite Hg in H. now apply last_named_some.
  - intros name. unfold list_plugins. split.
    + intros Hin. apply PyDictFacts.keys_get_some in Hin.
      destruct Hin as (p & Hp). fold (get_plugin name pm) in Hp.
      rewrite Hg in Hp. apply last_named_some in Hp. exists p. tauto.
    + intros (p & Hin & <-). destruct (last_named_in plugins p Hin) as (q & Hq).
      rewrite <- Hg in Hq. unfold get_plugin in Hq.
      eapply PyDictFacts.get_some_keys; eauto.
Qed.

(** X17: [find_plugins_by_capability] after any registrations returns
    the registered names whose plugin, the one registered last under
    the name, declares the capability: those names, each once, in the
    order of [list_plugins], that is of first registration. *)
Theorem find_plugins_by_capability_spec (plugins : list PluginBase.t)
    (capability : string) :
  let pm := registered plugins in
  find_plugins_by_capability capability pm
  = filter (fun name =>
              match get_plugin name pm with
              | Some p =>
                  existsb (String.eqb capability) (PluginBase.get_capabilities p)
              | None => false
              end)
           (list_plugins pm) /\
  NoDup (find_plugins_by_capability capability pm) /\
  (forall name,
      In name (find_plugins_by_capability capability pm) <->
      exists p,
        get_plugin name pm = Some p /\
        In capability (PluginBase.get_capabilities p)).
Proof.
  intros pm. destruct (registered_inv plugins) as (Hnd & Hk & Hg & Hc).
  fold pm in Hnd, Hk, Hg, Hc.
  assert (find_plugins_by_capability capability pm
          = filter (fun name =>
                      match get_plugin name pm with
                      | Some p =>
                          existsb (String.eqb capability)
                                  (PluginBase.get_capabilities p)
                      | None => false
                      end)
                   (list_plugins pm)) as Heq.
  { unfold find_plugins_by_capability. rewrite find_loop_eq. simpl.
    rewrite <- Hk. apply map_fst_filter.
    intros [name caps] Hin. simpl.
    assert (PyDict.get name (_capabilities pm) = Some caps) as Hget.
    { apply get_of_in; [|exact Hin]. rewrite Hk. exact Hnd. }
    rewrite Hc in Hget. rewrite Hg.
    destruct (last_named name plugins); simpl in Hget; [|discriminate].
    now inversion Hget. }
  split; [exact Heq|]. split.
  - rewrite Heq. now apply NoDup_filter.
  - intros name. rewrite Heq, filter_In. split.
    + intros [Hin H]. destruct (get_plugin name pm) as [p|]; [|discriminate].
      exists p. split; [reflexivity|]. apply existsb_exists in H.
      destruct H as (c & Hc' & He). apply String.eqb_eq in He. now subst.
    + intros (p & Hp & Hcap). rewrite Hp. split.
      * unfold list_plugins. eapply PyDictFacts.get_some_keys. exact Hp.
      * apply existsb_exists. exists capability. split; [exact Hcap|].
        apply String.eqb_refl.
Qed.

(** ** More of the chain of plugins *)

Section ChainMore.
Context {W : Backend}.

Lemma steady_refl s : steady s s.
Proof. split; auto. Qed.

Lemma steady_trans s1 s2 s3 : steady s1 s2 -> steady s2 s3 -> steady s1 s3.
Proof. intros [A1 A2] [B1 B2]. split; [auto|congruence]. Qed.

Lemma steady_tick_clock s : steady s (tick_clock s).
Proof. split; auto. Qed.

Lemma steady_store content tags s :
  steady s (snd (store_memory content tags s)).
Proof.
  rewrite store_memory_eq. cbv zeta.
  destruct (RAMBuffer_put _ _ _ _) as [b'|e] eqn:Hput.
  - assert (RAMBuffer_wf (ram_buffer s) -> RAMBuffer_wf b') as Hwf.
    { intros Hwf.
      destruct (RAMBuffer_put_wf (uuid4_draw (uuid_calls s))
                  (new_context content tags s)
                  (clock (S (clock_calls s))) (ram_buffer s) Hwf)
        as (b'' & Hput' & Hwf' & _).
      simpl in Hput. rewrite Hput' in Hput. inversion Hput; subst. auto. }
    unfold store_context. simpl.
    destruct (env_fault (persistent_store s)) eqn:Ef; simpl; split; auto.
  - simpl. split; auto.
Qed.

Lemma steady_retrieve context_id s :
  steady s (snd (retrieve_memory context_id s)).
Proof.
  destruct (retrieve_memory_keeps context_id s) as (Hps & _ & _ & _ & Hwf).
  simpl in *. split; [apply Hwf|now rewrite Hps].
Qed.

Lemma steady_store_all memories :
  forall s, steady s (snd (store_all memories s)).
Proof.
  induction memories as [|[c t] rest IH]; intros s; [apply steady_refl|].
  cbn [store_all]. unfold bind.
  pose proof (steady_store c t s) as H.
  destruct (store_memory c t s) as [[i|e] s1]; simpl in H; [|exact H].
  eapply steady_trans; [exact H|apply IH].
Qed.

Lemma steady_execute_plugin pm plugin_name parameters context s :
  steady s (snd (execute_plugin pm plugin_name parameters context s)).
Proof.
  unfold execute_plugin.
  destruct (PyDict.get plugin_name (_plugins pm)) as [p|]; [|apply steady_refl].
  destruct (negb (PluginBase.validate_parameters p parameters));
    [apply steady_refl|].
  unfold plugin_execute, bind.
  pose proof (steady_store_all (fst (PluginBase.execute p parameters context)) s)
    as H.
  destruct (store_all _ s) as [[u|e] s1]; simpl in H; [|exact H].
  destruct (snd (PluginBase.execute p parameters context)); exact H.
Qed.

Lemma steady_prologue task s : steady s (snd (chain_prologue task s)).
Proof.
  unfold chain_prologue, get_workspace_context, time_time, bind.
  destruct (str_truthy (Task.context_id task)); cbv beta iota.
  - match goal with
    | |- context [retrieve_memory ?c ?st] =>
        pose proof (steady_retrieve c st) as H;
        destruct (retrieve_memory c st) as [[r|e] s1]
    end; simpl in *;
      (eapply steady_trans; [apply steady_tick_clock|exact H]).
  - simpl. apply steady_tick_clock.
Qed.

Lemma steady_run_chain pm task chain :
  forall ec co mc s, steady s (snd (run_chain pm task chain ec co mc s)).
Proof.
  induction chain as [|name rest IH]; intros ec co mc s; [apply steady_refl|].
  cbn [run_chain].
  pose proof (steady_execute_plugin pm name (Task.parameters task) ec s) as H1.
  destruct (execute_plugin pm name (Task.parameters task) ec s)
    as [[out|e] s1]; simpl in H1; [|exact H1].
  match goal with
  | |- context [store_memory ?c ?t s1] =>
      pose proof (steady_store c t s1) as H2;
      destruct (store_memory c t s1) as [[i|e] s2]
  end; simpl in H2.
  - eapply steady_trans; [exact H1|]. eapply steady_trans; [exact H2|apply IH].
  - eapply steady_trans; eauto.
Qed.

(** On a well-formed cache over a log that rejects writes a store
    raises the error of the log. *)
Lemma store_faulty content tags s msg :
  RAMBuffer_wf (ram_buffer s) ->
  env_fault (persistent_store s) = Some msg ->
  exists s', store_memory content tags s = (Raise (LmdbError msg), s').
Proof.
  intros Hwf Hf. rewrite store_memory_eq. cbv zeta.
  destruct (RAMBuffer_put_wf (uuid4_draw (uuid_calls s))
              (new_context content tags s) (clock (S (clock_calls s)))
              (ram_buffer s) Hwf) as (b' & Hput & _).
  simpl. rewrite Hput. unfold store_context. simpl. rewrite Hf. eauto.
Qed.

Lemma store_all_returns memories :
  forall s,
    RAMBuffer_wf (ram_buffer s) -> env_fault (persistent_store s) = None ->
    exists s', store_all memories s = (Ok tt, s').
Proof.
  induction memories as [|[c t] rest IH]; intros s Hwf Hf.
  - exists s. reflexivity.
  - cbn [store_all]. unfold bind.
    destruct (store_returns c t s Hwf Hf) as (s1 & Hst).
    pose proof (steady_store c t s) as [Swf Sf]. rewrite Hst in Swf, Sf.
    simpl in Swf, Sf. rewrite Hst.
    apply IH; [auto|congruence].
Qed.

Lemma execute_plugin_returns pm parameters name context s :
  plugin_returns pm parameters name ->
  RAMBuffer_wf (ram_buffer s) -> env_fault (persistent_store s) = None ->
  exists out s', execute_plugin pm name parameters context s = (Ok out, s').
Proof.
  intros (p & Hp & Hv & Hex) Hwf Hf. unfold execute_plugin.
  rewrite Hp, Hv. simpl. unfold plugin_execute, bind.
  destruct (store_all_returns (fst (PluginBase.execute p parameters context))
              s Hwf Hf) as (s1 & Hs).
  rewrite Hs. destruct (Hex context) as (out & Hout). rewrite Hout.
  exists out, s1. reflexivity.
Qed.

Lemma run_chain_returns pm task chain :
  Forall (plugin_returns pm (Task.parameters task)) chain ->
  forall ec co mc s,
    RAMBuffer_wf (ram_buffer s) -> env_fault (persistent_store s) = None ->
    exists ec' co' mc' s',
      run_chain pm task chain ec co mc s = (Ok (ec', co'), mc', s') /\
      List.length mc' = (List.length mc + List.length chain)%nat /\
      (NoDup (PyDict.keys co) -> NoDup (PyDict.keys co')) /\
      (forall name,
          In name (PyDict.keys co') <->
          In name (PyDict.keys co) \/ In name chain).
Proof.
  intros Hall. induction Hall as [|name rest Hname _ IH];
    intros ec co mc s Hwf Hf.
  - exists ec, co, mc, s. split; [reflexivity|]. split; [simpl; lia|].
    split; [auto|]. intros name. simpl. tauto.
  - cbn [run_chain].
    destruct (execute_plugin_returns pm (Task.parameters task) name ec s
                Hname Hwf Hf) as (out & s1 & Hex).
    pose proof (steady_execute_plugin pm name (Task.parameters task) ec s)
      as [S1 F1].
    rewrite Hex in S1, F1 |- *. simpl in S1, F1.
    match goal with
    | |- context [store_memory ?c ?t s1] =>
        destruct (store_returns c t s1 (S1 Hwf)) as (s2 & Hst);
          [congruence|];
        pose proof (steady_store c t s1) as [S2 F2]
    end.
    rewrite Hst in S2, F2 |- *. simpl in S2, F2.
    destruct (IH (PyDict.set (String.append name "_output") out ec)
                 (PyDict.set name out co)
                 (mc ++ [uuid4_draw (uuid_calls s1)]) s2)
      as (ec' & co' & mc' & s' & Hrun & Hlen & Hnd & Hkeys);
      [auto|congruence|].
    exists ec', co', mc', s'. split; [exact Hrun|].
    split; [rewrite Hlen, length_app; simpl; lia|]. split.
    + intros H. apply Hnd. now apply PyDictFacts.NoDup_keys_set.
    + intros n. rewrite Hkeys, PyDictFacts.in_keys_set. simpl.
      split; intros H; intuition (subst; auto).
Qed.

Lemma prologue_returns task s :
  context_readable task s ->
  RAMBuffer_wf (ram_buffer s) ->
  exists ec0 s1, chain_prologue task (tick_clock s) = (Ok ec0, s1).
Proof.
  intros Hread Hwf.
  unfold chain_prologue, get_workspace_context, time_time, bind.
  destruct (Task.context_id task) as [cid|] eqn:Ec; simpl str_truthy.
  2:{ eexists. eexists. reflexivity. }
  destruct cid as [|c cid']; [eexists; eexists; reflexivity|].
  unfold str_truthy. cbv beta iota. rewrite retrieve_memory_eq. simpl.
  destruct (PyDict.get (String c cid') (_buffer (ram_buffer s))) as [m|].
  - eexists. eexists. reflexivity.
  - destruct (Hread _ Ec) as (found & Hg). rewrite Hg.
    destruct found as [m|]; [|eexists; eexists; reflexivity].
    destruct (RAMBuffer_put_wf (String c cid') m
                (clock (S (S (clock_calls s)))) (ram_buffer s) Hwf)
      as (b' & Hput & _).
    rewrite Hput. eexists. eexists. reflexivity.
Qed.

Lemma except_block_returns task start_time e mc s :
  RAMBuffer_wf (ram_buffer s) -> env_fault (persistent_store s) = None ->
  exists done s',
    except_block task start_time e mc s
    = (Ok (TaskResult.mk (Task.id task) FAILED None (Some (str_exn e)) done
             (Some (mc ++ [uuid4_draw (uuid_calls s)]))), s').
Proof.
  intros Hwf Hf. unfold except_block, bind, time_time.
  match goal with
  | |- context [store_memory ?c ?t (tick_clock s)] =>
      destruct (store_returns c t (tick_clock s) Hwf Hf) as (s1 & Hst)
  end.
  rewrite Hst. eexists. eexists. reflexivity.
Qed.

Lemma steady_try_block pm task start_time s :
  steady s (snd (try_block pm task start_time s)).
Proof.
  unfold try_block.
  pose proof (steady_prologue task s) as H1.
  destruct (chain_prologue task s) as [[ec|e] s1]; simpl in H1; [|exact H1].
  pose proof (steady_run_chain pm task (Task.plugin_chain task) ec
                PyDict.empty [] s1) as H2.
  destruct (run_chain pm task (Task.plugin_chain task) ec PyDict.empty [] s1)
    as [[[[ec' co]|e] mctx] s2]; simpl in H2.
  2:{ eapply steady_trans; eauto. }
  unfold bind, time_time.
  match goal with
  | |- context [store_memory ?c ?t (tick_clock s2)] =>
      pose proof (steady_store c t (tick_clock s2)) as H3;
      destruct (store_memory c t (tick_clock s2)) as [[i|e] s3]
  end; simpl in H3 |- *.
  - eapply steady_trans; [exact H1|]. eapply steady_trans; [exact H2|].
    eapply steady_trans; [apply steady_tick_clock|].
    eapply steady_trans; [exact H3|apply steady_tick_clock].
  - eapply steady_trans; [exact H1|]. eapply steady_trans; [exact H2|].
    eapply steady_trans; [apply steady_tick_clock|exact H3].
Qed.

(** A [try] block that returns stored its final record: the log
    accepted the write. *)
Lemma try_block_ok_writable pm task start_time s r mc s' :
  RAMBuffer_wf (ram_buffer s) ->
  try_block pm task start_time s = (Ok r, mc, s') ->
  env_fault (persistent_store s) = None.
Proof.
  intros Hwf. unfold try_block.
  pose proof (steady_prologue task s) as H1.
  destruct (chain_prologue task s) as [[ec|e] s1]; simpl in H1;
    [|discriminate].
  pose proof (steady_run_chain pm task (Task.plugin_chain task) ec
                PyDict.empty [] s1) as H2.
  destruct (run_chain pm task (Task.plugin_chain task) ec PyDict.empty [] s1)
    as [[[[ec' co]|e] mctx] s2]; simpl in H2; [|discriminate].
  destruct (steady_trans _ _ _ H1 H2) as [Swf Sf].
  unfold bind, time_time.
  destruct (env_fault (persistent_store s)) as [msg|] eqn:Ef; [|reflexivity].
  match goal with
  | |- context [store_memory ?c ?t (tick_clock s2)] =>
      destruct (store_faulty c t (tick_clock s2) msg (Swf Hwf) Sf) as (s3 & Hst)
  end.
  rewrite Hst. discriminate.
Qed.

(** X18: an exception leaves [execute_task_chain] exactly when the
    durable log rejects writes. On an engine whose cache is
    well-formed: while the log accepts writes the call returns a
    result, whatever the task, the plugins and what they raise; when
    the log rejects writes with a message, the handler of the [try]
    block fails in turn to store its record and the call raises the
    error of the log, which [_handle_task_completion] records as a
    failed result with that message, no output, a zero execution time
    and no list of records. *)
Theorem execute_task_chain_raises (pm : PluginManager) (task : Task.t)
    (s : MemoryEngine) :
  RAMBuffer_wf (ram_buffer s) ->
  match env_fault (persistent_store s) with
  | None => exists r s', execute_task_chain pm task s = (Ok r, s')
  | Some msg =>
      exists s',
        execute_task_chain pm task s = (Raise (LmdbError msg), s') /\
        forall q,
          get_result (Task.id task)
            (_handle_task_completion (Task.id task)
               (fst (execute_task_chain pm task s)) q)
          = Some (TaskResult.mk (Task.id task) FAILED None (Some msg) 0 None)
  end.
Proof.
  intros Hwf.
  assert (RAMBuffer_wf (ram_buffer (tick_clock s))) as Hwf0 by exact Hwf.
  pose proof (steady_try_block pm task (clock (clock_calls s)) (tick_clock s))
    as [Swf Sf].
  pose proof (try_block_ok_writable pm task (clock (clock_calls s))
                (tick_clock s)) as Hok.
  unfold execute_task_chain.
  destruct (try_block pm task (clock (clock_calls s)) (tick_clock s))
    as [[[r|e] mc] s1] eqn:Et; simpl in Swf, Sf.
  - pose proof (Hok r mc s1 Hwf0 eq_refl) as Hn. simpl in Hn.
    rewrite Hn. eauto.
  - simpl in Sf. destruct (env_fault (persistent_store s)) as [msg|] eqn:Ef.
    + unfold except_block, bind, time_time.
      match goal with
      | |- context [store_memory ?c ?t (tick_clock s1)] =>
          destruct (store_faulty c t (tick_clock s1) msg (Swf Hwf0) Sf)
            as (s2 & Hst)
      end.
      rewrite Hst. eexists. split; [reflexivity|].
      intros q. simpl. unfold get_result, add_result. simpl.
      destruct (PyDict.del _ _); simpl; apply PyDictFacts.get_set_same.
    + destruct (except_block_returns task (clock (clock_calls s)) e mc s1
                  (Swf Hwf0) Sf) as (done & s' & Hex).
      rewrite Hex. eauto.
Qed.

End ChainMore.

Lemma execute_task_chain_raises_witness :
  RAMBuffer_wf (ram_buffer (plain_engine 10 (Some "MDB_MAP_FULL"))) /\
  exists s',
    @execute_task_chain plain_backend three_plugins three_step_task
                        (plain_engine 10 (Some "MDB_MAP_FULL"))
    = (Raise (LmdbError "MDB_MAP_FULL"), s').
Proof.
  assert (RAMBuffer_wf (ram_buffer (plain_engine 10 (Some "MDB_MAP_FULL"))))
    as Hwf by apply RAMBuffer_init_wf.
  split; [exact Hwf|].
  destruct (@execute_task_chain_raises plain_backend three_plugins
              three_step_task (plain_engine 10 (Some "MDB_MAP_FULL")) Hwf)
    as (s' & H & _).
  exists s'. exact H.
Defined.

Section ChainOutcomes.
Context {W : Backend}.

(** X19: a chain whose plugins all return completes. With identifiers
    that do not collide, on an engine whose cache is well-formed and
    whose durable log accepts writes, when the record of the task can
    be read and every plugin of the chain is registered, accepts the
    parameters and returns, [execute_task_chain] returns a result of
    status completed, without error, whose output has one entry per
    distinct plugin name of the chain; the result lists one record id
    per step of the chain, in order, each persisted with the name of
    its plugin, followed by the id of the final record, which is
    persisted with the task id, the status, the whole output and the
    elapsed time, under the tags [task], [completed] and the name of
    the task. An empty chain completes with an empty output and the
    final record alone. *)
Theorem chain_completes (pm : PluginManager) (task : Task.t)
    (s : MemoryEngine) :
  uuid4_fresh ->
  RAMBuffer_wf (ram_buffer s) ->
  env_fault (persistent_store s) = None ->
  context_readable task s ->
  Forall (plugin_returns pm (Task.parameters task)) (Task.plugin_chain task) ->
  exists r s' chain_output mctx final elapsed,
    execute_task_chain pm task s = (Ok r, s') /\
    TaskResult.task_id r = Task.id task /\
    TaskResult.status r = COMPLETED /\
    TaskResult.error r = None /\
    TaskResult.output r = Some chain_output /\
    TaskResult.memory_contexts r = Some (mctx ++ [MemoryContext.id final]) /\
    List.length mctx = List.length (Task.plugin_chain task) /\
    NoDup (PyDict.keys chain_output) /\
    (forall name,
        In name (PyDict.keys chain_output) <->
        In name (Task.plugin_chain task)) /\
    Forall2 (fun name i =>
               exists ctx out step,
                 MemoryContext.id ctx = i /\ persisted ctx s' /\
                 step_record task name out step ctx)
            (Task.plugin_chain task) mctx /\
    persisted final s' /\
    MemoryContext.content final
    = JDict [("task_id", JStr (Task.id task));
             ("status", JStr "completed");
             ("final_output", JDict chain_output);
             ("execution_time", JNum elapsed)] /\
    MemoryContext.tags final = ["task"; "completed"; Task.name task].
Proof.
  intros Hfresh Hwf Hf Hread Hall.
  destruct (prologue_returns task s Hread Hwf) as (ec0 & s1 & Hpro).
  pose proof (steady_prologue task (tick_clock s)) as [S1 F1].
  rewrite Hpro in S1, F1. simpl in S1, F1.
  destruct (run_chain_returns pm task (Task.plugin_chain task) Hall ec0
              PyDict.empty [] s1 (S1 Hwf))
    as (ec1 & cout & mctx & s2 & Hrun & Hlen & Hnd & Hkeys);
    [congruence|].
  pose proof (steady_run_chain pm task (Task.plugin_chain task) ec0
                PyDict.empty [] s1) as [S2 F2].
  rewrite Hrun in S2, F2. simpl in S2, F2.
  set (start := clock (clock_calls s)).
  set (elapsed := clock (clock_calls s2) - start).
  destruct (store_returns (final_context task cout elapsed)
              ["task"; "completed"; Task.name task] (tick_clock s2))
    as (s3 & Hst); [exact (S2 (S1 Hwf))|simpl; congruence|].
  destruct (store_persisted _ _ _ _ _ Hst) as [_ Hp3].
  pose proof (grows_store Hfresh (final_context task cout elapsed)
                ["task"; "completed"; Task.name task] (tick_clock s2)) as G3.
  rewrite Hst in G3. simpl in G3.
  assert (grows s2 (tick_clock s3)) as G.
  { eapply grows_trans; [apply grows_tick_clock|].
    eapply grows_trans; [exact G3|apply grows_tick_clock]. }
  destruct (run_chain_records Hfresh pm task (Task.plugin_chain task)
              _ _ _ _ _ _ _ _ Hrun) as (ids & Hids & Hrec & _).
  simpl in Hids. subst ids.
  exists (TaskResult.mk (Task.id task) COMPLETED (Some cout) None
            (clock (clock_calls s3) - start)
            (Some (mctx ++ [uuid4_draw (uuid_calls s2)]))),
    (tick_clock s3), cout, mctx,
    (new_context (final_context task cout elapsed)
                 ["task"; "completed"; Task.name task] (tick_clock s2)),
    elapsed.
  split.
  { unfold execute_task_chain, try_block. fold start.
    rewrite Hpro, Hrun. unfold bind, time_time. fold elapsed.
    rewrite Hst. reflexivity. }
  do 5 (split; [reflexivity|]).
  split; [simpl in Hlen; exact Hlen|].
  split; [apply Hnd; constructor|].
  split.
  { intros name. rewrite Hkeys. simpl. tauto. }
  destruct G as (_ & _ & _ & Gp).
  split.
  { eapply Forall2_weaken; [|exact Hrec].
    intros name i (ctx & out & step & H1 & H2 & H3).
    exists ctx, out, step. auto. }
  split; [apply (proj2 (proj2 (proj2 (grows_tick_clock s3)))); exact Hp3|].
  split; reflexivity.
Qed.

(** X20: a chain that names a plugin the manager does not know, or
    whose parameters a plugin rejects, fails at that step with the
    message of [execute_plugin]. On an engine whose cache is
    well-formed and whose durable log accepts writes, when the record
    of the task can be read and the plugins before [K] in the chain
    return: when [K] is not registered, the
    result is failed with the error [Plugin 'K' not found]; when [K]
    is registered and its [validate_parameters] rejects the
    parameters, the result is failed with the error
    [Invalid parameters for plugin 'K']. In both cases the result has
    no output, and its list of record ids holds one id per step before
    [K] and one more after them. *)
Theorem chain_plugin_rejected (pm : PluginManager) (task : Task.t)
    (pre : list string) (K : string) (rest : list string)
    (s : MemoryEngine) :
  RAMBuffer_wf (ram_buffer s) ->
  env_fault (persistent_store s) = None ->
  context_readable task s ->
  Task.plugin_chain task = pre ++ K :: rest ->
  Forall (plugin_returns pm (Task.parameters task)) pre ->
  (get_plugin K pm = None \/
   exists plugin,
     get_plugin K pm = Some plugin /\
     PluginBase.validate_parameters plugin (Task.parameters task) = false) ->
  exists r s' mctx failure_id,
    execute_task_chain pm task s = (Ok r, s') /\
    TaskResult.status r = FAILED /\
    TaskResult.output r = None /\
    TaskResult.error r
    = Some (match get_plugin K pm with
            | None => String.append "Plugin '" (String.append K "' not found")
            | Some _ =>
                String.append "Invalid parameters for plugin '"
                              (String.append K "'")
            end) /\
    TaskResult.memory_contexts r = Some (mctx ++ [failure_id]) /\
    List.length mctx = List.length pre.
Proof.
  intros Hwf Hf Hread Hchain Hall HK.
  destruct (prologue_returns task s Hread Hwf) as (ec0 & s1 & Hpro).
  pose proof (steady_prologue task (tick_clock s)) as [S1 F1].
  rewrite Hpro in S1, F1. simpl in S1, F1.
  destruct (run_chain_returns pm task pre Hall ec0 PyDict.empty [] s1 (S1 Hwf))
    as (ec1 & cout & mctx & s2 & Hrun & Hlen & _ & _); [congruence|].
  pose proof (steady_run_chain pm task pre ec0 PyDict.empty [] s1) as [S2 F2].
  rewrite Hrun in S2, F2. simpl in S2, F2.
  set (msg := match get_plugin K pm with
              | None => String.append "Plugin '" (String.append K "' not found")
              | Some _ =>
                  String.append "Invalid parameters for plugin '"
                                (String.append K "'")
              end).
  assert (execute_plugin pm K (Task.parameters task) ec1 s2
          = (Raise (ValueError msg), s2)) as Hex.
  { unfold execute_plugin, msg, get_plugin in *.
    destruct HK as [HK|(p & HK & Hv)]; rewrite HK.
    - reflexivity.
    - rewrite Hv. reflexivity. }
  rewrite (execute_raises pm task pre K rest s ec0 s1 ec1 cout mctx s2
             (ValueError msg) s2 Hchain Hpro Hrun Hex).
  destruct (except_block_returns task (clock (clock_calls s)) (ValueError msg)
              mctx s2 (S2 (S1 Hwf))) as (done & s' & Hexc); [congruence|].
  rewrite Hexc. eexists. exists s', mctx. eexists.
  split; [reflexivity|]. simpl.
  do 4 (split; [reflexivity|]). simpl in Hlen. exact Hlen.
Qed.

End ChainOutcomes.

Lemma chain_completes_witness :
  @uuid4_fresh plain_backend /\
  RAMBuffer_wf (ram_buffer (plain_engine 10 None)) /\
  @context_readable plain_backend
    (Task.set_plugin_chain ["first"; "third"; "first"] three_step_task)
    (plain_engine 10 None) /\
  exists r s' chain_output (mctx : list string),
    @execute_task_chain plain_backend three_plugins
      (Task.set_plugin_chain ["first"; "third"; "first"] three_step_task)
      (plain_engine 10 None) = (Ok r, s') /\
    TaskResult.status r = COMPLETED /\
    TaskResult.output r = Some chain_output /\
    List.length mctx = 3%nat /\
    NoDup (PyDict.keys chain_output).
Proof.
  assert (RAMBuffer_wf (ram_buffer (plain_engine 10 None))) as Hwf
    by apply RAMBuffer_init_wf.
  assert (@context_readable plain_backend
            (Task.set_plugin_chain ["first"; "third"; "first"] three_step_task)
            (plain_engine 10 None)) as Hread.
  { intros cid H. discriminate. }
  split; [exact plain_uuid4_fresh|]. split; [exact Hwf|]. split; [exact Hread|].
  assert (forall name,
             In name ["first"; "third"] ->
             @plugin_returns three_plugins (JDict []) name) as Hp.
  { intros name [<-|[<-|[]]].
    - exists (constant_plugin "first" 1).
      split; [reflexivity|]. split; [reflexivity|].
      intros context. eexists. reflexivity.
    - exists (constant_plugin "third" 3).
      split; [reflexivity|]. split; [reflexivity|].
      intros context. eexists. reflexivity. }
  destruct (@chain_completes plain_backend three_plugins
              (Task.set_plugin_chain ["first"; "third"; "first"] three_step_task)
              (plain_engine 10 None) plain_uuid4_fresh Hwf eq_refl Hread)
    as (r & s' & cout & mctx & final & elapsed & H1 & _ & H2 & _ & H3 & _ & H4
        & H5 & _).
  { simpl. repeat constructor; apply Hp; simpl; auto. }
  exists r, s', cout, mctx. auto.
Defined.

Lemma chain_plugin_rejected_witness :
  exists r s',
    @execute_task_chain plain_backend three_plugins
      (Task.set_plugin_chain ["first"; "missing"; "third"] three_step_task)
      (plain_engine 10 None) = (Ok r, s') /\
    TaskResult.status r = FAILED /\
    TaskResult.error r = Some "Plugin 'missing' not found".
Proof.
  assert (RAMBuffer_wf (ram_buffer (plain_engine 10 None))) as Hwf
    by apply RAMBuffer_init_wf.
  destruct (@chain_plugin_rejected plain_backend three_plugins
              (Task.set_plugin_chain ["first"; "missing"; "third"]
                                     three_step_task)
              ["first"] "missing" ["third"] (plain_engine 10 None)
              Hwf eq_refl)
    as (r & s' & mctx & fid & H1 & H2 & _ & H3 & _).
  - intros cid H. discriminate.
  - reflexivity.
  - repeat constructor. exists (constant_plugin "first" 1).
    split; [reflexivity|]. split; [reflexivity|].
    intros context. eexists. reflexivity.
  - left. reflexivity.
  - exists r, s'. split; [exact H1|]. split; [exact H2|exact H3].
Defined.

(** ** The status of a task *)

Section StatusFacts.
Context {W : Backend}.

Lemma chain_result_final pm task s r s' :
  execute_task_chain pm task s = (Ok r, s') ->
  result_final r /\ TaskResult.task_id r = Task.id task.
Proof.
  unfold execute_task_chain.
  destruct (try_block pm task (clock (clock_calls s)) (tick_clock s))
    as [[[r0|e] mc] s1] eqn:Et.
  - intros H. inversion H; subst.
    destruct (try_block_ok _ _ _ _ _ _ _ Et) as (H0 & H1 & H2 & _).
    split; [left; auto|exact H0].
  - intros H. destruct (except_block_ok _ _ _ _ _ _ _ H) as (H0 & H1 & H2 & _).
    split; [right; split; [exact H1|congruence]|exact H0].
Qed.

(** What [_handle_task_completion] records for a chain. *)
Lemma handled_result pm task s q :
  exists r,
    _handle_task_completion (Task.id task)
      (fst (execute_task_chain pm task s)) q = add_result r q /\
    result_final r /\ TaskResult.task_id r = Task.id task.
Proof.
  unfold _handle_task_completion.
  destruct (execute_task_chain pm task s) as [[r|e] s'] eqn:E; simpl.
  - exists r. split; [reflexivity|]. eapply chain_result_final; eauto.
  - eexists. split; [reflexivity|]. simpl. split; [|reflexivity].
    right. simpl. split; [reflexivity|discriminate].
Qed.

Lemma add_result_spec r q :
  NoDup (PyDict.keys (_running q)) ->
  NoDup (PyDict.keys (_running (add_result r q))) /\
  is_running (TaskResult.task_id r) (add_result r q) = false /\
  get_result (TaskResult.task_id r) (add_result r q) = Some r /\
  (forall id, id <> TaskResult.task_id r ->
              get_result id (add_result r q) = get_result id q /\
              is_running id (add_result r q) = is_running id q).
Proof.
  intros Hnd. unfold add_result, is_running, get_result.
  destruct (PyDict.del (TaskResult.task_id r) (_running q)) as [d|] eqn:E;
    simpl.
  - destruct (PyDictFacts.del_NoDup _ _ _ E Hnd) as [Hnd' Hout].
    split; [exact Hnd'|]. split; [now apply PyDictFacts.mem_false_iff|].
    split; [apply PyDictFacts.get_set_same|].
    intros id Hne. split.
    + apply PyDictFacts.get_set_other. congruence.
    + unfold PyDict.mem.
      now rewrite (PyDictFacts.del_get_other _ _ _ _ E Hne).
  - split; [exact Hnd|]. split.
    + apply PyDictFacts.mem_false_iff. now apply PyDictFacts.del_none.
    + split; [apply PyDictFacts.get_set_same|].
      intros id Hne. split; [|reflexivity].
      apply PyDictFacts.get_set_other. congruence.
Qed.

Lemma queue_history_inv q :
  queue_history q ->
  NoDup (PyDict.keys (_running q)) /\
  (forall id r,
      get_result id q = Some r ->
      result_final r /\ TaskResult.task_id r = id).
Proof.
  induction 1 as [|task q _ IH|q q' r _ IH Hg|task q _ IH|pm task s q _ IH].
  - split; [constructor|]. intros id r H. discriminate.
  - destruct (add_task_frame task q) as (_ & Hr & Hs).
    unfold get_result. now rewrite Hr, Hs.
  - destruct (get_next_task_frame _ _ _ Hg) as (_ & Hr & Hs).
    unfold get_result. now rewrite Hr, Hs.
  - destruct IH as [Hnd Hres]. split; [|exact Hres].
    simpl. now apply PyDictFacts.NoDup_keys_set.
  - destruct IH as [Hnd Hres].
    destruct (handled_result pm task s q) as (r & -> & Hfin & Hid).
    destruct (add_result_spec r q Hnd) as (Hnd' & _ & Hget & Hother).
    split; [exact Hnd'|]. intros id r0 H.
    destruct (string_dec id (TaskResult.task_id r)) as [->|Hne].
    + rewrite Hget in H. inversion H; subst. auto.
    + destruct (Hother id Hne) as [Ho _]. rewrite Ho in H. now apply Hres.
Qed.

(** X21: the statuses an agent reports. After any history of
    submissions, polls of the executor loop, starts and completions,
    [get_task_status] answers nothing, running, completed or failed,
    never pending nor cancelled: a task that was submitted and has not
    started has no status, since a submission changes the status of no
    id. A task just started is reported running. When the completion
    of a chain is handled the task is no longer running and
    its status is that of the result recorded, completed without
    error or failed with one; every result is recorded under its own
    task id, and no id is twice in the running set. *)
Theorem task_status_lifecycle (q : TaskQueue) :
  queue_history q ->
  NoDup (PyDict.keys (_running q)) /\
  (forall id r,
      get_result id q = Some r ->
      result_final r /\ TaskResult.task_id r = id) /\
  (forall a id,
      task_queue a = q ->
      get_task_status id a = None \/
      get_task_status id a = Some RUNNING \/
      get_task_status id a = Some COMPLETED \/
      get_task_status id a = Some FAILED) /\
  (forall a a' task id,
      task_queue a = q -> task_queue a' = snd (add_task task q) ->
      get_task_status id a' = get_task_status id a) /\
  (forall a task,
      task_queue a = add_running_task (Task.id task) task q ->
      get_task_status (Task.id task) a = Some RUNNING) /\
  (forall a pm task s,
      task_queue a
      = _handle_task_completion (Task.id task)
          (fst (execute_task_chain pm task s)) q ->
      is_running (Task.id task) (task_queue a) = false /\
      exists r,
        get_task_result (Task.id task) a = Some r /\
        get_task_status (Task.id task) a = Some (TaskResult.status r) /\
        result_final r).
Proof.
  intros Hq. destruct (queue_history_inv q Hq) as [Hnd Hres].
  split; [exact Hnd|]. split; [exact Hres|]. split; [|split; [|split]].
  - intros a id Ha. unfold get_task_status. rewrite Ha.
    destruct (is_running id q); auto.
    destruct (get_result id q) as [r|] eqn:E; auto.
    destruct (Hres id r E) as [[[-> _]|[-> _]] _]; auto.
  - intros a a' task id Ha Ha'. unfold get_task_status, is_running, get_result.
    destruct (add_task_frame task q) as (_ & Hr & Hs).
    rewrite Ha, Ha', Hr, Hs. reflexivity.
  - intros a task Ha. unfold get_task_status, is_running. rewrite Ha. simpl.
    unfold PyDict.mem. now rewrite PyDictFacts.get_set_same.
  - intros a pm task s Ha.
    destruct (handled_result pm task s q) as (r & He & Hfin & Hid).
    rewrite He in Ha.
    destruct (add_result_spec r q Hnd) as (_ & Hrun & Hget & _).
    rewrite Hid in Hrun, Hget. rewrite Ha. split; [exact Hrun|].
    exists r. unfold get_task_result, get_task_status. rewrite Ha, Hrun, Hget.
    auto.
Qed.

End StatusFacts.

Lemma task_status_lifecycle_witness :
  let q := add_running_task "t" (sample_task "t" 3 0)
             (mkTaskQueue 3 [] PyDict.empty PyDict.empty) in
  let a := @mkTaskAgent plain_backend (plain_engine 10 None) three_plugins
             (_handle_task_completion "t"
                (fst (@execute_task_chain plain_backend three_plugins
                        (sample_task "t" 3 0) (plain_engine 10 None)))
                q)
             true in
  @queue_history plain_backend q /\
  is_running "t" q = true /\
  is_running "t" (task_queue a) = false /\
  @get_task_status plain_backend "t" a = Some COMPLETED.
Proof.
  intros q a.
  assert (@queue_history plain_backend q) as Hq.
  { apply (@history_start plain_backend (sample_task "t" 3 0)).
    apply (@history_poll plain_backend
             (snd (add_task (sample_task "t" 3 0)
                            (TaskQueue_init default_max_concurrent)))
             (mkTaskQueue 3 [] PyDict.empty PyDict.empty)
             (Ok (Some (sample_task "t" 3 0)))).
    - apply history_submit. apply history_init.
    - reflexivity. }
  split; [exact Hq|]. split; [reflexivity|].
  destruct (@task_status_lifecycle plain_backend q Hq)
    as (_ & _ & _ & _ & _ & Hdone).
  destruct (Hdone a three_plugins (sample_task "t" 3 0) (plain_engine 10 None)
              eq_refl) as (Hrun & r & Hres & Hst & _).
  split; [exact Hrun|]. vm_compute. reflexivity.
Defined.

(** ** The history of tasks *)

Section HistoryFacts.
Context {W : Backend}.

(** X22: [search_task_history] returns records of tasks only. Every
    record it returns carries the tag [task]; it returns at most
    [max(limit, 1)] records and, like any search, leaves the durable
    log and the index as they were. *)
Theorem search_task_history_tagged (query : string) (limit : Z)
    (s : MemoryEngine) (memories : list MemoryContext.t) (s' : MemoryEngine) :
  search_task_history query limit s = (Ok memories, s') ->
  (forall ctx, In ctx memories -> In "task" (MemoryContext.tags ctx)) /\
  Z.of_nat (List.length memories) <= Z.max limit 1 /\
  persistent_store s' = persistent_store s /\
  vector_store s' = vector_store s.
Proof.
  intros H. unfold search_task_history in H.
  pose proof (search_memories_frame_aux query ["task"] limit s) as Hfr.
  rewrite H in Hfr. simpl in Hfr. destruct Hfr as (Hps & Hvs & _).
  unfold search_memories in H. split; [|split; [|auto]].
  - apply (search_loop_sound _ ["task"] limit
             (fun ctx => In "task" (MemoryContext.tags ctx))) in H.
    + rewrite Forall_forall in H. exact H.
    + intros ctx Hm. unfold tag_mismatch in Hm. apply negb_false_iff in Hm.
      cbn [existsb] in Hm. rewrite orb_false_r in Hm.
      apply existsb_exists in Hm.
      destruct Hm as (t & Hin & He). apply String.eqb_eq in He. now subst.
    + constructor.
  - eapply search_loop_length_any; [|exact H]. simpl. lia.
Qed.

End HistoryFacts.

Lemma search_task_history_tagged_witness :
  let out := @search_task_history plain_backend "n" 5 plain_three_tagged in
  exists memories,
    fst out = Ok memories /\
    List.length memories = 2%nat /\
    forall ctx, In ctx memories -> In "task" (MemoryContext.tags ctx).
Proof.
  intros out.
  set (memories := match fst out with Ok l => l | Raise _ => [] end).
  assert (fst out = Ok memories) as Hfst by (vm_compute; reflexivity).
  exists memories. split; [exact Hfst|]. split; [vm_compute; reflexivity|].
  assert (out = (Ok memories, snd out)) as Hout.
  { rewrite <- Hfst. apply surjective_pairing. }
  exact (proj1 (@search_task_history_tagged plain_backend "n" 5
                  plain_three_tagged memories (snd out) Hout)).
Defined.
